(** * Consensus over character-level highlights

    A shallow embedding of [consensus/consensus_processor.py] and the
    properties its specification states about it.

    Python objects are records; the dictionaries and sets keyed by character
    position are finite maps and finite sets; a method that mutates [self]
    and may raise returns the new state together with an [outcome].

    What the model fixes:
    - the fields of an annotation are typed, so [int(anno['start_pos'])] and
      the like are the identity; the texts and names are byte strings;
    - the [unicode-escape] codec is a parameter ([Codec]); decoding is
      partial, and a text it rejects raises [UnicodeDecodeError].  The
      concrete batches are run with the codec of CPython 2.7
      ([unicode_escape_codec]);
    - [assert] statements are executed;
    - the order in which a dictionary is iterated is a parameter
      ([DictOrder]) that is given the keys in the order of their insertion:
      Python 2 leaves the order unspecified, and in CPython it depends on
      the hashes of the keys and on the insertion history.  It is used for
      [topics], whose order shows in the rows returned.  The concrete
      batches are run with the order of CPython 2.7's hash table
      ([cpython_order]).  The loops over [contrib_dict] and over the counter
      of a topic are read in key order, and are shown to give the same
      result in every order ([sum_contribs_any_order],
      [get_consensus_any_order]). *)

From stdpp Require Import gmap strings list sorting fin_maps fin_sets.
From Stdlib Require Import ZArith Lia.

Open Scope Z_scope.
#[local] Set Warnings "-clear-no-such-hyp".

(** ** Python runtime pieces the module relies on *)

(** The exceptions the module can raise: a failed [assert], a subscript on
    a dictionary that lacks the key, and a text that the [unicode-escape]
    codec cannot decode. *)
Inductive exn := AssertionError | KeyError | UnicodeDecodeError.

Inductive outcome (A : Type) :=
| Ok (a : A)
| Raise (e : exn).
Arguments Ok {A} a.
Arguments Raise {A} e.

Global Instance exn_eq_dec : EqDecision exn.
Proof. solve_decision. Defined.

Global Instance outcome_eq_dec `{EqDecision A} : EqDecision (outcome A).
Proof. solve_decision. Defined.

(** [assert(b)] *)
Definition py_assert (b : bool) : outcome () :=
  if b then Ok () else Raise AssertionError.

Definition obind {A B} (m : outcome A) (k : A → outcome B) : outcome B :=
  match m with
  | Ok a => k a
  | Raise e => Raise e
  end.

Definition map_outcome {A B} (f : A → B) (m : outcome A) : outcome B :=
  obind m (λ a, Ok (f a)).

(** A [for] loop whose body may raise, collecting what each round yields. *)
Fixpoint for_each {A B} (body : A → outcome B) (l : list A) : outcome (list B) :=
  match l with
  | [] => Ok []
  | x :: l =>
      obind (body x) (λ y, obind (for_each body l) (λ ys, Ok (y :: ys)))
  end.

(** [range(a, b)] *)
Definition range (a b : Z) : list Z := seqZ a (b - a).

(** [dict(pairs)]: later pairs overwrite earlier ones. *)
Definition dict `{Countable K} {V} (pairs : list (K * V)) : gmap K V :=
  foldl (λ d kv, <[kv.1 := kv.2]> d) ∅ pairs.

(** [d.update(other)]: the entries of [other] win. *)
Definition update `{Countable K} {V} (d other : gmap K V) : gmap K V :=
  other ∪ d.

(** [d.keys()] and [d.iteritems()], read in key order: for the loops whose
    result does not depend on the order. *)
Definition keys `{Countable K} {V} (d : gmap K V) : list K := (map_to_list d).*1.
Definition iteritems `{Countable K} {V} (d : gmap K V) : list (K * V) := map_to_list d.

(** The order in which a dictionary with string keys is iterated, given its
    keys in the order in which they were inserted.  The language leaves it
    unspecified; it is some arrangement of the keys. *)
Class DictOrder := {
  iter_keys : list string → list string;
  iter_keys_Permutation inserted : iter_keys inserted ≡ₚ inserted;
}.

(** The keys of a [defaultdict] in the order of their insertion, after the
    subscript [d[k]]: a missing key is inserted. *)
Definition inserted_after {V} (d : gmap string V) (inserted : list string)
    (k : string) : list string :=
  if d !! k is Some _ then inserted else inserted ++ [k].

(** [d.iteritems()] of a dictionary whose keys were inserted in the order
    [inserted]. *)
Definition iteritems_in `{DictOrder} {V} (inserted : list string)
    (d : gmap string V) : list (string * V) :=
  omap (λ k, (k,.) <$> d !! k) (iter_keys inserted).

(** [collections.Counter] over character positions. *)
Module Counter.
Definition of_set (s : gset Z) : gmap Z Z := gset_to_gmap 1 s.

(** [c[k]]: a missing key counts 0. *)
Definition get (c : gmap Z Z) (k : Z) : Z := default 0 (c !! k).

(** [c1 + c2]: counts are added and only positive ones are kept. *)
Definition add (c1 c2 : gmap Z Z) : gmap Z Z :=
  filter (λ kv, 0 < kv.2) (union_with (λ a b, Some (a + b)) c1 c2).
End Counter.

(** The text transport encoding ([unicode-escape]) is an external codec.
    [s.decode('unicode-escape')] is [None] where the codec raises
    [UnicodeDecodeError] (a malformed escape); encoding never raises. *)
Class Codec (char : Type) := {
  char_eq_dec :: EqDecision char;
  unicode_escape_decode : string → option (list char);
  unicode_escape_encode : list char → string;
}.

(** ** Annotation records *)

Module Anno.
Record t := mk {
  start_pos : Z;
  end_pos : Z;
  target_text : string;
  article_sha256 : string;
  article_filename : string;
  contributor_uuid : string;
  topic_name : string;
  namespace : string;
  case_number : Z;
  taskrun_count : Z;
}.
End Anno.

(** ** ArticleData *)

Module ArticleData.
Section article.
Context `{Codec char}.

Record t := mk {
  article_sha256 : option string;
  article_filename : option string;
  char_dict : gmap Z char;
}.

Definition init : t := mk None None ∅.

(** [dict(zip(anno_range, target_text))], for the decoded [target_text] *)
Definition anno_map (anno : Anno.t) (target_text : list char) : gmap Z char :=
  let anno_range := range (Anno.start_pos anno) (Anno.end_pos anno) in
  dict (zip anno_range target_text).

(** The loop of asserts over the shared keys. *)
Definition overlaps_agree (d m : gmap Z char) : bool :=
  let intersection := dom d ∩ dom m in
  forallb (λ k, bool_decide (d !! k = m !! k)) (elements intersection).

Definition consider (self : t) (anno : Anno.t) : t * outcome () :=
  match unicode_escape_decode (Anno.target_text anno) with
  | None => (self, Raise UnicodeDecodeError)
  | Some target_text =>
      let anno_map := anno_map anno target_text in
      if overlaps_agree (char_dict self) anno_map then
        let char_dict := update (char_dict self) anno_map in
        match article_sha256 self with
        | None =>
            (mk (Some (Anno.article_sha256 anno))
                (Some (Anno.article_filename anno)) char_dict, Ok ())
        | Some sha =>
            let self := mk (article_sha256 self) (article_filename self) char_dict in
            (self,
             obind (py_assert (bool_decide (sha = Anno.article_sha256 anno)))
               (λ _, py_assert (bool_decide
                  (article_filename self = Some (Anno.article_filename anno)))))
        end
      else (self, Raise AssertionError)
  end.

Definition get (self : t) (char_index : Z) : outcome char :=
  match char_dict self !! char_index with
  | Some c => Ok c
  | None => Raise KeyError
  end.
End article.
Arguments t char : clear implicits.
End ArticleData.

(** ** ContribData *)

Module ContribData.
Record t := mk {
  flattened : gset Z;
  case_number_dict : gmap Z Z;
}.

Definition init : t := mk ∅ ∅.

Definition consider (self : t) (anno : Anno.t) : t :=
  let anno_set : gset Z :=
    list_to_set (range (Anno.start_pos anno) (Anno.end_pos anno)) in
  let flattened := flattened self ∪ anno_set in
  let case_number_keys := dom (case_number_dict self) in
  let new_keys := anno_set ∖ case_number_keys in
  let overlapped_keys := case_number_keys ∩ anno_set in
  let proposed := Anno.case_number anno in
  let new_dict := gset_to_gmap proposed new_keys in
  let overlapped_dict : gmap Z Z :=
    set_to_map (λ k, (k, Z.min (case_number_dict self !!! k) proposed))
               overlapped_keys in
  mk flattened (update (update (case_number_dict self) new_dict) overlapped_dict).
End ContribData.

(** ** Offsets and output rows

    Offsets and rows are the same dictionaries at different stages: a key
    that has not been set yet is [None].  [extra] holds the value stored
    under [extra.contrib_count]. *)

Module Row.
Record t := mk {
  start_pos : Z;
  end_pos : Z;
  target_text : option string;
  topic_name : option string;
  namespace : option string;
  case_number : option Z;
  article_sha256 : option (option string);
  article_filename : option (option string);
  task_uuid : option string;
  extra : option Z;
}.

Global Instance eq_dec : EqDecision t.
Proof. solve_decision. Defined.

(** [{'start_pos': s, 'end_pos': e}] *)
Definition offset (s e : Z) : t := mk s e None None None None None None None None.

Definition set_target_text (v : string) (r : t) : t :=
  mk (start_pos r) (end_pos r) (Some v) (topic_name r) (namespace r)
     (case_number r) (article_sha256 r) (article_filename r) (task_uuid r) (extra r).

Definition set_case (topic ns : string) (n : Z) (r : t) : t :=
  mk (start_pos r) (end_pos r) (target_text r) (Some topic) (Some ns)
     (Some n) (article_sha256 r) (article_filename r) (task_uuid r) (extra r).

Definition set_article_cols (sha filename : option string) (r : t) : t :=
  mk (start_pos r) (end_pos r) (target_text r) (topic_name r) (namespace r)
     (case_number r) (Some sha) (Some filename) (task_uuid r) (extra r).

Definition set_task_uuid (v : string) (r : t) : t :=
  mk (start_pos r) (end_pos r) (target_text r) (topic_name r) (namespace r)
     (case_number r) (article_sha256 r) (article_filename r) (Some v) (extra r).

Definition set_extra (contrib_count : Z) (r : t) : t :=
  mk (start_pos r) (end_pos r) (target_text r) (topic_name r) (namespace r)
     (case_number r) (article_sha256 r) (article_filename r) (task_uuid r)
     (Some contrib_count).

(** The character positions of the half-open range of a row. *)
Definition covers (r : t) (p : Z) : Prop := start_pos r ≤ p < end_pos r.
End Row.

(** [enumerate(l)] *)
Definition enumerate {A} (l : list A) : list (nat * A) := imap pair l.

(** ** TopicData *)

Module TopicData.
Record t := mk {
  topic_name : string;
  namespace : string;
  contrib_dict : gmap string ContribData.t;
}.

Definition init : t := mk "" "" ∅.

Definition consider (self : t) (anno : Anno.t) : t * outcome () :=
  let contrib_uuid := Anno.contributor_uuid anno in
  (* a [defaultdict]: the subscript creates the entry when it is missing *)
  let contrib_data := default ContribData.init (contrib_dict self !! contrib_uuid) in
  let contrib_data := ContribData.consider contrib_data anno in
  let contrib_dict := <[contrib_uuid := contrib_data]> (contrib_dict self) in
  if bool_decide (topic_name self = "") then
    (mk (Anno.topic_name anno) (Anno.namespace anno) contrib_dict, Ok ())
  else
    (mk (topic_name self) (namespace self) contrib_dict,
     obind (py_assert (bool_decide (topic_name self = Anno.topic_name anno)))
       (λ _, py_assert (bool_decide (namespace self = Anno.namespace anno)))).

Definition sum_contribs (self : t) : gmap Z Z :=
  foldl (λ topic_counter '(contrib_uuid, contrib_data),
           Counter.add topic_counter
             (Counter.of_set (ContribData.flattened contrib_data)))
        ∅ (iteritems (contrib_dict self)).

(** One round of the loop of [convert_to_ranges]; the state is
    [(offsets, start, end)]. *)
Definition ranges_step (indices : list Z)
    (st : list Row.t * Z * Z) (ip : nat * Z) : list Row.t * Z * Z :=
  let '(offsets, start, _end) := st in
  let '(i, pos) := ip in
  if bool_decide (0 < i)%nat
     && negb (bool_decide (indices !!! (i - 1)%nat + 1 = pos))
  then (offsets ++ [Row.offset start _end], pos, pos + 1)
  else (offsets, start, pos + 1).

Definition convert_to_ranges (positions : list Z) : list Row.t :=
  if bool_decide (length positions ≠ 0%nat) then
    let indices := merge_sort Z.le positions in
    let start := indices !!! 0%nat in
    let '(offsets, start, _end) :=
      foldl (ranges_step indices) ([], start, start + 1) (enumerate indices) in
    offsets ++ [Row.offset start _end]
  else [].

Definition determine_cases (self : t) (offsets : list Row.t) : list Row.t :=
  imap (λ seq offset,
          Row.set_case (topic_name self) (namespace self) (Z.of_nat seq + 1) offset)
       offsets.

Definition get_consensus (self : t) (determine_passing : Z * Z → bool)
    : list Row.t :=
  let topic_counter := sum_contribs self in
  let passing_tuples := List.filter determine_passing (iteritems topic_counter) in
  let passing_indices := keys (dict passing_tuples) in
  convert_to_ranges passing_indices.

Definition get_contrib_count (self : t) : Z :=
  Z.of_nat (size (contrib_dict self)).
End TopicData.

(** ** ConsensusProcessor *)

Definition MIN_REDUNDANCY : Z := 3.
Definition PASS_THRESHOLD : Z := 2.

(** A [for] loop over [l] whose body mutates the state and may raise: the
    loop stops at the first exception and keeps what was mutated so far. *)
Fixpoint for_state {S A} (body : S → A → S * outcome ()) (s : S) (l : list A)
    : S * outcome () :=
  match l with
  | [] => (s, Ok ())
  | x :: l =>
      match body s x with
      | (s, Ok _) => for_state body s l
      | (s, Raise e) => (s, Raise e)
      end
  end.

Module ConsensusProcessor.
Section processor.
Context `{Codec char} `{DictOrder}.

(** [topics_inserted] holds the keys of [topics] in the order in which they
    were inserted: what the hash table of the dictionary remembers of its
    history, and what its iteration order depends on. *)
Record t := mk {
  task_uuid : string;
  iaa_config : gmap string Z;
  article_data : ArticleData.t char;
  topics : gmap string TopicData.t;
  topics_inserted : list string;
}.

Definition init (task_uuid : string) (iaa_config : gmap string Z) : t :=
  mk task_uuid iaa_config ArticleData.init ∅ [].

(** The body of the loop of [consider]. *)
Definition consider_anno (minimum_redundancy : Z) (self : t) (anno : Anno.t)
    : t * outcome () :=
  if bool_decide (Anno.taskrun_count anno < minimum_redundancy) then (self, Ok ())
  else
    let '(article_data, r) := ArticleData.consider (article_data self) anno in
    match r with
    | Raise e => (mk (task_uuid self) (iaa_config self) article_data (topics self)
                     (topics_inserted self),
                  Raise e)
    | Ok _ =>
        let topic_name := Anno.topic_name anno in
        (* a [defaultdict]: the subscript creates the entry when it is missing *)
        let topic_data := default TopicData.init (topics self !! topic_name) in
        let topics_inserted :=
          inserted_after (topics self) (topics_inserted self) topic_name in
        let '(topic_data, r) := TopicData.consider topic_data anno in
        (mk (task_uuid self) (iaa_config self) article_data
            (<[topic_name := topic_data]> (topics self)) topics_inserted, r)
    end.

Definition consider (self : t) (task_highlights : list Anno.t) : t * outcome () :=
  let minimum_redundancy :=
    default MIN_REDUNDANCY (iaa_config self !! "minimum_redundancy") in
  for_state (consider_anno minimum_redundancy) self task_highlights.

Definition set_text (self : t) (offsets : list Row.t) : outcome (list Row.t) :=
  for_each (λ offset,
      let start := Row.start_pos offset in
      let _end := Row.end_pos offset in
      obind (for_each (ArticleData.get (article_data self)) (range start _end))
        (λ chars, Ok (Row.set_target_text (unicode_escape_encode chars) offset)))
    offsets.

Definition set_links (self : t) (rows : list Row.t) : list Row.t :=
  (λ row, Row.set_task_uuid (task_uuid self)
            (Row.set_article_cols
               (ArticleData.article_sha256 (article_data self))
               (ArticleData.article_filename (article_data self)) row)) <$> rows.

Definition determine_passing (pass_threshold : Z) (index_comma_total : Z * Z) : bool :=
  let '(index, total) := index_comma_total in
  total >=? pass_threshold.

Definition pass_threshold (self : t) : Z :=
  default PASS_THRESHOLD (iaa_config self !! "pass_threshold").

(** The body of the loop of [get_consensus]. *)
Definition topic_consensus (self : t) (topic_data : TopicData.t)
    : outcome (list Row.t) :=
  let offsets := TopicData.get_consensus topic_data
                   (determine_passing (pass_threshold self)) in
  obind (set_text self offsets) (λ offsets,
    let rows := TopicData.determine_cases topic_data offsets in
    Ok (set_links self rows)).

Definition get_consensus (self : t) : outcome (list Row.t) :=
  map_outcome (concat (A:=Row.t))
    (for_each (λ '(topic_name, topic_data), topic_consensus self topic_data)
              (iteritems_in (topics_inserted self) (topics self))).

(** The body of the loop of [get_answer_consensus]. *)
Definition topic_answer_consensus (self : t) (topic_data : TopicData.t)
    : outcome (list Row.t) :=
  let pass_threshold := pass_threshold self in
  let offsets := TopicData.get_consensus topic_data
                   (determine_passing pass_threshold) in
  let contrib_count := TopicData.get_contrib_count topic_data in
  let offsets :=
    if bool_decide (length offsets = 0%nat)
       && (contrib_count >=? pass_threshold)
    then [Row.offset 0 0] else offsets in
  obind (set_text self offsets) (λ offsets,
    let rows := TopicData.determine_cases topic_data offsets in
    let rows := set_links self rows in
    Ok (Row.set_extra contrib_count <$> rows)).

Definition get_answer_consensus (self : t) : outcome (list Row.t) :=
  map_outcome (concat (A:=Row.t))
    (for_each (λ '(topic_name, topic_data), topic_answer_consensus self topic_data)
              (iteritems_in (topics_inserted self) (topics self))).
End processor.
Arguments t char : clear implicits.
End ConsensusProcessor.

(** * Vocabulary of the specification *)

(** ** The codec, to run the model on concrete batches

    CPython 2.7's [unicode-escape] codec on a wide build: a byte string is
    decoded to a list of code points, and a list of code points is encoded
    to a byte string.  Named characters ([\N{...}]) need the Unicode
    database and are not covered: the instance rejects them. *)

Module UnicodeEscape.
#[local] Open Scope N_scope.

Definition hex_digit (c : N) : option N :=
  if (48 <=? c) && (c <=? 57) then Some (c - 48)
  else if (97 <=? c) && (c <=? 102) then Some (c - 87)
  else if (65 <=? c) && (c <=? 70) then Some (c - 55)
  else None.

Definition oct_digit (c : N) : option N :=
  if (48 <=? c) && (c <=? 55) then Some (c - 48) else None.

(** The value of hexadecimal digits, most significant first; [None] when
    one of them is no digit. *)
Definition hex_value (digits : list N) : option N :=
  foldl (λ acc c, v ← acc; d ← hex_digit c; Some (16 * v + d)) (Some 0) digits.

(** The escapes of one character after the backslash. *)
Definition simple_escape (c : N) : option N :=
  if c =? 92 then Some 92          (* \\ *)
  else if c =? 39 then Some 39     (* \' *)
  else if c =? 34 then Some 34     (* \dq *)
  else if c =? 98 then Some 8      (* \b *)
  else if c =? 102 then Some 12    (* \f *)
  else if c =? 116 then Some 9     (* \t *)
  else if c =? 110 then Some 10    (* \n *)
  else if c =? 114 then Some 13    (* \r *)
  else if c =? 118 then Some 11    (* \v *)
  else if c =? 97 then Some 7      (* \a *)
  else None.

Definition code_point (v : option N) : option N :=
  v ← v; if v <=? 1114111 then Some v else None.

Fixpoint decode (s : list N) : option (list N) :=
  match s with
  | [] => Some []
  | c :: s =>
      if negb (c =? 92) then (c ::.) <$> decode s
      else
        match s with
        | [] => None
        | e :: s =>
            if e =? 10 then decode s
            else if simple_escape e is Some v then (v ::.) <$> decode s
            else if oct_digit e is Some d1 then
              match s with
              | o2 :: s2 =>
                  if oct_digit o2 is Some d2 then
                    match s2 with
                    | o3 :: s3 =>
                        if oct_digit o3 is Some d3
                        then ((64 * d1 + 8 * d2 + d3) ::.) <$> decode s3
                        else ((8 * d1 + d2) ::.) <$> decode s2
                    | [] => Some [8 * d1 + d2]
                    end
                  else (d1 ::.) <$> decode s
              | [] => Some [d1]
              end
            else if e =? 120 then
              match s with
              | h1 :: h2 :: s =>
                  v ← hex_value [h1; h2]; (v ::.) <$> decode s
              | _ => None
              end
            else if e =? 117 then
              match s with
              | h1 :: h2 :: h3 :: h4 :: s =>
                  v ← hex_value [h1; h2; h3; h4]; (v ::.) <$> decode s
              | _ => None
              end
            else if e =? 85 then
              match s with
              | h1 :: h2 :: h3 :: h4 :: h5 :: h6 :: h7 :: h8 :: s =>
                  v ← code_point (hex_value [h1; h2; h3; h4; h5; h6; h7; h8]);
                  (v ::.) <$> decode s
              | _ => None
              end
            else if e =? 78 then None
            else (λ l, 92 :: e :: l) <$> decode s
        end
  end.

Definition hex_char (d : N) : N := if d <? 10 then 48 + d else 87 + d.

(** [n] hexadecimal digits of [v], most significant first. *)
Fixpoint hex_digits (n : nat) (v : N) : list N :=
  match n with
  | O => []
  | S n => hex_digits n (v / 16) ++ [hex_char (v mod 16)]
  end.

Definition encode_char (ch : N) : list N :=
  if ch =? 92 then [92; 92]
  else if 65536 <=? ch then 92 :: 85 :: hex_digits 8 ch
  else if 256 <=? ch then 92 :: 117 :: hex_digits 4 ch
  else if ch =? 9 then [92; 116]
  else if ch =? 10 then [92; 110]
  else if ch =? 13 then [92; 114]
  else if (ch <? 32) || (127 <=? ch) then 92 :: 120 :: hex_digits 2 ch
  else [ch].

Definition bytes (s : string) : list N :=
  Ascii.N_of_ascii <$> String.list_ascii_of_string s.
Definition of_bytes (l : list N) : string :=
  String.string_of_list_ascii (Ascii.ascii_of_N <$> l).
End UnicodeEscape.

Global Instance unicode_escape_codec : Codec N := {|
  unicode_escape_decode s := UnicodeEscape.decode (UnicodeEscape.bytes s);
  unicode_escape_encode chars :=
    UnicodeEscape.of_bytes (chars ≫= UnicodeEscape.encode_char);
|}.

(** ** The dictionary order, to run the model on concrete batches

    The hash table of a CPython 2.7 dictionary with byte-string keys, on a
    64-bit build and without hash randomisation (the default), as far as
    the iteration order depends on it: the hash of a string, the probe
    sequence of [lookdict_string], the resize of [PyDict_SetItem] when two
    thirds of the slots are taken, and the iteration slot by slot.  Keys
    are never deleted by the module, so no slot is a dummy. *)

Module PyDict.
#[local] Open Scope N_scope.

(** Arithmetic on an unsigned machine word. *)
Definition wrap (x : N) : N := x mod 2 ^ 64.

(** [string_hash]: the hash as an unsigned word; [-1] is replaced by [-2]. *)
Definition string_hash (s : string) : N :=
  match UnicodeEscape.bytes s with
  | [] => 0
  | p :: _ =>
      let x := N.shiftl p 7 in
      let x := foldl (λ x p, N.lxor (wrap (1000003 * x)) p) x
                 (UnicodeEscape.bytes s) in
      let x := N.lxor x (N.of_nat (length (UnicodeEscape.bytes s))) in
      if decide (x = 2 ^ 64 - 1) then 2 ^ 64 - 2 else x
  end.

(** The table has [ma_mask + 1] slots; [ma_table] holds the keys of the
    slots that are taken. *)
Record t := mk {
  ma_mask : N;
  ma_table : gmap N string;
}.

Definition empty : t := mk 7 ∅.

Definition ma_used (mp : t) : N := N.of_nat (size (ma_table mp)).

(** The probe loop of [lookdict_string], from the slot [i land ma_mask]:
    the slot of [key], or the first free slot met.  The loop of the source
    is unbounded; [rounds] bounds it here. *)
Fixpoint lookdict (rounds : nat) (mp : t) (key : string) (i perturb : N)
    : option N :=
  let slot := N.land i (ma_mask mp) in
  match ma_table mp !! slot with
  | None => Some slot
  | Some k =>
      if decide (k = key) then Some slot
      else
        match rounds with
        | O => None
        | S rounds =>
            lookdict rounds mp key (wrap (N.shiftl i 2 + i + perturb + 1))
              (N.shiftr perturb 5)
        end
  end.

Definition find_slot (mp : t) (key : string) : option N :=
  let hash := string_hash key in
  lookdict (N.to_nat (ma_mask mp) + 64) mp key (N.land hash (ma_mask mp)) hash.

(** [insertdict] for a key: the key takes the slot the probe loop ends
    at.  (When the bound of the loop is hit the table stays as it is.) *)
Definition insertdict (mp : t) (key : string) : t :=
  match find_slot mp key with
  | Some slot => mk (ma_mask mp) (<[slot := key]> (ma_table mp))
  | None => mp
  end.

(** The keys slot by slot: the order of iteration. *)
Definition slots (mp : t) : list string :=
  omap (λ i, ma_table mp !! N.of_nat i) (seq 0 (N.to_nat (ma_mask mp) + 1)).

(** [for (newsize = 8; newsize <= minused; newsize <<= 1);] *)
Fixpoint newsize_loop (rounds : nat) (newsize minused : N) : N :=
  match rounds with
  | O => newsize
  | S rounds =>
      if decide (newsize ≤ minused)
      then newsize_loop rounds (2 * newsize) minused
      else newsize
  end.

(** [dictresize]: the keys are inserted into the new table in the order of
    the slots of the old one. *)
Definition dictresize (mp : t) (minused : N) : t :=
  let newsize := newsize_loop 64 8 minused in
  foldl insertdict (mk (newsize - 1) ∅) (slots mp).

(** [PyDict_SetItem], which the subscript of a [defaultdict] calls for a
    missing key. *)
Definition setitem (mp : t) (key : string) : t :=
  let n_used := ma_used mp in
  let mp := insertdict mp key in
  if decide (n_used < ma_used mp ∧ (ma_mask mp + 1) * 2 ≤ ma_used mp * 3)
  then dictresize mp ((if decide (50000 < ma_used mp) then 2 else 4) * ma_used mp)
  else mp.

(** The iteration order of a dictionary whose keys were inserted in the
    order [inserted]. *)
Definition keys_after (inserted : list string) : list string :=
  slots (foldl setitem empty inserted).
End PyDict.

(** The order of CPython 2.7.  The test makes the order an arrangement of
    the keys by construction, which spares the proof that the probe
    sequence reaches a free slot within the bound. *)
Global Instance cpython_order : DictOrder.
Proof.
  refine {| iter_keys inserted :=
              let order := PyDict.keys_after inserted in
              if decide (order ≡ₚ inserted) then order else inserted |}.
  intros inserted. simpl. by case_decide.
Defined.

(** The decoded text of an annotation (empty when the codec rejects it),
    and the characters it assigns to the positions of its range. *)
Definition decoded `{Codec char} (anno : Anno.t) : list char :=
  default [] (unicode_escape_decode (Anno.target_text anno)).

Definition decodes `{Codec char} (anno : Anno.t) : Prop :=
  is_Some (unicode_escape_decode (Anno.target_text anno)).

Definition text_map `{Codec char} (anno : Anno.t) : gmap Z char :=
  ArticleData.anno_map anno (decoded anno).

(** The decoded text of [anno] assigns, at a position the article already
    knows, a character other than the known one. *)
Definition char_clash `{Codec char} (self : ArticleData.t char) (anno : Anno.t) : Prop :=
  ∃ (i : nat) (known new : char),
    Anno.start_pos anno + Z.of_nat i < Anno.end_pos anno
    ∧ decoded anno !! i = Some new
    ∧ ArticleData.char_dict self !! (Anno.start_pos anno + Z.of_nat i) = Some known
    ∧ known ≠ new.

(** An identity is recorded and [anno] carries another one. *)
Definition identity_clash {char} (self : ArticleData.t char) (anno : Anno.t) : Prop :=
  ∃ sha, ArticleData.article_sha256 self = Some sha
    ∧ (sha ≠ Anno.article_sha256 anno
       ∨ ArticleData.article_filename self ≠ Some (Anno.article_filename anno)).

(** The loop of [convert_to_ranges] read as a recursion over the sorted
    positions: [start] opens the current run and [prev] is its last position
    so far.  [convert_to_ranges_runs] shows that the loop computes it. *)
Fixpoint runs_from (start prev : Z) (indices : list Z) : list Row.t :=
  match indices with
  | [] => [Row.offset start (prev + 1)]
  | pos :: indices =>
      if decide (prev + 1 = pos) then runs_from start pos indices
      else Row.offset start (prev + 1) :: runs_from pos pos indices
  end.

Definition runs (indices : list Z) : list Row.t :=
  match indices with
  | [] => []
  | pos :: indices => runs_from pos pos indices
  end.

(** Ranges that are non-empty, ascending, and each starting strictly after
    the end of the one before ([lo] bounds the first one): between two of
    them lies at least one position that neither covers. *)
Fixpoint separated (lo : Z) (rows : list Row.t) : Prop :=
  match rows with
  | [] => True
  | r :: rows =>
      lo < Row.start_pos r ∧ Row.start_pos r < Row.end_pos r
      ∧ separated (Row.end_pos r) rows
  end.

(** The character positions of a list of ranges. *)
Definition positions_of (rows : list Row.t) : list Z :=
  r ← rows; range (Row.start_pos r) (Row.end_pos r).

(** Some row of the list covers [p]. *)
Definition covered (rows : list Row.t) (p : Z) : Prop :=
  ∃ r, r ∈ rows ∧ Row.covers r p.

(** The flattened position set of each contributor of a topic. *)
Definition flattened_of (topic_data : TopicData.t) : gmap string (gset Z) :=
  ContribData.flattened <$> TopicData.contrib_dict topic_data.

(** The contributors of a topic whose flattened set contains [p]. *)
Definition contributors_at (topic_data : TopicData.t) (p : Z)
    : gmap string ContribData.t :=
  filter (λ kv, p ∈ ContribData.flattened kv.2) (TopicData.contrib_dict topic_data).

(** The topic without the contributor [contrib_uuid]. *)
Definition without_contributor (contrib_uuid : string) (topic_data : TopicData.t)
    : TopicData.t :=
  TopicData.mk (TopicData.topic_name topic_data) (TopicData.namespace topic_data)
    (delete contrib_uuid (TopicData.contrib_dict topic_data)).

(** A counter all of whose stored counts are positive. *)
Definition positive (c : gmap Z Z) : Prop := ∀ k v, c !! k = Some v → 0 < v.

(** The half-open range [(start_pos, end_pos)] of a row. *)
Definition span (r : Row.t) : Z * Z := (Row.start_pos r, Row.end_pos r).

(** A position passes at threshold [pass_threshold] in a topic: the topic's
    counter holds it with a total that reaches the threshold. *)
Definition passing (topic_data : TopicData.t) (pass_threshold p : Z) : Prop :=
  ∃ total, TopicData.sum_contribs topic_data !! p = Some total
    ∧ pass_threshold ≤ total.

(** The row without its [extra] key. *)
Definition clear_extra (r : Row.t) : Row.t :=
  Row.mk (Row.start_pos r) (Row.end_pos r) (Row.target_text r) (Row.topic_name r)
    (Row.namespace r) (Row.case_number r) (Row.article_sha256 r)
    (Row.article_filename r) (Row.task_uuid r) None.

(** The rows of an answer consensus read as highlight rows: the zero-length
    placeholders are dropped and [extra] is removed. *)
Definition highlight_rows (rows : list Row.t) : list Row.t :=
  clear_extra <$> filter (λ r, Row.start_pos r < Row.end_pos r) rows.

(** Two annotations agree: their texts can be decoded, where the decoded
    texts meet they hold the same character, they name the same article, and
    when they belong to the same topic they carry the same namespace. *)
Definition agree `{Codec char} (anno1 anno2 : Anno.t) : Prop :=
  decodes anno1 ∧ decodes anno2
  ∧ (∀ k c c', text_map anno1 !! k = Some c →
               text_map anno2 !! k = Some c' → c = c')
  ∧ Anno.article_sha256 anno1 = Anno.article_sha256 anno2
  ∧ Anno.article_filename anno1 = Anno.article_filename anno2
  ∧ (Anno.topic_name anno1 = Anno.topic_name anno2 →
     Anno.namespace anno1 = Anno.namespace anno2).

(** A consistent batch: the annotations that pass the redundancy filter
    agree with one another. *)
Definition consistent `{Codec char} (minimum_redundancy : Z) (batch : list Anno.t)
    : Prop :=
  ∀ anno1 anno2, anno1 ∈ batch → anno2 ∈ batch →
    ¬ Anno.taskrun_count anno1 < minimum_redundancy →
    ¬ Anno.taskrun_count anno2 < minimum_redundancy →
    agree anno1 anno2.

(** Two processors that differ at most in the order in which their topics
    were inserted. *)
Definition same_up_to_order {char} (self self' : ConsensusProcessor.t char)
    : Prop :=
  ConsensusProcessor.task_uuid self = ConsensusProcessor.task_uuid self'
  ∧ ConsensusProcessor.iaa_config self = ConsensusProcessor.iaa_config self'
  ∧ ConsensusProcessor.article_data self = ConsensusProcessor.article_data self'
  ∧ ConsensusProcessor.topics self = ConsensusProcessor.topics self'
  ∧ ConsensusProcessor.topics_inserted self
      ≡ₚ ConsensusProcessor.topics_inserted self'.

(** The annotation with another end of range. *)
Definition with_end_pos (end_pos : Z) (anno : Anno.t) : Anno.t :=
  Anno.mk (Anno.start_pos anno) end_pos (Anno.target_text anno)
    (Anno.article_sha256 anno) (Anno.article_filename anno)
    (Anno.contributor_uuid anno) (Anno.topic_name anno) (Anno.namespace anno)
    (Anno.case_number anno) (Anno.taskrun_count anno).

(** The annotation with another proposed case number. *)
Definition with_case_number (case_number : Z) (anno : Anno.t) : Anno.t :=
  Anno.mk (Anno.start_pos anno) (Anno.end_pos anno) (Anno.target_text anno)
    (Anno.article_sha256 anno) (Anno.article_filename anno)
    (Anno.contributor_uuid anno) (Anno.topic_name anno) (Anno.namespace anno)
    case_number (Anno.taskrun_count anno).

(** Two batches that differ at most in the case numbers their annotations
    propose. *)
Definition same_but_case_numbers (batch batch' : list Anno.t) : Prop :=
  Forall2 (λ anno anno', anno' = with_case_number (Anno.case_number anno') anno)
          batch batch'.

(** The state without the case numbers the contributors proposed. *)
Definition forget_cases_contrib (contrib_data : ContribData.t) : ContribData.t :=
  ContribData.mk (ContribData.flattened contrib_data) ∅.

Definition forget_cases_topic (topic_data : TopicData.t) : TopicData.t :=
  TopicData.mk (TopicData.topic_name topic_data) (TopicData.namespace topic_data)
    (forget_cases_contrib <$> TopicData.contrib_dict topic_data).

Definition forget_cases {char} (self : ConsensusProcessor.t char)
    : ConsensusProcessor.t char :=
  ConsensusProcessor.mk (ConsensusProcessor.task_uuid self)
    (ConsensusProcessor.iaa_config self) (ConsensusProcessor.article_data self)
    (forget_cases_topic <$> ConsensusProcessor.topics self)
    (ConsensusProcessor.topics_inserted self).

(** ** A small batch to run the model on

    Three contributors of one topic over an article that reads
    [abcdef..ij]: A marks [0,4), B marks [2,6), C marks [8,10). *)

Definition example_anno (start_pos end_pos : Z) (target_text : string)
    (contributor_uuid topic_name : string) (taskrun_count : Z) : Anno.t :=
  Anno.mk start_pos end_pos target_text "sha-1" "article.txt"
    contributor_uuid topic_name "ns" 1 taskrun_count.

Definition example_batch : list Anno.t :=
  [example_anno 0 4 "abcd" "A" "T1" 3;
   example_anno 2 6 "cdef" "B" "T1" 3;
   example_anno 8 10 "ij" "C" "T1" 3].

(** The processor of task [task] after it was fed [batch]. *)
Definition example_run (iaa_config : gmap string Z) (batch : list Anno.t)
    : ConsensusProcessor.t N :=
  (ConsensusProcessor.consider (ConsensusProcessor.init "task" iaa_config) batch).1.

Definition example_processor (iaa_config : gmap string Z)
    : ConsensusProcessor.t N :=
  example_run iaa_config example_batch.

Definition example_topic : TopicData.t :=
  default TopicData.init
    (ConsensusProcessor.topics (example_processor ∅) !! "T1").

(** Three contributors who chose the answer [T2] without a highlight. *)
Definition example_answers : list Anno.t :=
  [example_anno 0 0 "" "A" "T2" 3;
   example_anno 0 0 "" "B" "T2" 3;
   example_anno 0 0 "" "C" "T2" 3].

(** ** Vocabulary for the state the methods build *)

(** The range of the annotation contains [p]. *)
Definition marks (anno : Anno.t) (p : Z) : Prop :=
  Anno.start_pos anno ≤ p < Anno.end_pos anno.

(** A contributor's data after their annotations, from the first on. *)
Definition contrib_after (annos : list Anno.t) : ContribData.t :=
  foldl ContribData.consider ContribData.init annos.

(** [chars] are the characters the article has recorded for the positions
    [s], ..., [e - 1], in this order. *)
Definition recorded_text `{Codec char} (article : ArticleData.t char) (s e : Z)
    (chars : list char) : Prop :=
  Forall2 (λ p c, ArticleData.char_dict article !! p = Some c) (range s e) chars.

(** The annotation passes the redundancy filter of [consider]. *)
Definition counted (minimum_redundancy : Z) (anno : Anno.t) : Prop :=
  ¬ Anno.taskrun_count anno < minimum_redundancy.

(** The redundancy [consider] reads from the configuration. *)
Definition redundancy_of (iaa_config : gmap string Z) : Z :=
  default MIN_REDUNDANCY (iaa_config !! "minimum_redundancy").

(** [self'] holds everything [self] holds: the same task and configuration,
    every recorded character, the recorded identity, the topics inserted so
    far in the same order, every topic with its name once it has one, every
    contributor, every flattened position. *)
Definition grows `{Codec char} (self self' : ConsensusProcessor.t char) : Prop :=
  ConsensusProcessor.task_uuid self' = ConsensusProcessor.task_uuid self
  ∧ ConsensusProcessor.iaa_config self' = ConsensusProcessor.iaa_config self
  ∧ ArticleData.char_dict (ConsensusProcessor.article_data self)
      ⊆ ArticleData.char_dict (ConsensusProcessor.article_data self')
  ∧ (∀ sha,
       ArticleData.article_sha256 (ConsensusProcessor.article_data self) = Some sha →
       ArticleData.article_sha256 (ConsensusProcessor.article_data self') = Some sha
       ∧ ArticleData.article_filename (ConsensusProcessor.article_data self')
         = ArticleData.article_filename (ConsensusProcessor.article_data self))
  ∧ ConsensusProcessor.topics_inserted self
      `prefix_of` ConsensusProcessor.topics_inserted self'
  ∧ ∀ T topic_data,
      ConsensusProcessor.topics self !! T = Some topic_data →
      ∃ topic_data',
        ConsensusProcessor.topics self' !! T = Some topic_data'
        ∧ (TopicData.topic_name topic_data ≠ "" →
           TopicData.topic_name topic_data' = TopicData.topic_name topic_data
           ∧ TopicData.namespace topic_data' = TopicData.namespace topic_data)
        ∧ ∀ u contrib_data,
            TopicData.contrib_dict topic_data !! u = Some contrib_data →
            ∃ contrib_data',
              TopicData.contrib_dict topic_data' !! u = Some contrib_data'
              ∧ ContribData.flattened contrib_data
                  ⊆ ContribData.flattened contrib_data'.

(** The processor of a task after [consider] was called on each batch in
    turn, whatever the calls raised. *)
Definition fed `{Codec char} (task_uuid : string) (iaa_config : gmap string Z)
    (batches : list (list Anno.t)) : ConsensusProcessor.t char :=
  foldl (λ self batch, (ConsensusProcessor.consider self batch).1)
        (ConsensusProcessor.init task_uuid iaa_config) batches.

(** What holds of every processor that was built by [consider]: a topic is
    stored under its own name, has a contributor, and each contributor's
    case numbers are defined exactly on their flattened positions; as long
    as no identity is recorded, nothing else is; and the topics inserted
    are the topics held, each once. *)
Definition well_formed `{Codec char} (self : ConsensusProcessor.t char) : Prop :=
  (∀ T topic_data,
     ConsensusProcessor.topics self !! T = Some topic_data →
     TopicData.topic_name topic_data = T
     ∧ TopicData.contrib_dict topic_data ≠ ∅
     ∧ ∀ u contrib_data,
         TopicData.contrib_dict topic_data !! u = Some contrib_data →
         dom (ContribData.case_number_dict contrib_data)
         = ContribData.flattened contrib_data)
  ∧ (ArticleData.article_sha256 (ConsensusProcessor.article_data self) = None
     ↔ ArticleData.article_filename (ConsensusProcessor.article_data self) = None)
  ∧ (ArticleData.article_sha256 (ConsensusProcessor.article_data self) = None →
     ArticleData.char_dict (ConsensusProcessor.article_data self) = ∅
     ∧ ConsensusProcessor.topics self = ∅)
  ∧ NoDup (ConsensusProcessor.topics_inserted self)
  ∧ (∀ T, T ∈ ConsensusProcessor.topics_inserted self
          ↔ is_Some (ConsensusProcessor.topics self !! T)).

Global Instance counted_dec minimum_redundancy anno :
  Decision (counted minimum_redundancy anno).
Proof. unfold counted. apply _. Defined.

Global Instance marks_dec anno p : Decision (marks anno p).
Proof. unfold marks. apply _. Defined.

(** What the processor holds for contributor [u] of topic [T]. *)
Definition contrib_of `{Codec char} (self : ConsensusProcessor.t char)
    (T u : string) : option ContribData.t :=
  ConsensusProcessor.topics self !! T
    ≫= λ topic_data, TopicData.contrib_dict topic_data !! u.

(** The annotations of a batch that pass the redundancy filter and were
    made by contributor [u] under topic [T], in the order of the batch. *)
Definition annos_of (minimum_redundancy : Z) (batch : list Anno.t)
    (T u : string) : list Anno.t :=
  filter (λ anno, counted minimum_redundancy anno
                  ∧ Anno.topic_name anno = T
                  ∧ Anno.contributor_uuid anno = u) batch.

(** The contributors with an annotation of the batch that passes the
    redundancy filter, belongs to topic [T] and marks position [p]. *)
Definition supporters (minimum_redundancy : Z) (batch : list Anno.t)
    (T : string) (p : Z) : gset string :=
  list_to_set
    (Anno.contributor_uuid
       <$> filter (λ anno, counted minimum_redundancy anno
                           ∧ Anno.topic_name anno = T ∧ marks anno p) batch).

(** The contributors with an annotation of the batch that passes the
    redundancy filter and belongs to topic [T]. *)
Definition contributors (minimum_redundancy : Z) (batch : list Anno.t)
    (T : string) : gset string :=
  list_to_set
    (Anno.contributor_uuid
       <$> filter (λ anno, counted minimum_redundancy anno
                           ∧ Anno.topic_name anno = T) batch).

(** The decoded text of the annotation is at least as long as its range. *)
Definition full_text `{Codec char} (anno : Anno.t) : Prop :=
  Anno.end_pos anno - Anno.start_pos anno
  ≤ Z.of_nat (length (decoded anno)).

(** Every position a contributor has marked has a recorded character. *)
Definition legible `{Codec char} (self : ConsensusProcessor.t char) : Prop :=
  ∀ T topic_data u contrib_data p,
    ConsensusProcessor.topics self !! T = Some topic_data →
    TopicData.contrib_dict topic_data !! u = Some contrib_data →
    p ∈ ContribData.flattened contrib_data →
    is_Some (ArticleData.char_dict (ConsensusProcessor.article_data self) !! p).

Global Instance covers_dec r p : Decision (Row.covers r p).
Proof. unfold Row.covers. apply _. Defined.

(** The topic is named and the annotation carries another name or another
    namespace. *)
Definition topic_clash (topic_data : TopicData.t) (anno : Anno.t) : Prop :=
  TopicData.topic_name topic_data ≠ ""
  ∧ (TopicData.topic_name topic_data ≠ Anno.topic_name anno
     ∨ TopicData.namespace topic_data ≠ Anno.namespace anno).

(** ** More of the example

    The consensus row of the example batch, the answer row of the example
    answers, and two annotations that disagree on the character at
    position 5. *)

Definition example_row : Row.t :=
  Row.mk 2 4 (Some "cd") (Some "T1") (Some "ns") (Some 1)
    (Some (Some "sha-1")) (Some (Some "article.txt")) (Some "task") None.

Definition example_answer_row : Row.t :=
  Row.mk 0 0 (Some "") (Some "T2") (Some "ns") (Some 1)
    (Some (Some "sha-1")) (Some (Some "article.txt")) (Some "task") (Some 3).

Definition example_conflict : list Anno.t :=
  [example_anno 4 6 "ef" "A" "T1" 3; example_anno 5 7 "xg" "B" "T1" 3].

(** The topics of a batch in the order in which the annotations that pass
    the redundancy filter first name them. *)
Definition first_named (minimum_redundancy : Z) (batch : list Anno.t)
    : list string :=
  foldl (λ named T, if decide (T ∈ named) then named else named ++ [T]) []
    (Anno.topic_name <$> filter (counted minimum_redundancy) batch).

(** One contributor marks [0,2) under topic [a] and [2,4) under topic [i],
    and the same batch the other way round.  The hashes of [a] and [i] end
    in the same three bits, so in a dictionary of eight slots the two keys
    compete for slot 0 and the key inserted first gets it. *)
Definition example_two_topics : list Anno.t :=
  [example_anno 0 2 "ab" "A" "a" 3; example_anno 2 4 "cd" "A" "i" 3].

Definition example_two_topics_swapped : list Anno.t :=
  [example_anno 2 4 "cd" "A" "i" 3; example_anno 0 2 "ab" "A" "a" 3].

Definition example_row_a : Row.t :=
  Row.mk 0 2 (Some "ab") (Some "a") (Some "ns") (Some 1)
    (Some (Some "sha-1")) (Some (Some "article.txt")) (Some "task") None.

Definition example_row_i : Row.t :=
  Row.mk 2 4 (Some "cd") (Some "i") (Some "ns") (Some 1)
    (Some (Some "sha-1")) (Some (Some "article.txt")) (Some "task") None.

(** An annotation whose text is [a], [b] and a lone backslash, which
    [unicode-escape] cannot decode. *)
Definition example_undecodable : Anno.t :=
  example_anno 0 3 (UnicodeEscape.of_bytes [97; 98; 92]%N) "A" "T1" 3.

(** * Properties *)

(** ** The Python runtime pieces *)

Section runtime.
Context `{Countable K} {V : Type}.
Implicit Types (l : list (K * V)) (d : gmap K V).

Lemma dict_snoc l k v : dict (l ++ [(k, v)]) = <[k := v]> (dict l).
Proof. unfold dict. by rewrite foldl_snoc. Qed.

Lemma dict_list_to_map l : NoDup l.*1 → dict l = list_to_map l.
Proof.
  induction l as [|[k v] l IH] using rev_ind; [done|].
  rewrite fmap_app, NoDup_app. intros (Hl & Hk & _).
  rewrite dict_snoc, IH by done. apply map_eq. intros j.
  destruct (decide (k = j)) as [->|Hne].
  - rewrite lookup_insert_eq. symmetry.
    apply elem_of_list_to_map; [|set_solver].
    rewrite fmap_app. apply NoDup_app. split_and!; [done| |apply NoDup_singleton].
    intros x Hx. apply Hk in Hx. set_solver.
  - rewrite lookup_insert_ne by done.
    destruct (list_to_map l !! j) as [w|] eqn:Hj.
    + apply elem_of_list_to_map in Hj; [|done]. symmetry.
      apply elem_of_list_to_map; [|set_solver].
      rewrite fmap_app. apply NoDup_app. split_and!; [done| |apply NoDup_singleton].
      intros x Hx. apply Hk in Hx. set_solver.
    + symmetry. apply not_elem_of_list_to_map. rewrite fmap_app.
      apply not_elem_of_list_to_map in Hj. set_solver.
Qed.

Lemma lookup_dict l k v : NoDup l.*1 → dict l !! k = Some v ↔ (k, v) ∈ l.
Proof.
  intros Hl. rewrite dict_list_to_map by done.
  symmetry. by apply elem_of_list_to_map.
Qed.

Lemma keys_dict l : NoDup l.*1 → keys (dict l) ≡ₚ l.*1.
Proof.
  intros Hl. unfold keys. rewrite dict_list_to_map by done.
  by rewrite map_to_list_to_map.
Qed.

Lemma lookup_update d other k :
  update d other !! k = match other !! k with Some v => Some v | None => d !! k end.
Proof. unfold update. rewrite lookup_union. by destruct (other !! k), (d !! k). Qed.
End runtime.

(** ** Dictionaries iterated in an unspecified order *)

Section dict_order.
Context `{DictOrder} {V : Type}.
Implicit Types (inserted : list string) (d : gmap string V).

Lemma elem_of_iteritems_in inserted d k v :
  (k, v) ∈ iteritems_in inserted d ↔ k ∈ inserted ∧ d !! k = Some v.
Proof.
  unfold iteritems_in. rewrite list_elem_of_omap.
  setoid_rewrite iter_keys_Permutation. split.
  - intros (k' & Hin & Hk). destruct (d !! k') eqn:Hd; simpl in Hk; [|done].
    by injection Hk as -> ->.
  - intros [Hin Hk]. exists k. by rewrite Hk.
Qed.

Lemma iteritems_in_fmap {W} (f : V → W) inserted d :
  iteritems_in inserted (f <$> d) = prod_map id f <$> iteritems_in inserted d.
Proof.
  unfold iteritems_in. induction (iter_keys inserted) as [|k l IH]; csimpl; [done|].
  rewrite lookup_fmap, IH. by destruct (d !! k).
Qed.

Lemma iteritems_in_Permutation inserted inserted' d :
  inserted ≡ₚ inserted' → iteritems_in inserted d ≡ₚ iteritems_in inserted' d.
Proof.
  intros Hperm. unfold iteritems_in.
  by rewrite !iter_keys_Permutation, Hperm.
Qed.

Lemma NoDup_fst_iteritems_in inserted d :
  NoDup inserted → NoDup (iteritems_in inserted d).*1.
Proof.
  intros Hnd.
  assert (NoDup (iter_keys inserted)) as Hnd'
    by (by rewrite iter_keys_Permutation).
  unfold iteritems_in.
  induction Hnd' as [|k l Hk _ IH]; csimpl; [constructor|].
  destruct (d !! k); csimpl; [|done]. constructor; [|done].
  intros ([k' v'] & -> & (k'' & Hin & Hlook)%list_elem_of_omap)%list_elem_of_fmap.
  destruct (d !! k''); simpl in *; [|done]. by injection Hlook as -> ->.
Qed.
End dict_order.

Lemma NoDup_fst_zip {A B} (l : list A) (k : list B) : NoDup l → NoDup (zip l k).*1.
Proof.
  intros Hl. revert k. induction Hl as [|x l Hx Hl IH]; intros [|y k]; simpl;
    try apply NoDup_nil_2.
  apply NoDup_cons. split; [|apply IH].
  intros ((x' & y') & -> & Hin)%list_elem_of_fmap. simpl in Hx.
  by apply elem_of_zip_l in Hin.
Qed.

Lemma forallb_false {A} (f : A → bool) (l : list A) :
  forallb f l = false → ∃ x, x ∈ l ∧ f x = false.
Proof.
  induction l as [|x l IH]; simpl; [done|].
  destruct (f x) eqn:Hx; simpl.
  - intros (y & ? & ?)%IH. exists y. split; [by right|done].
  - intros _. exists x. split; [by left|done].
Qed.

Lemma elem_of_concat {A} (x : A) (ls : list (list A)) :
  x ∈ concat ls ↔ ∃ l, x ∈ l ∧ l ∈ ls.
Proof.
  induction ls as [|l ls IH]; simpl.
  - split; [by intros ?%elem_of_nil|by intros (? & _ & ?%elem_of_nil)].
  - rewrite elem_of_app, IH. setoid_rewrite elem_of_cons. naive_solver.
Qed.

Lemma elem_of_range a b k : k ∈ range a b ↔ a ≤ k < b.
Proof. unfold range. rewrite elem_of_seqZ. lia. Qed.

Lemma for_each_Ok {A B} (body : A → outcome B) (l : list A) (ys : list B) :
  for_each body l = Ok ys ↔ Forall2 (λ x y, body x = Ok y) l ys.
Proof.
  revert ys. induction l as [|x l IH]; intros ys; simpl.
  - split; [intros [= <-]; constructor|by intros ->%Forall2_nil_inv_l].
  - destruct (body x) as [y|e] eqn:Hx; simpl.
    + destruct (for_each body l) as [ys'|e] eqn:Hl; simpl.
      * split; [intros [= <-]; constructor; [done|by apply IH]|].
        intros (y' & ys'' & Hy & Hys & ->)%Forall2_cons_inv_l.
        apply IH in Hys. congruence.
      * split; [done|].
        intros (y' & ys'' & Hy & Hys & ->)%Forall2_cons_inv_l.
        apply IH in Hys. congruence.
    + split; [done|].
      intros (y' & ys'' & Hy & Hys & ->)%Forall2_cons_inv_l. congruence.
Qed.

Lemma for_each_Raise {A B} (body : A → outcome B) (l : list A) e :
  for_each body l = Raise e → ∃ x, x ∈ l ∧ body x = Raise e.
Proof.
  induction l as [|x l IH]; simpl; [done|].
  destruct (body x) as [y|e'] eqn:Hx; simpl.
  - destruct (for_each body l) as [ys'|e'] eqn:Hl; simpl; [done|].
    intros [= ->]. destruct IH as (x' & ? & ?); [done|]. exists x'. set_solver.
  - intros [= ->]. exists x. set_solver.
Qed.

Lemma for_each_not_Ok {A B} (body : A → outcome B) (l : list A) x e :
  x ∈ l → body x = Raise e → ∃ e', for_each body l = Raise e'.
Proof.
  intros Hx Hb. destruct (for_each body l) as [ys|e'] eqn:Hl; [|by eexists].
  apply for_each_Ok in Hl.
  apply list_elem_of_lookup in Hx as [i Hi].
  destruct (Forall2_lookup_l _ _ _ _ _ Hl Hi) as (y & _ & Hy). congruence.
Qed.

(** ** ArticleData *)

Section article_data.
Context `{Codec char} `{DictOrder}.
Implicit Types (self : ArticleData.t char) (anno : Anno.t).

(** The map built from an annotation pairs the i-th position of the range
    with the i-th decoded character, as far as both exist. *)
Lemma lookup_anno_map anno k c :
  text_map anno !! k = Some c ↔
  ∃ i : nat, k = Anno.start_pos anno + Z.of_nat i ∧ k < Anno.end_pos anno
    ∧ decoded anno !! i = Some c.
Proof.
  unfold text_map, ArticleData.anno_map, range.
  rewrite lookup_dict by apply NoDup_fst_zip, NoDup_seqZ.
  rewrite elem_of_lookup_zip_with. split.
  - intros (i & p & c' & [= <- <-] & (-> & ?)%lookup_seqZ & ?).
    exists i. split_and!; [done|lia|done].
  - intros (i & -> & ? & ?). exists i, (Anno.start_pos anno + Z.of_nat i), c.
    split_and!; [done| |done]. apply lookup_seqZ. lia.
Qed.

Lemma overlaps_agree_true (d m : gmap Z char) :
  ArticleData.overlaps_agree d m = true ↔
  ∀ k c c', d !! k = Some c → m !! k = Some c' → c = c'.
Proof.
  unfold ArticleData.overlaps_agree. rewrite forallb_forall. split.
  - intros Hall k c c' Hd Hm.
    assert (k ∈ dom d ∩ dom m) as Hk
      by (apply elem_of_intersection; split; apply elem_of_dom; eauto).
    apply elem_of_elements, list_elem_of_In, Hall, bool_decide_eq_true in Hk.
    congruence.
  - intros Hag k Hk%list_elem_of_In%elem_of_elements.
    apply elem_of_intersection in Hk as [[c Hc]%elem_of_dom [c' Hc']%elem_of_dom].
    apply bool_decide_eq_true. rewrite Hc, Hc'. f_equal. eauto.
Qed.

Lemma overlaps_agree_char_clash self anno :
  ArticleData.overlaps_agree (ArticleData.char_dict self)
    (text_map anno) = false ↔ char_clash self anno.
Proof.
  rewrite <-not_true_iff_false, overlaps_agree_true. split.
  - intros Hno.
    destruct (decide (ArticleData.overlaps_agree (ArticleData.char_dict self)
                        (text_map anno) = true)) as [Hag|Hag].
    { destruct Hno. by apply overlaps_agree_true. }
    apply not_true_iff_false in Hag. unfold ArticleData.overlaps_agree in Hag.
    apply forallb_false in Hag as (k & Hk%elem_of_elements & Hne).
    apply elem_of_intersection in Hk as [[c Hc]%elem_of_dom [c' Hc']%elem_of_dom].
    apply bool_decide_eq_false in Hne.
    apply lookup_anno_map in Hc' as Hi. destruct Hi as (i & -> & ? & ?).
    exists i, c, c'. split_and!; [lia|done..|congruence].
  - intros (i & known & new & ? & Hnew & Hknown & Hne) Hag.
    apply Hne, (Hag _ _ _ Hknown). apply lookup_anno_map. eauto.
Qed.

Lemma identity_clash_dec self anno : Decision (identity_clash self anno).
Proof.
  unfold identity_clash. destruct (ArticleData.article_sha256 self) as [sha|].
  - destruct (decide (sha ≠ Anno.article_sha256 anno
                      ∨ ArticleData.article_filename self
                        ≠ Some (Anno.article_filename anno))) as [?|Hn].
    + left. eauto.
    + right. intros (? & [= <-] & ?). done.
  - right. by intros (? & ? & ?).
Qed.

(** A text that cannot be decoded stops [consider] before anything else. *)
Lemma consider_undecodable self anno :
  ¬ decodes anno →
  ArticleData.consider self anno = (self, Raise UnicodeDecodeError).
Proof.
  unfold decodes, ArticleData.consider.
  destruct (unicode_escape_decode _); [|done]. intros []. by eexists.
Qed.

(** Once the text is decoded, [consider] works on [text_map]. *)
Lemma consider_decoded self anno :
  decodes anno →
  ArticleData.consider self anno
  = if ArticleData.overlaps_agree (ArticleData.char_dict self) (text_map anno)
    then
      match ArticleData.article_sha256 self with
      | None =>
          (ArticleData.mk (Some (Anno.article_sha256 anno))
             (Some (Anno.article_filename anno))
             (update (ArticleData.char_dict self) (text_map anno)), Ok ())
      | Some sha =>
          (ArticleData.mk (ArticleData.article_sha256 self)
             (ArticleData.article_filename self)
             (update (ArticleData.char_dict self) (text_map anno)),
           obind (py_assert (bool_decide (sha = Anno.article_sha256 anno)))
             (λ _, py_assert (bool_decide
                (ArticleData.article_filename self
                 = Some (Anno.article_filename anno)))))
      end
    else (self, Raise AssertionError).
Proof.
  intros [target_text Htext]. unfold ArticleData.consider, text_map, decoded.
  by rewrite Htext.
Qed.

Lemma char_clash_decodes self anno : char_clash self anno → decodes anno.
Proof.
  intros (i & known & new & _ & Hnew & _). unfold decoded, decodes in *.
  destruct (unicode_escape_decode _); [by eexists|]. simpl in Hnew.
  by rewrite lookup_nil in Hnew.
Qed.

Lemma decodes_dec anno : Decision (decodes anno).
Proof. unfold decodes. apply _. Qed.

(** What [consider] does in each of its ways out on a decoded text. *)
Lemma consider_char_clash self anno :
  char_clash self anno →
  ArticleData.consider self anno = (self, Raise AssertionError).
Proof.
  intros Hc. rewrite consider_decoded by by eapply char_clash_decodes.
  apply overlaps_agree_char_clash in Hc. by rewrite Hc.
Qed.

Lemma consider_identity_clash self anno :
  decodes anno →
  ¬ char_clash self anno → identity_clash self anno →
  ArticleData.consider self anno =
    (ArticleData.mk (ArticleData.article_sha256 self)
       (ArticleData.article_filename self)
       (update (ArticleData.char_dict self) (text_map anno)),
     Raise AssertionError).
Proof.
  intros Hdec Hc (sha & Hsha & Hne). rewrite consider_decoded by done.
  rewrite <-overlaps_agree_char_clash, not_false_iff_true in Hc.
  rewrite Hc, Hsha. f_equal. simpl. unfold py_assert.
  case_bool_decide; simpl; [|done]. case_bool_decide; [|done]. naive_solver.
Qed.

Lemma consider_consistent self anno :
  decodes anno →
  ¬ char_clash self anno → ¬ identity_clash self anno →
  ArticleData.consider self anno =
    (ArticleData.mk (Some (Anno.article_sha256 anno))
       (Some (Anno.article_filename anno))
       (update (ArticleData.char_dict self) (text_map anno)),
     Ok ()).
Proof.
  intros Hdec Hc Hi. rewrite consider_decoded by done.
  rewrite <-overlaps_agree_char_clash, not_false_iff_true in Hc. rewrite Hc.
  destruct (ArticleData.article_sha256 self) as [sha|] eqn:Hsha; [|done].
  simpl. unfold py_assert.
  destruct (decide (sha = Anno.article_sha256 anno)) as [->|Hne];
    [|destruct Hi; exists sha; eauto].
  destruct (decide (ArticleData.article_filename self
                    = Some (Anno.article_filename anno))) as [Hfn|Hne];
    [|destruct Hi; eexists; eauto].
  rewrite !bool_decide_eq_true_2 by done. simpl. by rewrite Hfn.
Qed.
Lemma not_char_clash self anno :
  ¬ char_clash self anno ↔
  ∀ k c c', ArticleData.char_dict self !! k = Some c →
            text_map anno !! k = Some c' → c = c'.
Proof.
  by rewrite <-overlaps_agree_char_clash, not_false_iff_true, overlaps_agree_true.
Qed.

Lemma article_consider_Ok self anno self' :
  ArticleData.consider self anno = (self', Ok ()) ↔
  decodes anno ∧ ¬ char_clash self anno ∧ ¬ identity_clash self anno
  ∧ self' = ArticleData.mk (Some (Anno.article_sha256 anno))
                 (Some (Anno.article_filename anno))
                 (update (ArticleData.char_dict self) (text_map anno)).
Proof.
  split.
  - intros Hok.
    destruct (decodes_dec anno) as [Hdec|Hdec];
      [|by rewrite consider_undecodable in Hok].
    destruct (ArticleData.overlaps_agree (ArticleData.char_dict self)
                (text_map anno)) eqn:Hag.
    + assert (¬ char_clash self anno) as Hc
        by (rewrite <-overlaps_agree_char_clash; congruence).
      destruct (identity_clash_dec self anno) as [Hi|Hi].
      * by rewrite consider_identity_clash in Hok.
      * rewrite consider_consistent in Hok by done. by injection Hok as <-.
    + apply overlaps_agree_char_clash in Hag.
      by rewrite consider_char_clash in Hok.
  - intros (Hdec & Hc & Hi & ->). by apply consider_consistent.
Qed.

(** The ways out of [consider], in the order the code reaches them. *)
Lemma article_consider_outcome self anno :
  (¬ decodes anno
   ∧ ArticleData.consider self anno = (self, Raise UnicodeDecodeError))
  ∨ (decodes anno ∧ char_clash self anno
     ∧ ArticleData.consider self anno = (self, Raise AssertionError))
  ∨ (decodes anno ∧ ¬ char_clash self anno ∧ identity_clash self anno
     ∧ ArticleData.consider self anno
       = (ArticleData.mk (ArticleData.article_sha256 self)
            (ArticleData.article_filename self)
            (update (ArticleData.char_dict self) (text_map anno)),
          Raise AssertionError))
  ∨ (decodes anno ∧ ¬ char_clash self anno ∧ ¬ identity_clash self anno
     ∧ ArticleData.consider self anno
       = (ArticleData.mk (Some (Anno.article_sha256 anno))
            (Some (Anno.article_filename anno))
            (update (ArticleData.char_dict self) (text_map anno)),
          Ok ())).
Proof.
  destruct (decodes_dec anno) as [Hdec|Hdec];
    [|left; split; [done|by apply consider_undecodable]].
  right.
  destruct (ArticleData.overlaps_agree (ArticleData.char_dict self)
              (text_map anno)) eqn:Hag.
  - assert (¬ char_clash self anno) as Hc
      by (rewrite <-overlaps_agree_char_clash; congruence).
    right. destruct (identity_clash_dec self anno) as [Hi|Hi].
    + left. split_and!; [done..|]. by apply consider_identity_clash.
    + right. split_and!; [done..|]. by apply consider_consistent.
  - apply overlaps_agree_char_clash in Hag.
    left. split_and!; [done..|]. by apply consider_char_clash.
Qed.

(** C8: [ArticleData.consider] on a text the codec can decode raises the
    integrity error (a failed [assert]) exactly when the decoded text puts
    another character at a position that is already known, or when an
    article identity is already recorded and the annotation's sha256 or
    filename differs from it; on a consistent annotation it returns
    normally, every character of the annotation is merged into [char_dict],
    and what was known stays.  On a text the codec cannot decode it raises
    [UnicodeDecodeError] before anything is compared or recorded, also when
    the identity differs.  It raises nothing else. *)
Theorem article_consider_raises_exactly self anno :
  ((ArticleData.consider self anno).2 = Raise UnicodeDecodeError
     ↔ ¬ decodes anno)
  ∧ (¬ decodes anno → (ArticleData.consider self anno).1 = self)
  ∧ ((ArticleData.consider self anno).2 = Raise AssertionError
     ↔ decodes anno ∧ (char_clash self anno ∨ identity_clash self anno))
  ∧ ((ArticleData.consider self anno).2 = Ok ()
     ↔ decodes anno ∧ ¬ (char_clash self anno ∨ identity_clash self anno))
  ∧ (ArticleData.consider self anno).2 ≠ Raise KeyError
  ∧ ((ArticleData.consider self anno).2 = Ok () →
     ArticleData.char_dict (ArticleData.consider self anno).1
       = text_map anno ∪ ArticleData.char_dict self
     ∧ ArticleData.char_dict self
         ⊆ ArticleData.char_dict (ArticleData.consider self anno).1
     ∧ (∀ (i : nat) c,
          Anno.start_pos anno + Z.of_nat i < Anno.end_pos anno →
          decoded anno !! i = Some c →
          ArticleData.char_dict (ArticleData.consider self anno).1
            !! (Anno.start_pos anno + Z.of_nat i) = Some c)
     ∧ ArticleData.article_sha256 (ArticleData.consider self anno).1
         = Some (Anno.article_sha256 anno)
     ∧ ArticleData.article_filename (ArticleData.consider self anno).1
         = Some (Anno.article_filename anno)).
Proof.
  destruct (article_consider_outcome self anno)
    as [[Hdec ->]|[(Hdec & Hc & ->)|[(Hdec & Hc & Hi & ->)|(Hdec & Hc & Hi & ->)]]];
    simpl; split_and!; try done; try naive_solver.
  intros _. split_and!; [done| |  |done|done].
  - apply map_subseteq_spec. intros k c Hk. rewrite lookup_update.
    destruct (text_map anno !! k) as [c'|] eqn:Hk'; [|done].
    f_equal. symmetry. revert Hk Hk'. by apply not_char_clash.
  - intros i c Hi' Hc'. rewrite lookup_update.
    erewrite (proj2 (lookup_anno_map anno _ c)); [done|].
    exists i. split_and!; [done|lia|done].
Qed.

(** C9: [ArticleData.consider] is not atomic.  When the characters of the
    annotation agree with the known ones but the sha256 or filename differs
    from the recorded identity, the call raises, and [char_dict] has
    already taken every character of the offending annotation; the recorded
    identity itself is unchanged.  The exception is the failed [assert] of
    the identity, unless the text cannot be decoded: then it is the
    decoding error and there is no character to take. *)
Theorem article_consider_identity_failure_mutates self anno :
  ¬ char_clash self anno →
  identity_clash self anno →
  (decodes anno → (ArticleData.consider self anno).2 = Raise AssertionError)
  ∧ (¬ decodes anno →
     (ArticleData.consider self anno).2 = Raise UnicodeDecodeError)
  ∧ ArticleData.char_dict (ArticleData.consider self anno).1
      = update (ArticleData.char_dict self) (text_map anno)
  ∧ (∀ (i : nat) c,
       Anno.start_pos anno + Z.of_nat i < Anno.end_pos anno →
       decoded anno !! i = Some c →
       ArticleData.char_dict (ArticleData.consider self anno).1
         !! (Anno.start_pos anno + Z.of_nat i) = Some c)
  ∧ ArticleData.article_sha256 (ArticleData.consider self anno).1
      = ArticleData.article_sha256 self
  ∧ ArticleData.article_filename (ArticleData.consider self anno).1
      = ArticleData.article_filename self.
Proof.
  intros Hc Hi. destruct (decodes_dec anno) as [Hdec|Hdec].
  - rewrite consider_identity_clash by done. simpl.
    split_and!; [done..| |done|done].
    intros i c Hi' Hc'. rewrite lookup_update.
    erewrite (proj2 (lookup_anno_map anno _ c)); [done|].
    exists i. split_and!; [done|lia|done].
  - rewrite consider_undecodable by done. simpl.
    assert (decoded anno = []) as Hnil.
    { unfold decoded, decodes in *.
      destruct (unicode_escape_decode _); [by destruct Hdec|done]. }
    split_and!; [done|done| |by rewrite Hnil|done|done].
    unfold update, text_map, ArticleData.anno_map. rewrite Hnil.
    rewrite zip_with_nil_r. unfold dict. simpl. by rewrite (left_id_L ∅ (∪)).
Qed.
End article_data.

(** ** TopicData.convert_to_ranges *)

Section convert_to_ranges.
Implicit Types (l indices positions : list Z) (rows : list Row.t) (r : Row.t).

Lemma ranges_loop indices pre prev rest offsets start :
  indices = pre ++ prev :: rest →
  let '(offsets', start', end') :=
    foldl (TopicData.ranges_step indices) (offsets, start, prev + 1)
          (imap (λ j pos, (length pre + 1 + j, pos)%nat) rest) in
  offsets' ++ [Row.offset start' end'] = offsets ++ runs_from start prev rest.
Proof.
  revert pre prev offsets start.
  induction rest as [|pos rest IH]; intros pre prev offsets start ->; [done|].
  rewrite imap_cons. simpl.
  assert ((pre ++ prev :: pos :: rest) !!! (length pre + 1 + 0 - 1)%nat = prev)
    as ->.
  { replace (length pre + 1 + 0 - 1)%nat with (length pre + 0)%nat by lia.
    by rewrite lookup_total_app_r, Nat.add_comm, Nat.add_sub by lia. }
  rewrite bool_decide_eq_true_2 by lia. simpl.
  specialize (IH (pre ++ [prev]) pos).
  rewrite (imap_ext _ (λ j pos, (length (pre ++ [prev]) + 1 + j, pos)%nat))
    by (intros; simpl; rewrite length_app; simpl; f_equal; lia).
  case_bool_decide as Hpos; simpl; case_decide; try done.
  - by apply IH; rewrite <-app_assoc.
  - specialize (IH (offsets ++ [Row.offset start (prev + 1)]) pos
                  ltac:(by rewrite <-app_assoc)).
    destruct (foldl _ _ _) as [[offsets' start'] end'].
    by rewrite IH, <-app_assoc.
Qed.

(** The loop computes the runs of the sorted positions. *)
Lemma convert_to_ranges_runs positions :
  TopicData.convert_to_ranges positions = runs (merge_sort Z.le positions).
Proof.
  unfold TopicData.convert_to_ranges.
  pose proof (merge_sort_Permutation Z.le positions) as Hperm.
  case_bool_decide as Hlen.
  - destruct (merge_sort Z.le positions) as [|pos indices] eqn:Hsort.
    { apply Permutation_length in Hperm. simpl in Hperm. lia. }
    unfold enumerate. rewrite imap_cons. simpl.
    pose proof (ranges_loop (pos :: indices) [] pos indices [] pos eq_refl) as Hloop.
    simpl in Hloop.
    rewrite (imap_ext _ (λ j pos, (S j, pos))) by done.
    by destruct (foldl _ _ _) as [[offsets start] _end].
  - destruct positions; [|simpl in Hlen; lia].
    by apply Permutation_nil_r in Hperm as ->.
Qed.

Lemma runs_from_offsets start prev l :
  Forall (λ r, r = Row.offset (Row.start_pos r) (Row.end_pos r))
         (runs_from start prev l).
Proof.
  revert start prev. induction l as [|pos l IH]; intros start prev; simpl.
  - by repeat constructor.
  - case_decide; [apply IH|]. constructor; [done|apply IH].
Qed.

Lemma runs_from_covered start prev l p :
  StronglySorted Z.lt (prev :: l) → start ≤ prev →
  covered (runs_from start prev l) p ↔ start ≤ p ≤ prev ∨ p ∈ l.
Proof.
  unfold covered, Row.covers. revert start prev.
  induction l as [|pos l IH]; intros start prev Hsort Hle; simpl.
  - setoid_rewrite list_elem_of_singleton. split.
    + intros (r & -> & ?). simpl in *. left. lia.
    + intros [?|?%elem_of_nil]; [|done]. eexists. split; [done|]. simpl. lia.
  - apply StronglySorted_inv in Hsort as [Hsort Hall].
    apply Forall_cons in Hall as [Hlt _].
    case_decide as Hpos.
    + rewrite IH by (done || lia). rewrite elem_of_cons.
      destruct (decide (p = pos)); intuition lia.
    + setoid_rewrite elem_of_cons. split.
      * intros (r & [->|Hr] & Hp); simpl in *; [left; lia|].
        assert (pos ≤ p ≤ pos ∨ p ∈ l) as [?|?]; [|right; left; lia|auto].
        apply IH; [done|lia|eauto].
      * intros [?|[->|Hin]].
        -- eexists. split; [by left|]. simpl. lia.
        -- destruct (proj2 (IH pos pos Hsort ltac:(lia))) as (r & ? & ?); [lia|].
           eauto.
        -- destruct (proj2 (IH pos pos Hsort ltac:(lia))) as (r & ? & ?); [auto|].
           eauto.
Qed.

Lemma runs_from_separated lo start prev l :
  StronglySorted Z.lt (prev :: l) → lo < start → start ≤ prev →
  separated lo (runs_from start prev l).
Proof.
  revert lo start prev.
  induction l as [|pos l IH]; intros lo start prev Hsort Hlo Hle; simpl.
  - split_and!; [done|lia|done].
  - apply StronglySorted_inv in Hsort as [Hsort Hall].
    apply Forall_cons in Hall as [Hlt _].
    case_decide as Hpos; [apply IH; (done || lia)|]. simpl.
    split_and!; [done|lia|]. apply IH; (done || lia).
Qed.
Lemma StronglySorted_le_lt l :
  StronglySorted Z.le l → NoDup l → StronglySorted Z.lt l.
Proof.
  induction 1 as [|x l Hl IH Hall]; [constructor|].
  intros [Hx Hnd]%NoDup_cons; constructor.
  - by apply IH.
  - rewrite Forall_forall in *. intros y Hy.
    specialize (Hall y Hy). assert (x ≠ y) by (by intros ->). lia.
Qed.

Lemma StronglySorted_lt_le l : StronglySorted Z.lt l → Sorted Z.le l.
Proof.
  intros Hl. apply StronglySorted_Sorted.
  induction Hl as [|x l Hl IH Hall]; constructor; [done|].
  eapply Forall_impl; [done|]. simpl. lia.
Qed.

Lemma merge_sort_sorted_lt positions :
  NoDup positions → StronglySorted Z.lt (merge_sort Z.le positions).
Proof.
  intros Hnd. apply StronglySorted_le_lt.
  - apply (StronglySorted_merge_sort _).
  - by rewrite merge_sort_Permutation.
Qed.

Lemma StronglySorted_lt_lookup l i j x y :
  StronglySorted Z.lt l → (i < j)%nat → l !! i = Some x → l !! j = Some y → x < y.
Proof.
  intros Hl. revert i j. induction Hl as [|z l Hl IH Hall]; intros i j Hij Hi Hj.
  - by rewrite lookup_nil in Hi.
  - destruct j as [|j]; [lia|]. destruct i as [|i]; simpl in *.
    + injection Hi as ->. rewrite Forall_forall in Hall.
      by eapply Hall, list_elem_of_lookup_2.
    + eapply (IH i j); [lia|done..].
Qed.

Lemma runs_covered l p : StronglySorted Z.lt l → covered (runs l) p ↔ p ∈ l.
Proof.
  destruct l as [|pos l]; simpl; intros Hl.
  - split; [by intros (? & ?%elem_of_nil & _)|by intros ?%elem_of_nil].
  - rewrite runs_from_covered, elem_of_cons by done. intuition lia.
Qed.

Lemma runs_separated l lo :
  StronglySorted Z.lt l → Forall (λ pos, lo < pos) l → separated lo (runs l).
Proof.
  destruct l as [|pos l]; simpl; intros Hl Hlo; [done|].
  apply Forall_cons in Hlo as [? _]. by apply runs_from_separated.
Qed.

Lemma separated_bounds lo rows r :
  separated lo rows → r ∈ rows → lo < Row.start_pos r < Row.end_pos r.
Proof.
  revert lo. induction rows as [|r' rows IH]; intros lo; simpl; [by intros _ ?%elem_of_nil|].
  intros (? & ? & Hsep) [->|Hin]%elem_of_cons; [lia|].
  specialize (IH _ Hsep Hin). lia.
Qed.

(** In a separated list a later range starts strictly after the end of an
    earlier one. *)
Lemma separated_lookup_lt lo rows i j r r' :
  separated lo rows → (i < j)%nat → rows !! i = Some r → rows !! j = Some r' →
  Row.end_pos r < Row.start_pos r'.
Proof.
  revert lo i j. induction rows as [|r0 rows IH]; intros lo i j; simpl.
  - intros _ _ Hi. by rewrite lookup_nil in Hi.
  - intros (? & ? & Hsep) Hij Hi Hj. destruct j as [|j]; [lia|].
    destruct i as [|i]; simpl in *.
    + injection Hi as ->. apply list_elem_of_lookup_2 in Hj.
      pose proof (separated_bounds _ _ _ Hsep Hj). lia.
    + eapply (IH _ i j); [done|lia|done..].
Qed.

Lemma separated_covers_unique lo rows i j r r' p :
  separated lo rows → rows !! i = Some r → rows !! j = Some r' →
  Row.covers r p → Row.covers r' p → i = j.
Proof.
  intros Hsep Hi Hj Hp Hp'. unfold Row.covers in *.
  pose proof (separated_bounds _ _ _ Hsep (list_elem_of_lookup_2 _ _ _ Hi)).
  pose proof (separated_bounds _ _ _ Hsep (list_elem_of_lookup_2 _ _ _ Hj)).
  destruct (Nat.lt_trichotomy i j) as [Hlt|[?|Hlt]]; [|done|].
  - pose proof (separated_lookup_lt _ _ _ _ _ _ Hsep Hlt Hi Hj). lia.
  - pose proof (separated_lookup_lt _ _ _ _ _ _ Hsep Hlt Hj Hi). lia.
Qed.

(** The ends of a separated range are not covered: it is maximal. *)
Lemma separated_maximal lo rows r :
  separated lo rows → r ∈ rows →
  ¬ covered rows (Row.start_pos r - 1) ∧ ¬ covered rows (Row.end_pos r).
Proof.
  intros Hsep [i Hi]%list_elem_of_lookup.
  pose proof (separated_bounds _ _ _ Hsep (list_elem_of_lookup_2 _ _ _ Hi)).
  split; intros (r' & [j Hj]%list_elem_of_lookup & Hp); unfold Row.covers in Hp;
    pose proof (separated_bounds _ _ _ Hsep (list_elem_of_lookup_2 _ _ _ Hj));
    (destruct (Nat.lt_trichotomy i j) as [Hlt|[->|Hlt]];
     [pose proof (separated_lookup_lt _ _ _ _ _ _ Hsep Hlt Hi Hj); lia
     |rewrite Hi in Hj; injection Hj as <-; lia
     |pose proof (separated_lookup_lt _ _ _ _ _ _ Hsep Hlt Hj Hi); lia]).
Qed.

Lemma convert_to_ranges_covered positions p :
  NoDup positions → covered (TopicData.convert_to_ranges positions) p ↔ p ∈ positions.
Proof.
  intros Hnd. rewrite convert_to_ranges_runs, runs_covered
    by by apply merge_sort_sorted_lt.
  by rewrite merge_sort_Permutation.
Qed.

Lemma convert_to_ranges_separated positions :
  NoDup positions → ∃ lo, separated lo (TopicData.convert_to_ranges positions).
Proof.
  intros Hnd. rewrite convert_to_ranges_runs.
  pose proof (merge_sort_sorted_lt _ Hnd) as Hsort.
  destruct (merge_sort Z.le positions) as [|pos l] eqn:Hl; [by exists 0|].
  exists (pos - 1). apply runs_separated; [done|].
  apply StronglySorted_inv in Hsort as [_ Hall].
  constructor; [lia|]. eapply Forall_impl; [done|]. simpl. lia.
Qed.

Lemma convert_to_ranges_offsets positions :
  Forall (λ r, r = Row.offset (Row.start_pos r) (Row.end_pos r))
         (TopicData.convert_to_ranges positions).
Proof.
  rewrite convert_to_ranges_runs.
  destruct (merge_sort Z.le positions); simpl; [done|apply runs_from_offsets].
Qed.

Lemma convert_to_ranges_Permutation positions positions' :
  positions ≡ₚ positions' →
  TopicData.convert_to_ranges positions = TopicData.convert_to_ranges positions'.
Proof.
  intros Hperm. rewrite !convert_to_ranges_runs. f_equal.
  apply (Sorted_unique Z.le); [apply (Sorted_merge_sort _)..|].
  by rewrite !merge_sort_Permutation.
Qed.
Lemma elem_of_positions_of rows p : p ∈ positions_of rows ↔ covered rows p.
Proof.
  unfold positions_of, covered, Row.covers. rewrite list_elem_of_bind.
  setoid_rewrite elem_of_range. naive_solver.
Qed.

Lemma positions_of_cons r rows :
  positions_of (r :: rows)
  = range (Row.start_pos r) (Row.end_pos r) ++ positions_of rows.
Proof. unfold positions_of. by rewrite bind_cons. Qed.

Lemma StronglySorted_seqZ m n : StronglySorted Z.lt (seqZ m n).
Proof.
  destruct (decide (n ≤ 0)) as [?|Hn]; [rewrite seqZ_nil by done; constructor|].
  rewrite <-(Z2Nat.id n) by lia. generalize (Z.to_nat n) as k. clear n Hn.
  intros k. revert m. induction k as [|k IH]; intros m.
  - rewrite seqZ_nil by done. constructor.
  - rewrite seqZ_cons by lia. constructor.
    + replace (Z.pred (Z.of_nat (S k))) with (Z.of_nat k) by lia. apply IH.
    + apply Forall_seqZ. lia.
Qed.

Lemma positions_of_sorted lo rows :
  separated lo rows → StronglySorted Z.lt (positions_of rows).
Proof.
  revert lo. induction rows as [|r rows IH]; intros lo; [constructor|].
  intros (? & ? & Hsep). rewrite positions_of_cons.
  apply StronglySorted_app_2; [|apply StronglySorted_seqZ|by eapply IH].
  intros x1 x2 Hx1%elem_of_range (r' & Hr' & Hx2)%elem_of_positions_of.
  pose proof (separated_bounds _ _ _ Hsep Hr'). unfold Row.covers in Hx2. lia.
Qed.

Lemma runs_from_seqZ start prev n rest :
  0 ≤ n → runs_from start prev (seqZ (prev + 1) n ++ rest)
          = runs_from start (prev + n) rest.
Proof.
  intros Hn. rewrite <-(Z2Nat.id n) by lia. generalize (Z.to_nat n) as k.
  clear n Hn. intros k. revert prev. induction k as [|k IH]; intros prev.
  - rewrite seqZ_nil by done. simpl. by rewrite Z.add_0_r.
  - rewrite seqZ_cons by lia. simpl. rewrite decide_True by done.
    replace (Z.pred (Z.of_nat (S k))) with (Z.of_nat k) by lia.
    rewrite IH. f_equal. lia.
Qed.

Lemma runs_from_gap start prev l :
  Forall (λ pos, prev + 1 < pos) l →
  runs_from start prev l = Row.offset start (prev + 1) :: runs l.
Proof.
  destruct l as [|pos l]; simpl; [done|]. intros [? _]%Forall_cons.
  by rewrite decide_False by lia.
Qed.

(** Converting the positions of separated ranges gives the ranges back. *)
Lemma runs_positions_of lo rows :
  separated lo rows →
  Forall (λ r, r = Row.offset (Row.start_pos r) (Row.end_pos r)) rows →
  runs (positions_of rows) = rows.
Proof.
  revert lo. induction rows as [|r rows IH]; intros lo; [done|].
  intros (? & ? & Hsep) [Hr Hrows]%Forall_cons.
  rewrite positions_of_cons. unfold range. rewrite seqZ_cons by lia. simpl.
  replace (Z.succ (Row.start_pos r)) with (Row.start_pos r + 1) by lia.
  rewrite runs_from_seqZ by lia.
  rewrite runs_from_gap.
  - rewrite (IH _ Hsep Hrows). f_equal. rewrite Hr. simpl. f_equal. lia.
  - apply Forall_forall. intros p (r' & Hr' & Hp)%elem_of_positions_of.
    pose proof (separated_bounds _ _ _ Hsep Hr'). unfold Row.covers in Hp. lia.
Qed.

Lemma convert_to_ranges_positions_of lo rows :
  separated lo rows →
  Forall (λ r, r = Row.offset (Row.start_pos r) (Row.end_pos r)) rows →
  TopicData.convert_to_ranges (positions_of rows) = rows.
Proof.
  intros Hsep Hrows. rewrite convert_to_ranges_runs.
  rewrite <-(runs_positions_of lo rows) at 2 by done. f_equal.
  apply (Sorted_unique Z.le); [apply (Sorted_merge_sort _)| |].
  - by eapply StronglySorted_lt_le, positions_of_sorted.
  - apply merge_sort_Permutation.
Qed.

(** A position opens a range exactly when it is a member whose predecessor
    is not. *)
Lemma convert_to_ranges_starts positions pos :
  NoDup positions →
  (∃ r, r ∈ TopicData.convert_to_ranges positions ∧ Row.start_pos r = pos)
  ↔ pos ∈ positions ∧ pos - 1 ∉ positions.
Proof.
  intros Hnd. destruct (convert_to_ranges_separated _ Hnd) as [lo Hsep]. split.
  - intros (r & Hr & <-).
    pose proof (separated_bounds _ _ _ Hsep Hr).
    destruct (separated_maximal _ _ _ Hsep Hr) as [Hpred _]. split.
    + apply (convert_to_ranges_covered _ _ Hnd). exists r.
      split; [done|]. unfold Row.covers. lia.
    + by rewrite <-(convert_to_ranges_covered _ _ Hnd).
  - intros [(r & Hr & Hp)%(convert_to_ranges_covered _ _ Hnd) Hpred].
    exists r. split; [done|]. unfold Row.covers in Hp.
    destruct (decide (Row.start_pos r = pos)) as [|Hne]; [done|].
    destruct Hpred. apply (convert_to_ranges_covered _ _ Hnd).
    exists r. split; [done|]. unfold Row.covers. lia.
Qed.

(** In the sorted positions, the predecessor is missing exactly at index 0
    and where the previous position is not one less. *)
Lemma sorted_pred_missing l i pos :
  StronglySorted Z.lt l → l !! i = Some pos →
  pos - 1 ∉ l ↔ i = 0%nat ∨ ∃ prev, l !! (i - 1)%nat = Some prev ∧ prev + 1 ≠ pos.
Proof.
  intros Hl Hi. split.
  - intros Hpred. destruct i as [|i]; [by left|right]. simpl.
    rewrite Nat.sub_0_r.
    destruct (lookup_lt_is_Some_2 l i) as [prev Hprev];
      [apply lookup_lt_Some in Hi; lia|].
    exists prev. split; [done|]. intros <-. apply Hpred.
    replace (prev + 1 - 1) with prev by lia. by eapply list_elem_of_lookup_2.
  - intros Hcase [j Hj]%list_elem_of_lookup.
    assert (j < i)%nat as Hji.
    { destruct (Nat.lt_trichotomy i j) as [Hlt|[->|Hlt]]; [| |done].
      - pose proof (StronglySorted_lt_lookup _ _ _ _ _ Hl Hlt Hi Hj). lia.
      - rewrite Hi in Hj. injection Hj. lia. }
    destruct Hcase as [->|(prev & Hprev & Hne)]; [lia|].
    destruct (decide (j = i - 1)%nat) as [->|Hne'].
    + rewrite Hprev in Hj. injection Hj. lia.
    + assert (j < i - 1)%nat as Hlt by lia.
      pose proof (StronglySorted_lt_lookup _ _ _ _ _ Hl Hlt Hj Hprev).
      assert (i - 1 < i)%nat as Hlt' by lia.
      pose proof (StronglySorted_lt_lookup _ _ _ _ _ Hl Hlt' Hprev Hi). lia.
Qed.

(** C2: on a set of positions (a list without repeats, in any order)
    [convert_to_ranges] returns its maximal contiguous runs as half-open
    [{start_pos, end_pos}] ranges: the positions of a returned range are
    members of the input; every input position lies in exactly one returned
    range; a range cannot be extended at either end; a range opens exactly
    at index 0 of the sorted positions and wherever the sorted position is
    not the previous one plus one; the result does not depend on the order
    of the input; and the empty input gives the empty list. *)
Theorem convert_to_ranges_maximal_runs positions :
  NoDup positions →
  let rows := TopicData.convert_to_ranges positions in
  let indices := merge_sort Z.le positions in
  Forall (λ r, r = Row.offset (Row.start_pos r) (Row.end_pos r)
               ∧ Row.start_pos r < Row.end_pos r) rows
  ∧ (∀ r p, r ∈ rows → Row.covers r p → p ∈ positions)
  ∧ (∀ p, p ∈ positions →
       ∃ i r, rows !! i = Some r ∧ Row.covers r p
         ∧ ∀ j r', rows !! j = Some r' → Row.covers r' p → j = i)
  ∧ (∀ r, r ∈ rows →
       (Row.start_pos r - 1 ∉ positions) ∧ (Row.end_pos r ∉ positions))
  ∧ (∀ (i : nat) pos, indices !! i = Some pos →
       ((∃ r, r ∈ rows ∧ Row.start_pos r = pos)
        ↔ (i = 0%nat
           ∨ ∃ prev, indices !! (i - 1)%nat = Some prev ∧ prev + 1 ≠ pos)))
  ∧ (∀ positions', positions' ≡ₚ positions →
       TopicData.convert_to_ranges positions' = rows)
  ∧ TopicData.convert_to_ranges [] = [].
Proof.
  intros Hnd rows indices. subst rows indices.
  destruct (convert_to_ranges_separated _ Hnd) as [lo Hsep].
  split_and!.
  - pose proof (convert_to_ranges_offsets positions) as Hoff.
    rewrite Forall_forall in *. intros r Hr. split; [by apply Hoff|].
    pose proof (separated_bounds _ _ _ Hsep Hr). lia.
  - intros r p Hr Hp. apply (convert_to_ranges_covered _ _ Hnd). by exists r.
  - intros p (r & [i Hi]%list_elem_of_lookup & Hp)%(convert_to_ranges_covered _ _ Hnd).
    exists i, r. split_and!; [done..|]. intros j r' Hj Hp'.
    by eapply separated_covers_unique.
  - intros r Hr. rewrite <-!(convert_to_ranges_covered _ _ Hnd).
    by eapply separated_maximal.
  - intros i pos Hi. rewrite (convert_to_ranges_starts _ _ Hnd).
    rewrite <-(sorted_pred_missing (merge_sort Z.le positions) i pos)
      by (done || by apply merge_sort_sorted_lt).
    assert (pos ∈ positions) as Hpos.
    { rewrite <-(merge_sort_Permutation Z.le). by eapply list_elem_of_lookup_2. }
    rewrite merge_sort_Permutation. naive_solver.
  - intros positions' Hperm. by apply convert_to_ranges_Permutation.
  - done.
Qed.
End convert_to_ranges.

(** ** Counter and TopicData.sum_contribs *)

Section sum_contribs.
Implicit Types (c : gmap Z Z) (topic_data : TopicData.t) (p : Z).

Lemma lookup_counter_add c1 c2 k :
  positive c1 → positive c2 →
  Counter.add c1 c2 !! k = union_with (λ a b, Some (a + b)) (c1 !! k) (c2 !! k).
Proof.
  intros H1 H2. unfold Counter.add.
  rewrite map_lookup_filter, lookup_union_with.
  destruct (c1 !! k) as [a|] eqn:Ha, (c2 !! k) as [b|] eqn:Hb; simpl; [| | |done].
  - apply H1 in Ha. apply H2 in Hb. rewrite option_guard_True; [done|simpl; lia].
  - apply H1 in Ha. by rewrite option_guard_True.
  - apply H2 in Hb. by rewrite option_guard_True.
Qed.

Lemma counter_add_positive c1 c2 : positive (Counter.add c1 c2).
Proof. intros k v (_ & ?)%map_lookup_filter_Some. done. Qed.

Lemma counter_get_add c1 c2 k :
  positive c1 → positive c2 →
  Counter.get (Counter.add c1 c2) k = Counter.get c1 k + Counter.get c2 k.
Proof.
  intros H1 H2. unfold Counter.get. rewrite lookup_counter_add by done.
  destruct (c1 !! k), (c2 !! k); simpl; lia.
Qed.

Lemma counter_of_set_positive (s : gset Z) : positive (Counter.of_set s).
Proof. intros k v [_ <-]%lookup_gset_to_gmap_Some. done. Qed.

Lemma counter_get_of_set (s : gset Z) k :
  Counter.get (Counter.of_set s) k = if decide (k ∈ s) then 1 else 0.
Proof.
  unfold Counter.get, Counter.of_set. rewrite lookup_gset_to_gmap.
  case_decide; [by rewrite option_guard_True|by rewrite option_guard_False].
Qed.

(** The loop of [sum_contribs] over any list of contributors. *)
Lemma sum_loop (l : list (string * ContribData.t)) acc p :
  positive acc →
  let total :=
    foldl (λ topic_counter '(contrib_uuid, contrib_data),
             Counter.add topic_counter
               (Counter.of_set (ContribData.flattened contrib_data))) acc l in
  positive total
  ∧ Counter.get total p
    = Counter.get acc p
      + Z.of_nat (length (filter (λ kv, p ∈ ContribData.flattened kv.2) l)).
Proof.
  revert acc. induction l as [|[u cd] l IH]; intros acc Hacc; simpl.
  - split; [done|lia].
  - destruct (IH (Counter.add acc (Counter.of_set (ContribData.flattened cd)))
                (counter_add_positive _ _)) as [Hpos Hget].
    split; [done|]. rewrite Hget.
    rewrite counter_get_add, counter_get_of_set
      by (done || apply counter_of_set_positive).
    rewrite filter_cons. simpl. case_decide; simpl; lia.
Qed.

Lemma sum_contribs_positive topic_data : positive (TopicData.sum_contribs topic_data).
Proof. by apply (sum_loop _ ∅ 0). Qed.

Lemma length_filter_map_to_list {A} (P : string * A → Prop)
    `{!∀ x, Decision (P x)} (m : gmap string A) :
  length (filter P (map_to_list m)) = size (filter P m).
Proof.
  induction m as [|u x m Hu IH] using map_ind.
  - by rewrite map_to_list_empty, map_filter_empty, map_size_empty.
  - rewrite map_to_list_insert by done. rewrite filter_cons.
    destruct (decide (P (u, x))).
    + rewrite map_filter_insert_True by done.
      rewrite map_size_insert_None by (by rewrite map_lookup_filter, Hu).
      simpl. by rewrite IH.
    + rewrite map_filter_insert_not' by (done || by rewrite Hu).
      by rewrite IH.
Qed.

(** The count at a position is the number of distinct contributors whose
    flattened set contains it. *)
Lemma sum_contribs_count topic_data p :
  Counter.get (TopicData.sum_contribs topic_data) p
  = Z.of_nat (size (contributors_at topic_data p)).
Proof.
  unfold contributors_at. rewrite <-length_filter_map_to_list.
  destruct (sum_loop (iteritems (TopicData.contrib_dict topic_data)) ∅ p)
    as [_ Hget]; [done|].
  unfold TopicData.sum_contribs. rewrite Hget. unfold Counter.get.
  by rewrite lookup_empty.
Qed.

Lemma sum_contribs_lookup topic_data p :
  TopicData.sum_contribs topic_data !! p
  = if decide (size (contributors_at topic_data p) = 0%nat) then None
    else Some (Z.of_nat (size (contributors_at topic_data p))).
Proof.
  pose proof (sum_contribs_count topic_data p) as Hget.
  pose proof (sum_contribs_positive topic_data) as Hpos.
  unfold Counter.get in Hget.
  destruct (TopicData.sum_contribs topic_data !! p) as [v|] eqn:Hp; simpl in *.
  - apply Hpos in Hp. rewrite decide_False by lia. by f_equal.
  - rewrite decide_True by lia. done.
Qed.
(** The loop of [sum_contribs] gives the same counter in whatever order
    the contributors are read. *)
Lemma sum_contribs_any_order topic_data (items : list (string * ContribData.t)) :
  items ≡ₚ iteritems (TopicData.contrib_dict topic_data) →
  foldl (λ topic_counter '(contrib_uuid, contrib_data),
           Counter.add topic_counter
             (Counter.of_set (ContribData.flattened contrib_data))) ∅ items
  = TopicData.sum_contribs topic_data.
Proof.
  intros Hperm. apply map_eq. intros p. unfold TopicData.sum_contribs.
  destruct (sum_loop items ∅ p) as [Hpos Hget]; [done|].
  destruct (sum_loop (iteritems (TopicData.contrib_dict topic_data)) ∅ p)
    as [Hpos' Hget']; [done|].
  cbv zeta in *.
  rewrite <-(Permutation_length (filter_Permutation _ _ _ Hperm)), <-Hget
    in Hget'.
  unfold Counter.get in Hget'.
  destruct (foldl _ ∅ items !! p) as [v|] eqn:Hv;
    destruct (foldl _ ∅ (iteritems _) !! p) as [v'|] eqn:Hv'; simpl in *.
  - by f_equal.
  - apply Hpos in Hv. lia.
  - apply Hpos' in Hv'. lia.
  - done.
Qed.

(** [sum_contribs] reads nothing but the flattened sets. *)
Lemma sum_contribs_flattened topic_data topic_data' :
  flattened_of topic_data = flattened_of topic_data' →
  TopicData.sum_contribs topic_data = TopicData.sum_contribs topic_data'.
Proof.
  assert (∀ td, TopicData.sum_contribs td
    = foldl (λ topic_counter (kv : string * gset Z),
               Counter.add topic_counter (Counter.of_set kv.2))
            ∅ (map_to_list (flattened_of td))) as Hsum.
  { intros td. unfold TopicData.sum_contribs, flattened_of, iteritems.
    rewrite map_to_list_fmap. generalize (∅ : gmap Z Z).
    induction (map_to_list (TopicData.contrib_dict td)) as [|[u cd] l IH];
      intros acc; simpl; [done|]. by rewrite IH. }
  intros Heq. by rewrite !Hsum, Heq.
Qed.

Lemma contrib_consider_flattened (contrib_data : ContribData.t) anno :
  ContribData.flattened (ContribData.consider contrib_data anno)
  = ContribData.flattened contrib_data
    ∪ list_to_set (range (Anno.start_pos anno) (Anno.end_pos anno)).
Proof. done. Qed.

Lemma flattened_of_consider topic_data anno :
  flattened_of (TopicData.consider topic_data anno).1
  = <[Anno.contributor_uuid anno :=
        default ∅ (flattened_of topic_data !! Anno.contributor_uuid anno)
        ∪ list_to_set (range (Anno.start_pos anno) (Anno.end_pos anno))]>
      (flattened_of topic_data).
Proof.
  unfold flattened_of, TopicData.consider.
  assert (∀ tn ns cd r, (TopicData.contrib_dict
            (@pair TopicData.t (outcome ()) (TopicData.mk tn ns cd) r).1) = cd)
    as Hcd by done.
  case_bool_decide; rewrite Hcd, fmap_insert, lookup_fmap;
    by destruct (TopicData.contrib_dict topic_data !! _).
Qed.

Lemma range_union (s1 e1 s2 e2 : Z) :
  Z.max s1 s2 ≤ Z.min e1 e2 →
  list_to_set (range s1 e1) ∪ list_to_set (range s2 e2)
  =@{gset Z} list_to_set (range (Z.min s1 s2) (Z.max e1 e2)).
Proof.
  intros Hov. apply set_eq. intros k.
  rewrite elem_of_union, !elem_of_list_to_set, !elem_of_range. lia.
Qed.

Lemma size_contributors_at_delete topic_data u cd p :
  TopicData.contrib_dict topic_data !! u = Some cd →
  size (contributors_at topic_data p)
  = (size (contributors_at (without_contributor u topic_data) p)
     + if decide (p ∈ ContribData.flattened cd) then 1 else 0)%nat.
Proof.
  intros Hu. unfold contributors_at, without_contributor. simpl.
  rewrite map_filter_delete. case_decide as Hp.
  - rewrite map_size_delete_Some by (rewrite map_lookup_filter, Hu; simpl;
      by rewrite option_guard_True).
    assert (size (filter (λ kv : string * ContribData.t,
                            p ∈ ContribData.flattened kv.2)
                         (TopicData.contrib_dict topic_data)) ≠ 0%nat); [|lia].
    apply map_size_non_empty_iff. intros Hempty.
    eapply (map_filter_empty_not_lookup _ _ u cd); done.
  - rewrite map_size_delete_None by (rewrite map_lookup_filter, Hu; simpl;
      by rewrite option_guard_False).
    lia.
Qed.

(** C1: the count [sum_contribs] gives a position is the number of distinct
    contributors whose flattened set contains it, and the counter stores
    exactly the positions with a count above 0.  Each contributor adds 1 to
    the positions of their flattened set and 0 elsewhere, whatever they
    submitted; and two annotations of one contributor whose ranges overlap
    (or touch) leave the same counts as one annotation over their union. *)
Theorem sum_contribs_counts_contributors topic_data anno1 anno2 merged :
  Anno.contributor_uuid anno2 = Anno.contributor_uuid anno1 →
  Anno.contributor_uuid merged = Anno.contributor_uuid anno1 →
  Z.max (Anno.start_pos anno1) (Anno.start_pos anno2)
    ≤ Z.min (Anno.end_pos anno1) (Anno.end_pos anno2) →
  Anno.start_pos merged = Z.min (Anno.start_pos anno1) (Anno.start_pos anno2) →
  Anno.end_pos merged = Z.max (Anno.end_pos anno1) (Anno.end_pos anno2) →
  (∀ p, Counter.get (TopicData.sum_contribs topic_data) p
        = Z.of_nat (size (contributors_at topic_data p)))
  ∧ (∀ p, TopicData.sum_contribs topic_data !! p
          = if decide (size (contributors_at topic_data p) = 0%nat) then None
            else Some (Z.of_nat (size (contributors_at topic_data p))))
  ∧ (∀ p contrib_uuid contrib_data,
       TopicData.contrib_dict topic_data !! contrib_uuid = Some contrib_data →
       Counter.get (TopicData.sum_contribs topic_data) p
       = Counter.get (TopicData.sum_contribs
                        (without_contributor contrib_uuid topic_data)) p
         + (if decide (p ∈ ContribData.flattened contrib_data) then 1 else 0))
  ∧ TopicData.sum_contribs
      (TopicData.consider (TopicData.consider topic_data anno1).1 anno2).1
    = TopicData.sum_contribs (TopicData.consider topic_data merged).1.
Proof.
  intros Hu2 Hu Hov Hstart Hend. split_and!.
  - apply sum_contribs_count.
  - apply sum_contribs_lookup.
  - intros p u cd Hcd. rewrite !sum_contribs_count.
    rewrite (size_contributors_at_delete _ _ _ _ Hcd). case_decide; lia.
  - apply sum_contribs_flattened. rewrite !flattened_of_consider.
    rewrite Hu2, Hu, lookup_insert_eq, insert_insert_eq. simpl.
    by rewrite Hstart, Hend, <-range_union, (assoc_L (∪)).
Qed.
End sum_contribs.

(** ** TopicData.get_consensus *)

Section topic_consensus.
Implicit Types (topic_data : TopicData.t) (rows offsets : list Row.t) (p : Z).

Lemma NoDup_fst_filter {A B} (f : A * B → bool) (l : list (A * B)) :
  NoDup l.*1 → NoDup (List.filter f l).*1.
Proof.
  induction l as [|[a b] l IH]; simpl; [done|].
  intros [Ha Hl]%NoDup_cons. destruct (f (a, b)); simpl; [|by apply IH].
  apply NoDup_cons. split; [|by apply IH].
  intros ([a' b'] & -> & [Hin _]%list_elem_of_In%filter_In)%list_elem_of_fmap.
  apply Ha, list_elem_of_fmap. exists (a', b'). by rewrite list_elem_of_In.
Qed.

(** The ranges of a topic cover exactly the positions whose entry in the
    counter passes the predicate. *)
Lemma get_consensus_covered topic_data (determine_passing : Z * Z → bool) p :
  covered (TopicData.get_consensus topic_data determine_passing) p
  ↔ ∃ total, TopicData.sum_contribs topic_data !! p = Some total
      ∧ determine_passing (p, total) = true.
Proof.
  unfold TopicData.get_consensus, iteritems.
  rewrite convert_to_ranges_covered by apply NoDup_fst_map_to_list.
  rewrite keys_dict by apply NoDup_fst_filter, NoDup_fst_map_to_list.
  rewrite list_elem_of_fmap. split.
  - intros ([p' total] & -> & [Hin Hpass]%list_elem_of_In%filter_In).
    apply list_elem_of_In, elem_of_map_to_list in Hin. eauto.
  - intros (total & Hin%elem_of_map_to_list%list_elem_of_In & Hpass).
    exists (p, total). split; [done|]. by apply list_elem_of_In, filter_In.
Qed.

Lemma get_consensus_passing topic_data pass_threshold p :
  covered (TopicData.get_consensus topic_data
             (ConsensusProcessor.determine_passing pass_threshold)) p
  ↔ passing topic_data pass_threshold p.
Proof.
  rewrite get_consensus_covered. unfold passing. simpl.
  by setoid_rewrite Z.geb_le.
Qed.

Lemma get_consensus_separated topic_data determine_passing :
  ∃ lo, separated lo (TopicData.get_consensus topic_data determine_passing).
Proof. apply convert_to_ranges_separated, NoDup_fst_map_to_list. Qed.

Lemma List_filter_Permutation {A} (f : A → bool) (l l' : list A) :
  l ≡ₚ l' → List.filter f l ≡ₚ List.filter f l'.
Proof.
  induction 1 as [|x l l' _ IH|x y l|l l' l'' _ IH _ IH']; simpl.
  - done.
  - destruct (f x); by rewrite IH.
  - destruct (f x), (f y); try done. apply perm_swap.
  - by rewrite IH.
Qed.

(** [get_consensus] gives the same ranges in whatever order the counter is
    read and the passing positions are listed: the positions are sorted. *)
Lemma get_consensus_any_order topic_data (determine_passing : Z * Z → bool)
    (items : list (Z * Z)) (passing_indices : list Z) :
  items ≡ₚ iteritems (TopicData.sum_contribs topic_data) →
  passing_indices ≡ₚ keys (dict (List.filter determine_passing items)) →
  TopicData.convert_to_ranges passing_indices
  = TopicData.get_consensus topic_data determine_passing.
Proof.
  intros Hitems Hkeys. unfold TopicData.get_consensus.
  apply convert_to_ranges_Permutation. rewrite Hkeys.
  assert (NoDup (iteritems (TopicData.sum_contribs topic_data)).*1) as Hnd
    by apply NoDup_fst_map_to_list.
  rewrite !keys_dict.
  - by rewrite (List_filter_Permutation _ _ _ Hitems).
  - by apply NoDup_fst_filter.
  - apply NoDup_fst_filter. by rewrite Hitems.
Qed.

Lemma get_consensus_flattened topic_data topic_data' determine_passing :
  flattened_of topic_data = flattened_of topic_data' →
  TopicData.get_consensus topic_data determine_passing
  = TopicData.get_consensus topic_data' determine_passing.
Proof.
  intros Heq. unfold TopicData.get_consensus.
  by rewrite (sum_contribs_flattened _ _ Heq).
Qed.

(** C5: raising [pass_threshold] never adds a passing position.  For one
    topic state and thresholds [t1 ≤ t2], every position that passes at
    [t2] passes at [t1], and every position covered by the ranges computed
    at [t2] is covered by the ranges computed at [t1]; the covered
    positions are exactly the passing ones. *)
Theorem pass_threshold_monotone topic_data (t1 t2 : Z) :
  t1 ≤ t2 →
  (∀ p, passing topic_data t2 p → passing topic_data t1 p)
  ∧ (∀ p, covered (TopicData.get_consensus topic_data
                     (ConsensusProcessor.determine_passing t2)) p →
          covered (TopicData.get_consensus topic_data
                     (ConsensusProcessor.determine_passing t1)) p)
  ∧ (∀ t p, covered (TopicData.get_consensus topic_data
                       (ConsensusProcessor.determine_passing t)) p
            ↔ ∃ total, TopicData.sum_contribs topic_data !! p = Some total
                ∧ t ≤ total).
Proof.
  intros Hle.
  assert (∀ p, passing topic_data t2 p → passing topic_data t1 p) as Hmono.
  { intros p (total & Hp & Hge). exists total. split; [done|lia]. }
  split_and!; [done| |].
  - intros p. rewrite !get_consensus_passing. apply Hmono.
  - intros t p. apply get_consensus_passing.
Qed.
End topic_consensus.

(** ** Rows that share their ranges *)

Section spans.
Implicit Types (rows offsets : list Row.t) (p : Z).

Lemma separated_span lo rows rows' :
  span <$> rows = span <$> rows' → separated lo rows → separated lo rows'.
Proof.
  revert lo rows'. induction rows as [|r rows IH]; intros lo [|r' rows']; try done.
  rewrite !fmap_cons. intros [= Hs He Hrest]. simpl.
  rewrite Hs, He. intros (? & ? & ?). split_and!; [done..|]. by apply IH.
Qed.

Lemma covered_span rows rows' p :
  span <$> rows = span <$> rows' → covered rows p → covered rows' p.
Proof.
  intros Heq (r & [i Hi]%list_elem_of_lookup & Hp).
  assert ((span <$> rows') !! i = Some (span r)) as Hi'
    by (by rewrite <-Heq, list_lookup_fmap, Hi).
  rewrite list_lookup_fmap in Hi'.
  destruct (rows' !! i) as [r'|] eqn:Hr'; [|done]. injection Hi' as Hs He.
  exists r'. split; [by eapply list_elem_of_lookup_2|].
  unfold Row.covers in *. by rewrite Hs, He.
Qed.

Lemma positions_of_span rows rows' :
  span <$> rows = span <$> rows' → positions_of rows = positions_of rows'.
Proof.
  revert rows'. induction rows as [|r rows IH]; intros [|r' rows']; try done.
  rewrite !fmap_cons, !positions_of_cons. intros [= Hs He Hrest].
  by rewrite Hs, He, (IH _ Hrest).
Qed.

Lemma offsets_span rows offsets :
  Forall (λ r, r = Row.offset (Row.start_pos r) (Row.end_pos r)) offsets →
  span <$> rows = span <$> offsets →
  (λ r, Row.offset (Row.start_pos r) (Row.end_pos r)) <$> rows = offsets.
Proof.
  revert offsets. induction rows as [|r rows IH]; intros [|r' offsets]; try done.
  rewrite !fmap_cons. intros [Hr' Hoff]%Forall_cons [= Hs He Hrest].
  rewrite (IH _ Hoff Hrest). f_equal. by rewrite Hr', Hs, He.
Qed.
End spans.

(** ** ConsensusProcessor: extraction *)

Section extraction.
Context `{Codec char} `{DictOrder}.
Implicit Types (self : ConsensusProcessor.t char) (topic_data : TopicData.t).
Implicit Types (rows offsets : list Row.t) (p : Z).

Lemma set_text_Ok self offsets offsets' :
  ConsensusProcessor.set_text self offsets = Ok offsets' →
  Forall2 (λ offset offset',
             ∃ text, offset' = Row.set_target_text text offset) offsets offsets'.
Proof.
  intros Hok%for_each_Ok. eapply Forall2_impl; [done|]. simpl.
  intros o o' Ho.
  destruct (for_each _ _) as [chars|]; simpl in *; [|done].
  injection Ho as <-. eauto.
Qed.

Lemma set_text_span self offsets offsets' :
  ConsensusProcessor.set_text self offsets = Ok offsets' →
  span <$> offsets' = span <$> offsets.
Proof.
  intros Hok%set_text_Ok. induction Hok as [|o o' l l' [text ->] _ IH]; [done|].
  rewrite !fmap_cons. by f_equal.
Qed.

(** Reconstructing the text can only fail on a position that was never
    recorded, and then with a lookup error. *)
Lemma set_text_Raise self offsets e :
  ConsensusProcessor.set_text self offsets = Raise e →
  e = KeyError
  ∧ ∃ offset p, offset ∈ offsets ∧ Row.covers offset p
      ∧ ArticleData.char_dict (ConsensusProcessor.article_data self) !! p = None.
Proof.
  intros (o & Ho & Hraise)%for_each_Raise. cbv zeta in Hraise.
  destruct (for_each _ (range _ _)) as [chars|e'] eqn:Hchars; [done|].
  injection Hraise as ->.
  apply for_each_Raise in Hchars as (p & Hp%elem_of_range & Hget).
  unfold ArticleData.get in Hget.
  destruct (ArticleData.char_dict _ !! p) eqn:Hlook; [done|].
  injection Hget as <-. split; [done|]. by exists o, p.
Qed.

Lemma set_text_KeyError self offsets offset p :
  offset ∈ offsets → Row.covers offset p →
  ArticleData.char_dict (ConsensusProcessor.article_data self) !! p = None →
  ConsensusProcessor.set_text self offsets = Raise KeyError.
Proof.
  intros Ho Hp Hnone.
  assert (∃ e, for_each (ArticleData.get (ConsensusProcessor.article_data self))
                 (range (Row.start_pos offset) (Row.end_pos offset)) = Raise e)
    as [e He].
  { apply (for_each_not_Ok _ _ p KeyError); [by apply elem_of_range|].
    unfold ArticleData.get. by rewrite Hnone. }
  destruct (for_each_not_Ok
    (λ offset,
       obind (for_each (ArticleData.get (ConsensusProcessor.article_data self))
                (range (Row.start_pos offset) (Row.end_pos offset)))
         (λ chars, Ok (Row.set_target_text (unicode_escape_encode chars) offset)))
    offsets offset e Ho) as [e' He']; [by rewrite He|].
  fold (ConsensusProcessor.set_text self offsets) in He'.
  by destruct (set_text_Raise _ _ _ He') as [-> _].
Qed.

Lemma determine_cases_lookup topic_data offsets (i : nat) :
  TopicData.determine_cases topic_data offsets !! i
  = Row.set_case (TopicData.topic_name topic_data)
      (TopicData.namespace topic_data) (Z.of_nat i + 1) <$> offsets !! i.
Proof. unfold TopicData.determine_cases. by rewrite list_lookup_imap. Qed.

Lemma determine_cases_span topic_data offsets :
  span <$> TopicData.determine_cases topic_data offsets = span <$> offsets.
Proof.
  apply list_eq. intros i.
  rewrite !list_lookup_fmap, determine_cases_lookup. by destruct (offsets !! i).
Qed.

Lemma set_links_span self rows :
  span <$> ConsensusProcessor.set_links self rows = span <$> rows.
Proof.
  unfold ConsensusProcessor.set_links. rewrite <-list_fmap_compose.
  by apply list_fmap_ext.
Qed.

(** What the rows of one topic are made of, when the text can be
    reconstructed. *)
Lemma topic_consensus_Ok self topic_data rows :
  ConsensusProcessor.topic_consensus self topic_data = Ok rows →
  ∃ offsets',
    ConsensusProcessor.set_text self
      (TopicData.get_consensus topic_data
         (ConsensusProcessor.determine_passing
            (ConsensusProcessor.pass_threshold self))) = Ok offsets'
    ∧ rows = ConsensusProcessor.set_links self
               (TopicData.determine_cases topic_data offsets').
Proof.
  unfold ConsensusProcessor.topic_consensus.
  destruct (ConsensusProcessor.set_text _ _) as [offsets'|]; simpl; [|done].
  intros [= <-]. eauto.
Qed.

Lemma topic_consensus_span self topic_data rows :
  ConsensusProcessor.topic_consensus self topic_data = Ok rows →
  span <$> rows
  = span <$> TopicData.get_consensus topic_data
               (ConsensusProcessor.determine_passing
                  (ConsensusProcessor.pass_threshold self)).
Proof.
  intros (offsets' & Htext & ->)%topic_consensus_Ok.
  by rewrite set_links_span, determine_cases_span, (set_text_span _ _ _ Htext).
Qed.

Lemma topic_consensus_case_number self topic_data rows (i : nat) r :
  ConsensusProcessor.topic_consensus self topic_data = Ok rows →
  rows !! i = Some r → Row.case_number r = Some (Z.of_nat i + 1).
Proof.
  intros (offsets' & Htext & ->)%topic_consensus_Ok.
  unfold ConsensusProcessor.set_links.
  rewrite list_lookup_fmap, determine_cases_lookup.
  destruct (offsets' !! i); simpl; [|done]. by intros [= <-].
Qed.

Lemma topic_consensus_flattened self topic_data topic_data' :
  TopicData.topic_name topic_data' = TopicData.topic_name topic_data →
  TopicData.namespace topic_data' = TopicData.namespace topic_data →
  flattened_of topic_data' = flattened_of topic_data →
  ConsensusProcessor.topic_consensus self topic_data'
  = ConsensusProcessor.topic_consensus self topic_data.
Proof.
  intros Hname Hns Hflat. unfold ConsensusProcessor.topic_consensus.
  rewrite (get_consensus_flattened _ _ _ Hflat).
  unfold TopicData.determine_cases. by rewrite Hname, Hns.
Qed.
Lemma for_each_map_outcome {A B} (f f' : A → outcome B) (g : B → B) (l : list A) :
  (∀ x, x ∈ l → f x = map_outcome g (f' x)) →
  for_each f l = map_outcome (fmap g) (for_each f' l).
Proof.
  induction l as [|x l IH]; intros Hf; simpl; [done|].
  rewrite (Hf x) by (by left). rewrite IH by (intros; apply Hf; by right).
  destruct (f' x); simpl; [|done]. by destruct (for_each f' l).
Qed.

Lemma highlight_rows_concat (rowss : list (list Row.t)) :
  highlight_rows (concat rowss) = concat (highlight_rows <$> rowss).
Proof.
  unfold highlight_rows. induction rowss as [|rows rowss IH]; simpl; [done|].
  by rewrite filter_app, fmap_app, IH.
Qed.

Lemma topic_consensus_extra self topic_data rows :
  ConsensusProcessor.topic_consensus self topic_data = Ok rows →
  Forall (λ r, Row.extra r = None ∧ Row.start_pos r < Row.end_pos r) rows.
Proof.
  intros Hrows.
  destruct (get_consensus_separated topic_data
    (ConsensusProcessor.determine_passing (ConsensusProcessor.pass_threshold self)))
    as [lo Hsep].
  apply (separated_span _ _ rows) in Hsep;
    [|symmetry; by apply topic_consensus_span].
  apply topic_consensus_Ok in Hrows as (offsets' & Htext%set_text_Ok & ->).
  apply Forall_forall. intros r Hr.
  split; [|pose proof (separated_bounds _ _ _ Hsep Hr); lia].
  apply list_elem_of_lookup in Hr as [i Hi].
  unfold ConsensusProcessor.set_links in Hi.
  rewrite list_lookup_fmap, determine_cases_lookup in Hi.
  destruct (offsets' !! i) as [o'|] eqn:Ho'; [|done]. injection Hi as <-. simpl.
  destruct (Forall2_lookup_r _ _ _ _ _ Htext Ho') as (o & Ho & text & ->). simpl.
  pose proof (convert_to_ranges_offsets
    (keys (dict (List.filter
       (ConsensusProcessor.determine_passing (ConsensusProcessor.pass_threshold self))
       (iteritems (TopicData.sum_contribs topic_data)))))) as Hoff.
  rewrite Forall_forall in Hoff.
  by rewrite (Hoff o (list_elem_of_lookup_2 _ _ _ Ho)).
Qed.

Lemma highlight_rows_set_extra contrib_count rows :
  Forall (λ r, Row.extra r = None ∧ Row.start_pos r < Row.end_pos r) rows →
  highlight_rows (Row.set_extra contrib_count <$> rows) = rows.
Proof.
  unfold highlight_rows. induction 1 as [|r rows [Hex Hlt] _ IH]; [done|].
  rewrite fmap_cons, filter_cons_True by done. rewrite fmap_cons, IH.
  f_equal. destruct r. simpl in *. by rewrite Hex.
Qed.

(** The two ways a topic goes through [get_answer_consensus]. *)
Lemma topic_answer_fallback self topic_data :
  TopicData.get_consensus topic_data
    (ConsensusProcessor.determine_passing (ConsensusProcessor.pass_threshold self))
    = [] →
  ConsensusProcessor.pass_threshold self ≤ TopicData.get_contrib_count topic_data →
  ConsensusProcessor.topic_consensus self topic_data = Ok []
  ∧ ConsensusProcessor.topic_answer_consensus self topic_data
    = Ok [Row.mk 0 0 (Some (unicode_escape_encode []))
            (Some (TopicData.topic_name topic_data))
            (Some (TopicData.namespace topic_data)) (Some 1)
            (Some (ArticleData.article_sha256 (ConsensusProcessor.article_data self)))
            (Some (ArticleData.article_filename (ConsensusProcessor.article_data self)))
            (Some (ConsensusProcessor.task_uuid self))
            (Some (TopicData.get_contrib_count topic_data))].
Proof.
  intros Hnil Hcount.
  unfold ConsensusProcessor.topic_consensus,
    ConsensusProcessor.topic_answer_consensus.
  rewrite Hnil. simpl. split; [done|].
  by rewrite (proj2 (Z.geb_le _ _) Hcount).
Qed.

Lemma topic_answer_regular self topic_data :
  ¬ (TopicData.get_consensus topic_data
       (ConsensusProcessor.determine_passing (ConsensusProcessor.pass_threshold self))
       = []
     ∧ ConsensusProcessor.pass_threshold self
         ≤ TopicData.get_contrib_count topic_data) →
  ConsensusProcessor.topic_answer_consensus self topic_data
  = map_outcome (fmap (Row.set_extra (TopicData.get_contrib_count topic_data)))
      (ConsensusProcessor.topic_consensus self topic_data).
Proof.
  intros Hno.
  unfold ConsensusProcessor.topic_consensus,
    ConsensusProcessor.topic_answer_consensus.
  destruct (bool_decide _ && _) eqn:Hcond.
  - destruct Hno. apply andb_true_iff in Hcond as [Hlen%bool_decide_eq_true Hge].
    split; [by apply nil_length_inv|by apply Z.geb_le].
  - by destruct (ConsensusProcessor.set_text _ _).
Qed.

Lemma topic_answer_highlight_rows self topic_data :
  ConsensusProcessor.topic_consensus self topic_data
  = map_outcome highlight_rows
      (ConsensusProcessor.topic_answer_consensus self topic_data).
Proof.
  destruct (decide (TopicData.get_consensus topic_data
       (ConsensusProcessor.determine_passing (ConsensusProcessor.pass_threshold self))
       = []
     ∧ ConsensusProcessor.pass_threshold self
         ≤ TopicData.get_contrib_count topic_data)) as [[Hnil Hge]|Hno].
  - destruct (topic_answer_fallback _ _ Hnil Hge) as [-> ->]. done.
  - rewrite (topic_answer_regular _ _ Hno).
    destruct (ConsensusProcessor.topic_consensus self topic_data) as [rows|] eqn:Hrows;
      simpl; [|done].
    f_equal. symmetry. by eapply highlight_rows_set_extra, topic_consensus_extra.
Qed.

Lemma topic_answer_extra self topic_data rows r :
  ConsensusProcessor.topic_answer_consensus self topic_data = Ok rows →
  r ∈ rows → Row.extra r = Some (TopicData.get_contrib_count topic_data).
Proof.
  unfold ConsensusProcessor.topic_answer_consensus.
  destruct (ConsensusProcessor.set_text _ _) as [offsets'|]; simpl; [|done].
  intros [= <-] (r' & -> & _)%list_elem_of_fmap. done.
Qed.
(** Proposed case numbers reach the state only through
    [case_number_dict], and the extraction never reads it. *)
Lemma forget_cases_contrib_consider contrib_data contrib_data' anno anno' :
  forget_cases_contrib contrib_data = forget_cases_contrib contrib_data' →
  anno' = with_case_number (Anno.case_number anno') anno →
  forget_cases_contrib (ContribData.consider contrib_data anno)
  = forget_cases_contrib (ContribData.consider contrib_data' anno').
Proof.
  intros [= Hflat] ->. unfold forget_cases_contrib.
  rewrite !contrib_consider_flattened. simpl. by rewrite Hflat.
Qed.

Lemma forget_cases_topic_consider topic_data topic_data' anno anno' :
  forget_cases_topic topic_data = forget_cases_topic topic_data' →
  anno' = with_case_number (Anno.case_number anno') anno →
  forget_cases_topic (TopicData.consider topic_data anno).1
    = forget_cases_topic (TopicData.consider topic_data' anno').1
  ∧ (TopicData.consider topic_data anno).2
    = (TopicData.consider topic_data' anno').2.
Proof.
  intros [= Hname Hns Hdict] Hanno.
  assert (forget_cases_contrib
            (default ContribData.init
               (TopicData.contrib_dict topic_data !! Anno.contributor_uuid anno))
          = forget_cases_contrib
              (default ContribData.init
                 (TopicData.contrib_dict topic_data'
                    !! Anno.contributor_uuid anno))) as Hcd.
  { pose proof (f_equal (λ m, m !! Anno.contributor_uuid anno) Hdict) as Hlook.
    simpl in Hlook. rewrite !lookup_fmap in Hlook.
    destruct (TopicData.contrib_dict topic_data !! _),
             (TopicData.contrib_dict topic_data' !! _); simpl in *;
      [congruence|done..]. }
  pose proof (forget_cases_contrib_consider _ _ _ _ Hcd Hanno) as Hcons.
  rewrite Hanno. unfold TopicData.consider. simpl. rewrite <-Hname, <-Hns.
  case_bool_decide; unfold forget_cases_topic; simpl;
    rewrite !fmap_insert, Hdict; rewrite Hanno in Hcons; simpl in Hcons;
    by rewrite Hcons.
Qed.

Lemma forget_cases_consider_anno minimum_redundancy self self' anno anno' :
  forget_cases self = forget_cases self' →
  anno' = with_case_number (Anno.case_number anno') anno →
  forget_cases (ConsensusProcessor.consider_anno minimum_redundancy self anno).1
    = forget_cases
        (ConsensusProcessor.consider_anno minimum_redundancy self' anno').1
  ∧ (ConsensusProcessor.consider_anno minimum_redundancy self anno).2
    = (ConsensusProcessor.consider_anno minimum_redundancy self' anno').2.
Proof.
  intros Hself Hanno. injection Hself as Huuid Hconfig Harticle Htopics Hins.
  assert (inserted_after (ConsensusProcessor.topics self)
            (ConsensusProcessor.topics_inserted self) (Anno.topic_name anno)
          = inserted_after (ConsensusProcessor.topics self')
              (ConsensusProcessor.topics_inserted self') (Anno.topic_name anno))
    as Hins'.
  { pose proof (f_equal (λ m, m !! Anno.topic_name anno) Htopics) as Hlook.
    simpl in Hlook. rewrite !lookup_fmap in Hlook. unfold inserted_after.
    rewrite Hins.
    by destruct (ConsensusProcessor.topics self !! _),
                (ConsensusProcessor.topics self' !! _). }
  assert (forget_cases_topic
            (default TopicData.init
               (ConsensusProcessor.topics self !! Anno.topic_name anno))
          = forget_cases_topic
              (default TopicData.init
                 (ConsensusProcessor.topics self' !! Anno.topic_name anno))) as Htd.
  { pose proof (f_equal (λ m, m !! Anno.topic_name anno) Htopics) as Hlook.
    simpl in Hlook. rewrite !lookup_fmap in Hlook.
    destruct (ConsensusProcessor.topics self !! _),
             (ConsensusProcessor.topics self' !! _); simpl in *;
      [congruence|done..]. }
  destruct (forget_cases_topic_consider _ _ _ _ Htd Hanno) as [Hstate Hout].
  rewrite Hanno in Hstate, Hout |- *. unfold ConsensusProcessor.consider_anno.
  simpl in *. rewrite <-Harticle.
  case_bool_decide; simpl; [unfold forget_cases; split; [|done]; congruence|].
  assert (ArticleData.consider (ConsensusProcessor.article_data self)
            (with_case_number (Anno.case_number anno') anno)
          = ArticleData.consider (ConsensusProcessor.article_data self) anno) as ->
    by done.
  destruct (ArticleData.consider _ anno) as [article [[]|e]]; simpl.
  - destruct (TopicData.consider (default _ (ConsensusProcessor.topics self !! _)) _)
      as [td r], (TopicData.consider (default _ (ConsensusProcessor.topics self' !! _)) _)
      as [td' r']. simpl in *. split; [|done].
    unfold forget_cases. simpl. rewrite !fmap_insert. congruence.
  - split; [|done]. unfold forget_cases. simpl. congruence.
Qed.

Lemma forget_cases_for_state minimum_redundancy self self' batch batch' :
  forget_cases self = forget_cases self' →
  same_but_case_numbers batch batch' →
  forget_cases
    (for_state (ConsensusProcessor.consider_anno minimum_redundancy) self batch).1
    = forget_cases
        (for_state (ConsensusProcessor.consider_anno minimum_redundancy)
           self' batch').1
  ∧ (for_state (ConsensusProcessor.consider_anno minimum_redundancy) self batch).2
    = (for_state (ConsensusProcessor.consider_anno minimum_redundancy)
         self' batch').2.
Proof.
  intros Hself Hbatch. revert self self' Hself.
  induction Hbatch as [|anno anno' batch batch' Hanno _ IH]; intros self self' Hself;
    simpl; [done|].
  destruct (forget_cases_consider_anno minimum_redundancy _ _ _ _ Hself Hanno)
    as [Hstate Hout].
  destruct (ConsensusProcessor.consider_anno _ self anno) as [self1 r],
           (ConsensusProcessor.consider_anno _ self' anno') as [self1' r'].
  simpl in *. subst r'. destruct r as [[]|e]; [by apply IH|done].
Qed.

Lemma flattened_of_forget_cases topic_data :
  flattened_of (forget_cases_topic topic_data) = flattened_of topic_data.
Proof.
  unfold flattened_of, forget_cases_topic. simpl.
  rewrite <-map_fmap_compose. by apply map_fmap_ext.
Qed.

Lemma topic_consensus_forget_cases self topic_data :
  ConsensusProcessor.topic_consensus (forget_cases self)
    (forget_cases_topic topic_data)
  = ConsensusProcessor.topic_consensus self topic_data.
Proof.
  transitivity (ConsensusProcessor.topic_consensus self
                  (forget_cases_topic topic_data)); [done|].
  apply topic_consensus_flattened; [done..|apply flattened_of_forget_cases].
Qed.

Lemma for_each_fmap {A B C} (f : B → outcome C) (g : A → B) (l : list A) :
  for_each f (g <$> l) = for_each (f ∘ g) l.
Proof. induction l as [|x l IH]; csimpl; [done|]. by rewrite IH. Qed.

Lemma for_each_ext {A B} (f g : A → outcome B) (l : list A) :
  (∀ x, f x = g x) → for_each f l = for_each g l.
Proof. intros Hfg. induction l as [|x l IH]; simpl; [done|]. by rewrite Hfg, IH. Qed.

Lemma get_consensus_forget_cases self :
  ConsensusProcessor.get_consensus (forget_cases self)
  = ConsensusProcessor.get_consensus self.
Proof.
  unfold ConsensusProcessor.get_consensus, forget_cases at 2. simpl.
  rewrite iteritems_in_fmap, for_each_fmap. f_equal.
  apply for_each_ext. intros [name td]. simpl. apply topic_consensus_forget_cases.
Qed.

Lemma get_consensus_same_but_case_numbers self batch batch' :
  same_but_case_numbers batch batch' →
  (ConsensusProcessor.consider self batch').2
    = (ConsensusProcessor.consider self batch).2
  ∧ ConsensusProcessor.get_consensus (ConsensusProcessor.consider self batch').1
    = ConsensusProcessor.get_consensus (ConsensusProcessor.consider self batch).1.
Proof.
  intros Hbatch. unfold ConsensusProcessor.consider.
  destruct (forget_cases_for_state
    (default MIN_REDUNDANCY (ConsensusProcessor.iaa_config self !! "minimum_redundancy"))
    self self batch batch' eq_refl Hbatch) as [Hstate Hout].
  split; [done|].
  by rewrite <-get_consensus_forget_cases, <-Hstate, get_consensus_forget_cases.
Qed.

(** C3: the rows [get_consensus] emits for one topic.  They are in
    ascending order of [start_pos] and a later row starts strictly after the
    end of an earlier one, so they are pairwise disjoint and never adjacent:
    the position at the end of a row, and the one before its start, do not
    pass.  Converting the positions of the rows again gives the same ranges.
    The i-th row (from 0) carries case number i + 1, and nothing of the
    contributors' case-number bookkeeping is read: a topic with the same
    identity and the same flattened sets yields the same rows, and two
    batches that differ only in the case numbers they propose give the
    same consensus.  The rows of the topic in [get_answer_consensus] are
    ordered and numbered the same way. *)
Theorem topic_rows_invariant self topic_data rows :
  ConsensusProcessor.topic_consensus self topic_data = Ok rows →
  let pass_threshold := ConsensusProcessor.pass_threshold self in
  (∀ (i j : nat) r r',
     (i < j)%nat → rows !! i = Some r → rows !! j = Some r' →
     Row.start_pos r < Row.start_pos r' ∧ Row.end_pos r < Row.start_pos r')
  ∧ (∀ (i j : nat) r r' p,
       i ≠ j → rows !! i = Some r → rows !! j = Some r' →
       ¬ (Row.covers r p ∧ Row.covers r' p))
  ∧ (∀ r, r ∈ rows →
       Row.start_pos r < Row.end_pos r
       ∧ (∀ p, Row.covers r p → passing topic_data pass_threshold p)
       ∧ ¬ passing topic_data pass_threshold (Row.start_pos r - 1)
       ∧ ¬ passing topic_data pass_threshold (Row.end_pos r))
  ∧ TopicData.convert_to_ranges (positions_of rows)
    = (λ r, Row.offset (Row.start_pos r) (Row.end_pos r)) <$> rows
  ∧ (∀ (i : nat) r, rows !! i = Some r →
       Row.case_number r = Some (Z.of_nat i + 1))
  ∧ (∀ topic_data',
       TopicData.topic_name topic_data' = TopicData.topic_name topic_data →
       TopicData.namespace topic_data' = TopicData.namespace topic_data →
       flattened_of topic_data' = flattened_of topic_data →
       ConsensusProcessor.topic_consensus self topic_data' = Ok rows)
  ∧ (∀ answer_rows,
       ConsensusProcessor.topic_answer_consensus self topic_data = Ok answer_rows →
       (∀ (i j : nat) r r',
          (i < j)%nat → answer_rows !! i = Some r → answer_rows !! j = Some r' →
          Row.start_pos r < Row.start_pos r' ∧ Row.end_pos r < Row.start_pos r')
       ∧ (∀ (i : nat) r, answer_rows !! i = Some r →
            Row.case_number r = Some (Z.of_nat i + 1)))
  ∧ (∀ (processor : ConsensusProcessor.t char) batch batch',
       same_but_case_numbers batch batch' →
       ConsensusProcessor.get_consensus
         (ConsensusProcessor.consider processor batch').1
       = ConsensusProcessor.get_consensus
           (ConsensusProcessor.consider processor batch).1).
Proof.
  intros Hrows pass_threshold. subst pass_threshold.
  pose proof (topic_consensus_span _ _ _ Hrows) as Hspan.
  set (offsets := TopicData.get_consensus topic_data _) in Hspan.
  destruct (get_consensus_separated topic_data
    (ConsensusProcessor.determine_passing (ConsensusProcessor.pass_threshold self)))
    as [lo Hoff]. fold offsets in Hoff.
  assert (separated lo rows) as Hsep by (by eapply separated_span).
  assert (∀ p, covered rows p
               ↔ passing topic_data (ConsensusProcessor.pass_threshold self) p)
    as Hcov.
  { intros p. rewrite <-get_consensus_passing. fold offsets.
    split; by apply covered_span. }
  split_and!.
  - intros i j r r' Hij Hi Hj.
    pose proof (separated_lookup_lt _ _ _ _ _ _ Hsep Hij Hi Hj).
    pose proof (separated_bounds _ _ _ Hsep (list_elem_of_lookup_2 _ _ _ Hi)).
    lia.
  - intros i j r r' p Hij Hi Hj [Hp Hp']. apply Hij.
    by eapply separated_covers_unique.
  - intros r Hr. pose proof (separated_bounds _ _ _ Hsep Hr).
    destruct (separated_maximal _ _ _ Hsep Hr) as [Hpred Hend].
    rewrite <-!Hcov. split_and!; [lia| |done..].
    intros p Hp. apply Hcov. by exists r.
  - rewrite (positions_of_span _ _ Hspan).
    rewrite (convert_to_ranges_positions_of lo)
      by (done || apply convert_to_ranges_offsets).
    symmetry. apply offsets_span; [apply convert_to_ranges_offsets|done].
  - intros i r Hi. by eapply topic_consensus_case_number.
  - intros topic_data' Hname Hns Hflat.
    by rewrite (topic_consensus_flattened _ _ _ Hname Hns Hflat).
  - intros answer_rows Hanswer.
    destruct (decide (TopicData.get_consensus topic_data
         (ConsensusProcessor.determine_passing (ConsensusProcessor.pass_threshold self))
         = []
       ∧ ConsensusProcessor.pass_threshold self
           ≤ TopicData.get_contrib_count topic_data)) as [[Hnil Hge]|Hno].
    + destruct (topic_answer_fallback _ _ Hnil Hge) as [_ Hfall].
      rewrite Hfall in Hanswer. injection Hanswer as <-. split.
      * intros i [|j] r r' Hij Hi Hj; [lia|done].
      * intros [|i] r; [|done]. by intros [= <-].
    + rewrite (topic_answer_regular _ _ Hno), Hrows in Hanswer.
      injection Hanswer as <-. split.
      * intros i j r r' Hij. rewrite !list_lookup_fmap.
        destruct (rows !! i) as [r0|] eqn:Hi, (rows !! j) as [r0'|] eqn:Hj;
          try done.
        intros [= <-] [= <-]. simpl.
        pose proof (separated_lookup_lt _ _ _ _ _ _ Hsep Hij Hi Hj).
        pose proof (separated_bounds _ _ _ Hsep (list_elem_of_lookup_2 _ _ _ Hi)).
        lia.
      * intros i r. rewrite list_lookup_fmap.
        destruct (rows !! i) as [r0|] eqn:Hi; [|done]. intros [= <-]. simpl.
        by eapply topic_consensus_case_number.
  - intros processor batch batch' Hbatch.
    by apply get_consensus_same_but_case_numbers.
Qed.

Lemma get_answer_consensus_extra self rows r :
  ConsensusProcessor.get_answer_consensus self = Ok rows → r ∈ rows →
  ∃ topic_name topic_data,
    ConsensusProcessor.topics self !! topic_name = Some topic_data
    ∧ Row.extra r = Some (TopicData.get_contrib_count topic_data).
Proof.
  intros Hrows Hr. unfold ConsensusProcessor.get_answer_consensus in Hrows.
  destruct (for_each _ _) as [rowss|] eqn:Heach; simpl in Hrows; [|done].
  injection Hrows as <-.
  apply elem_of_concat in Hr as (rows' & Hr & [i Hi]%list_elem_of_lookup).
  apply for_each_Ok in Heach.
  destruct (Forall2_lookup_r _ _ _ _ _ Heach Hi) as ([name td] & Hx & Hans).
  exists name, td. split.
  - by eapply elem_of_iteritems_in, list_elem_of_lookup_2.
  - by eapply topic_answer_extra.
Qed.

Lemma get_consensus_highlight_rows self :
  ConsensusProcessor.get_consensus self
  = map_outcome highlight_rows (ConsensusProcessor.get_answer_consensus self).
Proof.
  unfold ConsensusProcessor.get_consensus, ConsensusProcessor.get_answer_consensus.
  rewrite (for_each_map_outcome _
    (λ '(_, topic_data), ConsensusProcessor.topic_answer_consensus self topic_data)
    highlight_rows) by (intros [? ?] _; apply topic_answer_highlight_rows).
  destruct (for_each _ _) as [rowss|]; simpl; [|done].
  by rewrite highlight_rows_concat.
Qed.
End extraction.

(** ** ConsensusProcessor: ingestion *)

Section ingestion.
Context `{Codec char} `{DictOrder}.
Implicit Types (self : ConsensusProcessor.t char) (anno : Anno.t).
Implicit Types (batch : list Anno.t).

(** The map of an annotation whose text is shorter than its range is the
    map of the annotation cut to the length of its text. *)
Lemma anno_map_short_text anno :
  Z.of_nat (length (decoded anno))
    < Anno.end_pos anno - Anno.start_pos anno →
  text_map anno
  = text_map
      (with_end_pos
         (Anno.start_pos anno
          + Z.of_nat (length (decoded anno)))
         anno).
Proof.
  intros Hshort. apply map_eq. intros k. apply option_eq. intros c.
  rewrite !lookup_anno_map. simpl. split.
  - intros (i & -> & ? & Hi). exists i. split_and!; [done| |done].
    apply lookup_lt_Some in Hi. lia.
  - intros (i & -> & ? & Hi). exists i. split_and!; [done|lia|done].
Qed.

(** C10: [ArticleData.consider] does not compare the length of the decoded
    text with the length of the range.  When the text is shorter than the
    range, the call does what it does on the annotation cut to the length
    of its text: it returns normally unless the text clashes with a known
    character or the identity differs; then the characters of the text are
    recorded at the first positions of the range and the remaining
    positions of the range keep what [char_dict] held before, so those that
    were unknown stay unknown; and reconstructing the text of any range
    that contains a position that is still unknown raises the lookup
    error. *)
Theorem article_consider_short_text (article : ArticleData.t char) anno :
  let text := decoded anno in
  Z.of_nat (length text) < Anno.end_pos anno - Anno.start_pos anno →
  ArticleData.consider article anno
    = ArticleData.consider article
        (with_end_pos (Anno.start_pos anno + Z.of_nat (length text)) anno)
  ∧ ((ArticleData.consider article anno).2 = Ok ()
     ↔ decodes anno
       ∧ ¬ (char_clash article anno ∨ identity_clash article anno))
  ∧ ((ArticleData.consider article anno).2 = Ok () →
     (∀ (i : nat) c, text !! i = Some c →
        ArticleData.char_dict (ArticleData.consider article anno).1
          !! (Anno.start_pos anno + Z.of_nat i) = Some c)
     ∧ (∀ k, Anno.start_pos anno + Z.of_nat (length text) ≤ k < Anno.end_pos anno →
          ArticleData.char_dict (ArticleData.consider article anno).1 !! k
          = ArticleData.char_dict article !! k)
     ∧ (∀ self offsets offset k,
          ConsensusProcessor.article_data self
            = (ArticleData.consider article anno).1 →
          offset ∈ offsets → Row.covers offset k →
          Anno.start_pos anno + Z.of_nat (length text) ≤ k < Anno.end_pos anno →
          ArticleData.char_dict article !! k = None →
          ConsensusProcessor.set_text self offsets = Raise KeyError)).
Proof.
  intros text Hshort.
  assert (∀ k, Anno.start_pos anno + Z.of_nat (length text) ≤ k →
               text_map anno !! k = None) as Hrest.
  { intros k Hk. destruct (text_map anno !! k) as [c|] eqn:Hlook; [|done].
    apply lookup_anno_map in Hlook as (i & -> & _ & Hi'%lookup_lt_Some).
    fold text in Hi'. lia. }
  split_and!.
  - destruct (decodes_dec anno) as [Hdec|Hdec].
    + rewrite !consider_decoded by done. by rewrite <-anno_map_short_text.
    + by rewrite !consider_undecodable.
  - destruct (ArticleData.consider article anno) as [article' r] eqn:Hcons. simpl.
    split.
    + intros ->. apply article_consider_Ok in Hcons. naive_solver.
    + intros [Hdec Hno]. rewrite consider_consistent in Hcons by naive_solver.
      by injection Hcons as _ <-.
  - destruct (ArticleData.consider article anno) as [article' r] eqn:Hcons. simpl.
    intros ->. apply article_consider_Ok in Hcons as (_ & _ & _ & ->). simpl.
    split_and!.
    + intros i c Hic. rewrite lookup_update.
      erewrite (proj2 (lookup_anno_map anno _ c)); [done|].
      exists i. apply lookup_lt_Some in Hic as Hlt. split_and!; [done|lia|done].
    + intros k [Hk _]. by rewrite lookup_update, Hrest.
    + intros self offsets offset k Hself Hoff Hcov [Hk _] Hnone.
      eapply set_text_KeyError; [done..|].
      by rewrite Hself; simpl; rewrite lookup_update, Hrest.
Qed.

Lemma consider_anno_dropped minimum_redundancy self anno :
  Anno.taskrun_count anno < minimum_redundancy →
  ConsensusProcessor.consider_anno minimum_redundancy self anno = (self, Ok ()).
Proof.
  intros Hlow. unfold ConsensusProcessor.consider_anno.
  by rewrite bool_decide_eq_true_2.
Qed.

Lemma for_state_dropped minimum_redundancy self batch :
  Forall (λ anno, Anno.taskrun_count anno < minimum_redundancy) batch →
  for_state (ConsensusProcessor.consider_anno minimum_redundancy) self batch
  = (self, Ok ()).
Proof.
  induction 1 as [|anno batch Hlow _ IH]; simpl; [done|].
  by rewrite consider_anno_dropped.
Qed.

Lemma for_state_filter minimum_redundancy self batch :
  for_state (ConsensusProcessor.consider_anno minimum_redundancy) self batch
  = for_state (ConsensusProcessor.consider_anno minimum_redundancy) self
      (filter (λ anno, ¬ Anno.taskrun_count anno < minimum_redundancy) batch).
Proof.
  revert self. induction batch as [|anno batch IH]; intros self; [done|].
  destruct (decide (Anno.taskrun_count anno < minimum_redundancy)) as [Hlow|Hacc].
  - rewrite filter_cons_False by auto. simpl.
    by rewrite consider_anno_dropped.
  - rewrite filter_cons_True by done. simpl.
    destruct (ConsensusProcessor.consider_anno _ _ _) as [self' [[]|e]]; [apply IH|done].
Qed.

(** C6: an annotation whose [taskrun_count] is below [minimum_redundancy]
    is dropped by [consider] and leaves the processor as it was: a batch of
    such annotations changes nothing, a batch behaves as the batch without
    them, and so do any two batches that agree on the other annotations;
    the consensus rows are then the same. *)
Theorem consider_drops_under_redundant self batch :
  let minimum_redundancy :=
    default MIN_REDUNDANCY
      (ConsensusProcessor.iaa_config self !! "minimum_redundancy") in
  let dropped anno := Anno.taskrun_count anno < minimum_redundancy in
  ConsensusProcessor.consider self (filter dropped batch) = (self, Ok ())
  ∧ ConsensusProcessor.consider self batch
    = ConsensusProcessor.consider self (filter (λ anno, ¬ dropped anno) batch)
  ∧ (∀ batch',
       filter (λ anno, ¬ dropped anno) batch'
         = filter (λ anno, ¬ dropped anno) batch →
       ConsensusProcessor.consider self batch'
         = ConsensusProcessor.consider self batch
       ∧ ConsensusProcessor.get_consensus (ConsensusProcessor.consider self batch').1
         = ConsensusProcessor.get_consensus (ConsensusProcessor.consider self batch).1
       ∧ ConsensusProcessor.get_answer_consensus
           (ConsensusProcessor.consider self batch').1
         = ConsensusProcessor.get_answer_consensus
             (ConsensusProcessor.consider self batch).1).
Proof.
  intros minimum_redundancy dropped. unfold ConsensusProcessor.consider.
  fold minimum_redundancy. split_and!.
  - apply for_state_dropped, Forall_forall. by intros anno [? _]%list_elem_of_filter.
  - apply for_state_filter.
  - intros batch' Heq.
    assert (for_state (ConsensusProcessor.consider_anno minimum_redundancy) self batch'
            = for_state (ConsensusProcessor.consider_anno minimum_redundancy) self batch)
      as -> ; [|done].
    rewrite (for_state_filter _ _ batch'), (for_state_filter _ _ batch).
    unfold dropped in Heq. by rewrite Heq.
Qed.
End ingestion.

(** ** Order of ingestion *)

Section contrib_order.
Implicit Types (contrib_data : ContribData.t) (anno : Anno.t).

(** The case number a contributor keeps at a position: the least one they
    proposed there. *)
Lemma lookup_case_number_consider contrib_data anno k :
  ContribData.case_number_dict (ContribData.consider contrib_data anno) !! k
  = if decide (Anno.start_pos anno ≤ k < Anno.end_pos anno) then
      Some (match ContribData.case_number_dict contrib_data !! k with
            | Some v => Z.min v (Anno.case_number anno)
            | None => Anno.case_number anno
            end)
    else ContribData.case_number_dict contrib_data !! k.
Proof.
  unfold ContribData.consider. simpl. rewrite !lookup_update.
  set (d := ContribData.case_number_dict contrib_data).
  set (anno_set := list_to_set (range _ _) : gset Z).
  assert (k ∈ anno_set ↔ Anno.start_pos anno ≤ k < Anno.end_pos anno) as Hk
    by (unfold anno_set; by rewrite elem_of_list_to_set, elem_of_range).
  assert (∀ y y' : Z, y ∈ dom d ∩ anno_set → y' ∈ dom d ∩ anno_set →
            (y, Z.min (d !!! y) (Anno.case_number anno)).1
            = (y', Z.min (d !!! y') (Anno.case_number anno)).1 → y = y')
    as Hinj by done.
  destruct (set_to_map _ _ !! k) as [v|] eqn:Hov.
  - apply (lookup_set_to_map _ _ _ _ Hinj) in Hov as (y & Hy & [= -> <-]).
    apply elem_of_intersection in Hy as [[w Hw]%elem_of_dom Hy].
    rewrite decide_True by by apply Hk.
    by rewrite Hw, (lookup_total_correct _ _ _ Hw).
  - rewrite lookup_gset_to_gmap. case_decide as Hin.
    + destruct (d !! k) as [w|] eqn:Hw.
      * assert ((set_to_map (λ k, (k, Z.min (d !!! k) (Anno.case_number anno)))
                   (dom d ∩ anno_set) : gmap Z Z) !! k
                = Some (Z.min (d !!! k) (Anno.case_number anno))) as Hsome; [|congruence].
        apply (lookup_set_to_map _ _ _ _ Hinj). exists k. split; [|done].
        apply elem_of_intersection. split; [by apply elem_of_dom|by apply Hk].
      * rewrite option_guard_True; [done|].
        apply elem_of_difference. split; [by apply Hk|]. by apply not_elem_of_dom.
    + rewrite option_guard_False; [done|].
      intros [? _]%elem_of_difference. by apply Hin, Hk.
Qed.

Lemma contrib_consider_comm contrib_data anno1 anno2 :
  ContribData.consider (ContribData.consider contrib_data anno1) anno2
  = ContribData.consider (ContribData.consider contrib_data anno2) anno1.
Proof.
  assert (∀ cd cd', ContribData.flattened cd = ContribData.flattened cd' →
            ContribData.case_number_dict cd = ContribData.case_number_dict cd' →
            cd = cd') as Hext by (intros [] []; simpl; congruence).
  apply Hext.
  - rewrite !contrib_consider_flattened. set_solver.
  - apply map_eq. intros k. rewrite !lookup_case_number_consider.
    destruct (ContribData.case_number_dict contrib_data !! k);
      repeat case_decide; f_equal; lia.
Qed.
End contrib_order.

Section article_order.
Context `{Codec char} `{DictOrder}.
Implicit Types (article : ArticleData.t char) (anno : Anno.t).

(** Two annotations the article accepts one after the other are accepted in
    the other order too, and leave the same article. *)
Lemma article_consider_swap article anno1 anno2 article1 article2 :
  ArticleData.consider article anno1 = (article1, Ok ()) →
  ArticleData.consider article1 anno2 = (article2, Ok ()) →
  ∃ article1',
    ArticleData.consider article anno2 = (article1', Ok ())
    ∧ ArticleData.consider article1' anno1 = (article2, Ok ()).
Proof.
  intros (Hd1 & Hc1 & Hi1 & ->)%article_consider_Ok
         (Hd2 & Hc2 & Hi2 & ->)%article_consider_Ok.
  rewrite not_char_clash in Hc1, Hc2. simpl in *.
  assert (Anno.article_sha256 anno1 = Anno.article_sha256 anno2
          ∧ Anno.article_filename anno1 = Anno.article_filename anno2) as [Hsha Hfn].
  { destruct (decide (Anno.article_sha256 anno1 = Anno.article_sha256 anno2));
      [|destruct Hi2; eexists; split; [done|by left]].
    split; [done|].
    destruct (decide (Anno.article_filename anno1 = Anno.article_filename anno2));
      [done|].
    destruct Hi2. eexists. split; [done|]. right. simpl. congruence. }
  assert (∀ k c c', text_map anno1 !! k = Some c →
                    text_map anno2 !! k = Some c' → c = c') as H12.
  { intros k c c' H1 H2. apply (Hc2 k); [|done]. by rewrite lookup_update, H1. }
  eexists. split; [|apply article_consider_Ok]; [apply article_consider_Ok|].
  - split_and!; [done| | |done].
    + apply not_char_clash. intros k c c' Hk H2. apply (Hc2 k); [|done].
      rewrite lookup_update.
      destruct (text_map anno1 !! k) as [c1|] eqn:H1; [|done].
      f_equal. symmetry. by apply (Hc1 k).
    + intros (sha & Hs & Hne). apply Hi1. exists sha. split; [done|].
      rewrite Hsha, Hfn. done.
  - simpl. split_and!; [done|..].
    + apply not_char_clash. simpl. intros k c c' Hk H1. rewrite lookup_update in Hk.
      destruct (text_map anno2 !! k) as [c2|] eqn:H2.
      * injection Hk as <-. symmetry. by apply (H12 k).
      * by apply (Hc1 k).
    + intros (sha & [= <-] & Hne). simpl in Hne. rewrite Hsha, Hfn in Hne.
      naive_solver.
    + rewrite Hsha, Hfn. f_equal. apply map_eq. intros k. rewrite !lookup_update.
      destruct (text_map anno1 !! k) as [c1|] eqn:H1,
               (text_map anno2 !! k) as [c2|] eqn:H2; try done.
      f_equal. symmetry. by apply (H12 k).
Qed.
End article_order.

Section topic_order.
Implicit Types (topic_data : TopicData.t) (anno : Anno.t).

Local Abbreviation contrib_update contrib_dict anno :=
  (<[Anno.contributor_uuid anno :=
       ContribData.consider
         (default ContribData.init (contrib_dict !! Anno.contributor_uuid anno))
         anno]> contrib_dict).

Lemma contrib_update_comm (contrib_dict : gmap string ContribData.t) anno1 anno2 :
  contrib_update (contrib_update contrib_dict anno1) anno2
  = contrib_update (contrib_update contrib_dict anno2) anno1.
Proof.
  destruct (decide (Anno.contributor_uuid anno1 = Anno.contributor_uuid anno2))
    as [Heq|Hne].
  - rewrite Heq, !lookup_insert_eq, !insert_insert_eq. simpl.
    by rewrite contrib_consider_comm.
  - rewrite !lookup_insert_ne by done. by rewrite insert_insert_ne.
Qed.

Lemma topic_consider_Ok topic_data anno topic_data' :
  TopicData.consider topic_data anno = (topic_data', Ok ()) ↔
  (TopicData.topic_name topic_data = ""
   ∨ TopicData.topic_name topic_data = Anno.topic_name anno
     ∧ TopicData.namespace topic_data = Anno.namespace anno)
  ∧ topic_data' = TopicData.mk (Anno.topic_name anno) (Anno.namespace anno)
                    (contrib_update (TopicData.contrib_dict topic_data) anno).
Proof.
  unfold TopicData.consider. case_bool_decide as Hname.
  - split; [intros [= <-]; auto|]. by intros [_ ->].
  - unfold py_assert. repeat case_bool_decide; simpl; split;
      try (by intros [= <-]; split; [right|congruence]); try done;
      try (intros [[?|[? ?]] ->]; congruence).
Qed.

(** Two annotations of one topic, with one namespace, that the topic accepts
    one after the other are accepted in the other order too, and leave the
    same topic. *)
Lemma topic_consider_swap topic_data anno1 anno2 topic_data1 topic_data2 :
  Anno.topic_name anno1 = Anno.topic_name anno2 →
  Anno.namespace anno1 = Anno.namespace anno2 →
  TopicData.consider topic_data anno1 = (topic_data1, Ok ()) →
  TopicData.consider topic_data1 anno2 = (topic_data2, Ok ()) →
  ∃ topic_data1',
    TopicData.consider topic_data anno2 = (topic_data1', Ok ())
    ∧ TopicData.consider topic_data1' anno1 = (topic_data2, Ok ()).
Proof.
  intros Hname Hns [Hid1 ->]%topic_consider_Ok [Hid2 ->]%topic_consider_Ok.
  simpl in *. eexists. split; apply topic_consider_Ok.
  - split; [|done]. rewrite <-Hname, <-Hns. done.
  - simpl. split; [by right|]. by rewrite Hname, Hns, contrib_update_comm.
Qed.
End topic_order.

Section processor_order.
Context `{Codec char} `{DictOrder}.
Implicit Types (self : ConsensusProcessor.t char) (anno : Anno.t).
Implicit Types (batch : list Anno.t).

Lemma consider_anno_Ok minimum_redundancy self anno self' :
  ¬ Anno.taskrun_count anno < minimum_redundancy →
  ConsensusProcessor.consider_anno minimum_redundancy self anno = (self', Ok ()) ↔
  ∃ article' topic_data',
    ArticleData.consider (ConsensusProcessor.article_data self) anno
      = (article', Ok ())
    ∧ TopicData.consider
        (default TopicData.init
           (ConsensusProcessor.topics self !! Anno.topic_name anno)) anno
      = (topic_data', Ok ())
    ∧ self' = ConsensusProcessor.mk (ConsensusProcessor.task_uuid self)
                (ConsensusProcessor.iaa_config self) article'
                (<[Anno.topic_name anno := topic_data']>
                   (ConsensusProcessor.topics self))
                (inserted_after (ConsensusProcessor.topics self)
                   (ConsensusProcessor.topics_inserted self)
                   (Anno.topic_name anno)).
Proof.
  intros Hacc. unfold ConsensusProcessor.consider_anno.
  rewrite bool_decide_eq_false_2 by done.
  destruct (ArticleData.consider _ _) as [article' [[]|e]]; simpl.
  - destruct (TopicData.consider _ _) as [topic_data' [[]|e]]; simpl.
    + split; [intros [= <-]; eauto|]. by intros (? & ? & [= <-] & [= <-] & ->).
    + split; [done|]. by intros (? & ? & _ & ? & _).
  - split; [done|]. by intros (? & ? & ? & _).
Qed.

Lemma same_up_to_order_refl self : same_up_to_order self self.
Proof. by split_and!. Qed.

Lemma same_up_to_order_trans self1 self2 self3 :
  same_up_to_order self1 self2 → same_up_to_order self2 self3 →
  same_up_to_order self1 self3.
Proof.
  intros (? & ? & ? & ? & Hp) (? & ? & ? & ? & Hp').
  split_and!; try congruence. by rewrite Hp.
Qed.

(** One round of the loop does the same on processors that differ only in
    the order in which their topics were inserted. *)
Lemma consider_anno_same_up_to_order minimum_redundancy self self' anno :
  same_up_to_order self self' →
  (ConsensusProcessor.consider_anno minimum_redundancy self anno).2
  = (ConsensusProcessor.consider_anno minimum_redundancy self' anno).2
  ∧ same_up_to_order
      (ConsensusProcessor.consider_anno minimum_redundancy self anno).1
      (ConsensusProcessor.consider_anno minimum_redundancy self' anno).1.
Proof.
  intros (Huuid & Hcfg & Harticle & Htopics & Hperm).
  unfold ConsensusProcessor.consider_anno.
  case_bool_decide; simpl; [by split; [|split_and!]|].
  rewrite <-Huuid, <-Hcfg, <-Harticle, <-Htopics.
  destruct (ArticleData.consider _ _) as [article' [[]|e]]; simpl.
  - destruct (TopicData.consider _ _) as [topic_data' r]. simpl.
    split; [done|]. split_and!; try done. simpl. unfold inserted_after.
    destruct (ConsensusProcessor.topics self !! _); by rewrite Hperm.
  - split; [done|]. by split_and!.
Qed.

Lemma for_state_same_up_to_order minimum_redundancy self self' batch :
  same_up_to_order self self' →
  (for_state (ConsensusProcessor.consider_anno minimum_redundancy) self batch).2
  = (for_state (ConsensusProcessor.consider_anno minimum_redundancy) self' batch).2
  ∧ same_up_to_order
      (for_state (ConsensusProcessor.consider_anno minimum_redundancy) self batch).1
      (for_state (ConsensusProcessor.consider_anno minimum_redundancy) self' batch).1.
Proof.
  revert self self'. induction batch as [|anno batch IH]; intros self self' Hsame;
    simpl; [done|].
  destruct (consider_anno_same_up_to_order minimum_redundancy _ _ anno Hsame)
    as [Hout Hnext].
  destruct (ConsensusProcessor.consider_anno _ self anno) as [self1 r],
           (ConsensusProcessor.consider_anno _ self' anno) as [self1' r'].
  simpl in *. subst r'. destruct r as [[]|e]; [by apply IH|done].
Qed.

(** Two annotations the processor takes one after the other are taken in
    the other order too, and leave the same processor up to the order in
    which their topics were inserted, as long as they carry the same
    namespace when they belong to the same topic. *)
Lemma consider_anno_swap minimum_redundancy self anno1 anno2 self1 self2 :
  (Anno.topic_name anno1 = Anno.topic_name anno2 →
   Anno.namespace anno1 = Anno.namespace anno2) →
  ConsensusProcessor.consider_anno minimum_redundancy self anno1 = (self1, Ok ()) →
  ConsensusProcessor.consider_anno minimum_redundancy self1 anno2 = (self2, Ok ()) →
  ∃ self1' self2',
    ConsensusProcessor.consider_anno minimum_redundancy self anno2 = (self1', Ok ())
    ∧ ConsensusProcessor.consider_anno minimum_redundancy self1' anno1
      = (self2', Ok ())
    ∧ same_up_to_order self2 self2'.
Proof.
  intros Hns H1 H2.
  destruct (decide (Anno.taskrun_count anno1 < minimum_redundancy)) as [Hlow1|Hacc1].
  { rewrite consider_anno_dropped in H1 by done. injection H1 as <-.
    exists self2, self2. split_and!; [done| |apply same_up_to_order_refl].
    by apply consider_anno_dropped. }
  destruct (decide (Anno.taskrun_count anno2 < minimum_redundancy)) as [Hlow2|Hacc2].
  { rewrite consider_anno_dropped in H2 by done. injection H2 as <-.
    exists self, self1. split_and!; [|done|apply same_up_to_order_refl].
    by apply consider_anno_dropped. }
  apply consider_anno_Ok in H1 as (article1 & topic1 & Ha1 & Ht1 & ->); [|done].
  apply consider_anno_Ok in H2 as (article2 & topic2 & Ha2 & Ht2 & ->); [|done].
  simpl in *.
  destruct (article_consider_swap _ _ _ _ _ Ha1 Ha2) as (article1' & Ha1' & Ha2').
  destruct (decide (Anno.topic_name anno1 = Anno.topic_name anno2)) as [Heq|Hne].
  - rewrite <-Heq, lookup_insert_eq in Ht2. simpl in Ht2.
    destruct (topic_consider_swap _ _ _ _ _ Heq (Hns Heq) Ht1 Ht2)
      as (topic1' & Ht1' & Ht2').
    do 2 eexists. split_and!.
    + apply consider_anno_Ok; [done|]. exists article1', topic1'.
      rewrite <-Heq. done.
    + apply consider_anno_Ok; [done|]. exists article2, topic2. simpl.
      rewrite <-?Heq, lookup_insert_eq. simpl. done.
    + split_and!; simpl; try done.
      * by rewrite <-?Heq, !insert_insert_eq.
      * rewrite <-?Heq. unfold inserted_after. by rewrite !lookup_insert_eq.
  - rewrite lookup_insert_ne in Ht2 by done.
    do 2 eexists. split_and!.
    + apply consider_anno_Ok; [done|]. by exists article1', topic2.
    + apply consider_anno_Ok; [done|]. exists article2, topic1. simpl.
      rewrite lookup_insert_ne by done. done.
    + split_and!; simpl; try done.
      * by rewrite insert_insert_ne.
      * unfold inserted_after. rewrite !lookup_insert_ne by done.
        destruct (ConsensusProcessor.topics self !! Anno.topic_name anno1),
                 (ConsensusProcessor.topics self !! Anno.topic_name anno2);
          try done.
        rewrite <-!app_assoc. apply Permutation_app_head. simpl. apply perm_swap.
Qed.

(** A batch the processor takes without an exception is taken in any order,
    with the same result up to the order in which the topics were inserted,
    as long as annotations of one topic carry the same namespace. *)
Lemma for_state_Permutation minimum_redundancy self self0 batch batch' self' :
  batch ≡ₚ batch' →
  (∀ anno1 anno2, anno1 ∈ batch → anno2 ∈ batch →
     Anno.topic_name anno1 = Anno.topic_name anno2 →
     Anno.namespace anno1 = Anno.namespace anno2) →
  same_up_to_order self self0 →
  for_state (ConsensusProcessor.consider_anno minimum_redundancy) self batch
    = (self', Ok ()) →
  ∃ self0',
    for_state (ConsensusProcessor.consider_anno minimum_redundancy) self0 batch'
      = (self0', Ok ())
    ∧ same_up_to_order self' self0'.
Proof.
  intros Hperm. revert self self0 self'.
  induction Hperm as [|anno l l' Hperm IH|anno2 anno1 l|l l' l'' Hperm1 IH1 Hperm2 IH2];
    intros self self0 self' Hns Hsame Hok.
  - injection Hok as <-. by exists self0.
  - simpl in *.
    destruct (consider_anno_same_up_to_order minimum_redundancy _ _ anno Hsame)
      as [Hout Hnext].
    destruct (ConsensusProcessor.consider_anno _ self anno) as [self1 [[]|e]];
      [|done].
    destruct (ConsensusProcessor.consider_anno _ self0 anno) as [self1' r'].
    simpl in *. subst r'.
    eapply IH; [|done..]. intros a1 a2 ? ?. apply Hns; by right.
  - simpl in Hok.
    destruct (ConsensusProcessor.consider_anno _ self anno1)
      as [self1 [[]|e]] eqn:H1; [|done].
    destruct (ConsensusProcessor.consider_anno _ self1 anno2)
      as [self2 [[]|e]] eqn:H2; [|done].
    destruct (consider_anno_swap _ _ _ _ _ _
                (Hns anno1 anno2 ltac:(set_solver) ltac:(set_solver)) H1 H2)
      as (self1' & self2' & H1' & H2' & Hswap).
    destruct (consider_anno_same_up_to_order minimum_redundancy _ _ anno2 Hsame)
      as [Hout1 Hnext1].
    rewrite H1' in Hout1, Hnext1. simpl.
    destruct (ConsensusProcessor.consider_anno _ self0 anno2) as [t1 r1].
    simpl in *. subst r1.
    destruct (consider_anno_same_up_to_order minimum_redundancy _ _ anno1 Hnext1)
      as [Hout2 Hnext2].
    rewrite H2' in Hout2, Hnext2.
    destruct (ConsensusProcessor.consider_anno _ t1 anno1) as [t2 r2].
    simpl in *. subst r2.
    destruct (for_state_same_up_to_order minimum_redundancy self2 t2 l)
      as [Hout Hrest]; [by eapply same_up_to_order_trans|].
    rewrite Hok in Hout, Hrest.
    destruct (for_state _ t2 l) as [self0' r]. simpl in *. subst r.
    by exists self0'.
  - destruct (IH1 self self0 self' Hns Hsame Hok) as (self1 & Hok1 & Hsame1).
    destruct (IH2 self0 self0 self1) as (self2 & Hok2 & Hsame2);
      [|apply same_up_to_order_refl|done|].
    { intros a1 a2 Ha1 Ha2. apply Hns; by rewrite Hperm1. }
    exists self2. split; [done|]. by eapply same_up_to_order_trans.
Qed.

(** Annotations that agree with one another and with those the processor
    has [seen] are all taken.  The three premises on [self] say that what it
    holds comes from the annotations seen. *)
Lemma for_state_agreeing minimum_redundancy self (seen : list Anno.t) batch :
  Forall (λ anno, ¬ Anno.taskrun_count anno < minimum_redundancy) batch →
  (∀ k c,
     ArticleData.char_dict (ConsensusProcessor.article_data self) !! k = Some c →
     ∃ anno, anno ∈ seen ∧ text_map anno !! k = Some c) →
  (∀ sha,
     ArticleData.article_sha256 (ConsensusProcessor.article_data self) = Some sha →
     ∃ anno, anno ∈ seen ∧ sha = Anno.article_sha256 anno
       ∧ ArticleData.article_filename (ConsensusProcessor.article_data self)
         = Some (Anno.article_filename anno)) →
  (∀ name topic_data,
     ConsensusProcessor.topics self !! name = Some topic_data →
     TopicData.topic_name topic_data ≠ "" →
     ∃ anno, anno ∈ seen ∧ Anno.topic_name anno = name
       ∧ TopicData.topic_name topic_data = name
       ∧ TopicData.namespace topic_data = Anno.namespace anno) →
  (∀ anno1 anno2, anno1 ∈ seen ++ batch → anno2 ∈ seen ++ batch →
     agree anno1 anno2) →
  ∃ self',
    for_state (ConsensusProcessor.consider_anno minimum_redundancy) self batch
    = (self', Ok ()).
Proof.
  intros Hacc. revert self seen.
  induction Hacc as [|anno batch Hanno _ IH]; intros self seen Hchars Hid Htopics Hagree;
    [by eexists|].
  simpl.
  set (topic_data := default TopicData.init
                       (ConsensusProcessor.topics self !! Anno.topic_name anno)).
  assert (∀ anno', anno' ∈ seen → agree anno' anno) as Hseen.
  { intros anno' Hin. apply Hagree; set_solver. }
  assert (ConsensusProcessor.consider_anno minimum_redundancy self anno
          = (ConsensusProcessor.mk (ConsensusProcessor.task_uuid self)
               (ConsensusProcessor.iaa_config self)
               (ArticleData.mk (Some (Anno.article_sha256 anno))
                  (Some (Anno.article_filename anno))
                  (update (ArticleData.char_dict (ConsensusProcessor.article_data self))
                     (text_map anno)))
               (<[Anno.topic_name anno :=
                    TopicData.mk (Anno.topic_name anno) (Anno.namespace anno)
                      (<[Anno.contributor_uuid anno :=
                           ContribData.consider
                             (default ContribData.init
                                (TopicData.contrib_dict topic_data
                                   !! Anno.contributor_uuid anno)) anno]>
                         (TopicData.contrib_dict topic_data))]>
                  (ConsensusProcessor.topics self))
               (inserted_after (ConsensusProcessor.topics self)
                  (ConsensusProcessor.topics_inserted self)
                  (Anno.topic_name anno)), Ok ())) as ->.
  { apply consider_anno_Ok; [done|]. do 2 eexists. split_and!; [| |done].
    - apply article_consider_Ok. split_and!; [| | |done].
      + destruct (Hagree anno anno) as (? & _); set_solver.
      + apply not_char_clash. intros k c c' Hk Hk'.
        destruct (Hchars _ _ Hk) as (anno' & Hin & Hk'').
        destruct (Hseen _ Hin) as (_ & _ & Hc & _). by apply (Hc k).
      + intros (sha & Hsha & Hne).
        destruct (Hid _ Hsha) as (anno' & Hin & -> & Hfn).
        destruct (Hseen _ Hin) as (_ & _ & _ & Hs & Hf & _).
        rewrite Hfn, Hs, Hf in Hne. naive_solver.
    - apply topic_consider_Ok. split; [|done]. fold topic_data.
      destruct (decide (TopicData.topic_name topic_data = "")) as [|Hname]; [by left|].
      right. unfold topic_data in *.
      destruct (ConsensusProcessor.topics self !! Anno.topic_name anno)
        as [td|] eqn:Htd; [|done]. simpl in *.
      destruct (Htopics _ _ Htd Hname) as (anno' & Hin & Hn & Hn' & Hns).
      destruct (Hseen _ Hin) as (_ & _ & _ & Hsame). split; [done|].
      rewrite Hns. by apply Hsame. }
  apply (IH _ (seen ++ [anno])); simpl.
  - intros k c. rewrite lookup_update.
    destruct (text_map anno !! k) as [c'|] eqn:Hk.
    + intros [= <-]. exists anno. split; [set_solver|done].
    + intros (anno' & ? & ?)%Hchars. exists anno'. split; [set_solver|done].
  - intros sha [= <-]. exists anno. split; [set_solver|done].
  - intros name td. destruct (decide (Anno.topic_name anno = name)) as [<-|Hne].
    + rewrite lookup_insert_eq. intros [= <-] _. simpl.
      exists anno. split; [set_solver|done].
    + rewrite lookup_insert_ne by done. intros Htd Hname.
      destruct (Htopics _ _ Htd Hname) as (anno' & ? & ?).
      exists anno'. split; [set_solver|done].
  - intros anno1 anno2. rewrite <-!app_assoc. apply Hagree.
Qed.

Lemma agree_sym anno1 anno2 : agree anno1 anno2 → agree anno2 anno1.
Proof.
  intros (Hd1 & Hd2 & Hc & Hs & Hf & Hn).
  split_and!; [done|done| |done..|by intros ?; symmetry; apply Hn].
  intros k c c' H2 H1. symmetry. by apply (Hc k).
Qed.

(** Conversely, annotations with a topic name that the processor takes one
    after the other agree with one another and with those [seen], whose
    characters, article and namespaces the processor holds. *)
Lemma for_state_Ok_agree minimum_redundancy self self' (seen : list Anno.t) batch :
  Forall (λ anno, ¬ Anno.taskrun_count anno < minimum_redundancy
                  ∧ Anno.topic_name anno ≠ "") batch →
  (∀ anno k c, anno ∈ seen → text_map anno !! k = Some c →
     ArticleData.char_dict (ConsensusProcessor.article_data self) !! k = Some c) →
  (∀ anno, anno ∈ seen →
     ArticleData.article_sha256 (ConsensusProcessor.article_data self)
       = Some (Anno.article_sha256 anno)
     ∧ ArticleData.article_filename (ConsensusProcessor.article_data self)
       = Some (Anno.article_filename anno)) →
  (∀ anno, anno ∈ seen →
     ∃ topic_data,
       ConsensusProcessor.topics self !! Anno.topic_name anno = Some topic_data
       ∧ TopicData.topic_name topic_data = Anno.topic_name anno
       ∧ TopicData.namespace topic_data = Anno.namespace anno) →
  (∀ anno1 anno2, anno1 ∈ seen → anno2 ∈ seen → agree anno1 anno2) →
  for_state (ConsensusProcessor.consider_anno minimum_redundancy) self batch
    = (self', Ok ()) →
  ∀ anno1 anno2, anno1 ∈ seen ++ batch → anno2 ∈ seen ++ batch → agree anno1 anno2.
Proof.
  intros Hbatch. revert self seen.
  induction Hbatch as [|anno batch [Hacc Hname] _ IH];
    intros self seen Hchars Hid Htopics Hseen Hok.
  { rewrite app_nil_r. apply Hseen. }
  simpl in Hok.
  destruct (ConsensusProcessor.consider_anno _ self anno) as [self1 [[]|e]] eqn:Hanno;
    [|done].
  apply consider_anno_Ok in Hanno as (article & td & Harticle & Htd & ->); [|done].
  apply article_consider_Ok in Harticle as (Hdec & Hc & Hi & ->).
  apply topic_consider_Ok in Htd as (Htopic & ->).
  rewrite not_char_clash in Hc.
  assert (∀ anno', anno' ∈ seen → agree anno' anno) as Hnew.
  { intros anno' Hin. destruct (Hid _ Hin) as [Hsha Hfn]. split_and!.
    - by destruct (Hseen anno' anno' Hin Hin) as (? & _).
    - done.
    - intros k c c' Hk Hk'. apply (Hc k); [|done]. by eapply Hchars.
    - destruct (decide (Anno.article_sha256 anno' = Anno.article_sha256 anno));
        [done|]. destruct Hi. eexists. split; [done|]. by left.
    - destruct (decide (Anno.article_filename anno' = Anno.article_filename anno));
        [done|]. destruct Hi. eexists. split; [done|]. right. rewrite Hfn. congruence.
    - intros Hsame. destruct (Htopics _ Hin) as (td' & Hlook & Htn & Hns).
      rewrite Hsame in Hlook. rewrite Hlook in Htopic. simpl in Htopic.
      destruct Htopic as [Hempty|[_ Hns']]; [|congruence].
      rewrite Htn, Hsame in Hempty. done. }
  assert (agree anno anno) as Hself.
  { split_and!; [done|done| |done..]. intros k c c' Hk Hk'. congruence. }
  rewrite (cons_middle anno seen batch), app_assoc.
  eapply IH; [| | | |done]; simpl.
  - intros anno' k c [Hin| ->%list_elem_of_singleton]%elem_of_app Hk;
      rewrite lookup_update.
    + destruct (text_map anno !! k) as [c'|] eqn:Hk'.
      * f_equal. symmetry. destruct (Hnew _ Hin) as (_ & _ & Hag & _).
        by apply (Hag k).
      * by eapply Hchars.
    + by rewrite Hk.
  - intros anno' [Hin| ->%list_elem_of_singleton]%elem_of_app; [|done].
    destruct (Hnew _ Hin) as (_ & _ & _ & -> & -> & _). done.
  - intros anno' [Hin| ->%list_elem_of_singleton]%elem_of_app.
    + destruct (decide (Anno.topic_name anno = Anno.topic_name anno')) as [Heq|Hne].
      * rewrite <-Heq, lookup_insert_eq. eexists. split; [done|]. simpl.
        split; [done|]. destruct (Hnew _ Hin) as (_ & _ & _ & _ & _ & Hns).
        symmetry. by apply Hns.
      * rewrite lookup_insert_ne by done. by apply Htopics.
    + rewrite lookup_insert_eq. eexists. split; [done|]. done.
  - intros anno1 anno2 [H1| ->%list_elem_of_singleton]%elem_of_app
                       [H2| ->%list_elem_of_singleton]%elem_of_app;
      auto using agree_sym.
Qed.

(** On annotations that carry a topic name, consistency is what the
    processor checks: a batch it takes without an exception is consistent. *)
Lemma accepted_batch_consistent
    (task_uuid : string) (iaa_config : gmap string Z) batch :
  let minimum_redundancy :=
    default MIN_REDUNDANCY (iaa_config !! "minimum_redundancy") in
  (∀ anno, anno ∈ batch → Anno.topic_name anno ≠ "") →
  (ConsensusProcessor.consider
     (ConsensusProcessor.init (char := char) task_uuid iaa_config) batch).2 = Ok () →
  consistent minimum_redundancy batch.
Proof.
  intros minimum_redundancy Hnames. unfold ConsensusProcessor.consider. simpl.
  fold minimum_redundancy. rewrite for_state_filter.
  destruct (for_state _ _ _) as [self' r] eqn:Hok. simpl. intros ->.
  intros anno1 anno2 H1 H2 Hacc1 Hacc2.
  eapply (for_state_Ok_agree _ _ _ []); [| | | | |done| |].
  - apply Forall_forall. intros anno [? ?]%list_elem_of_filter. auto.
  - by intros ? ? ? ?%elem_of_nil.
  - by intros ? ?%elem_of_nil.
  - by intros ? ?%elem_of_nil.
  - by intros ? ? ?%elem_of_nil.
  - by apply list_elem_of_filter.
  - by apply list_elem_of_filter.
Qed.

End processor_order.

(** * The scenarios of the specification, run on the model *)

Section scenarios.
(** Scenario 1: positions 2 and 3 are marked by two contributors, and the
    only row is [2,4) with case number 1 and the text at offsets 2-3. *)
Example scenario_overlap :
  ConsensusProcessor.get_consensus (example_run ∅ example_batch)
  = Ok [Row.mk 2 4 (Some "cd") (Some "T1") (Some "ns") (Some 1)
          (Some (Some "sha-1")) (Some (Some "article.txt")) (Some "task") None].
Proof. vm_compute. reflexivity. Qed.

(** Scenario 2: with [pass_threshold] 3 no position passes. *)
Example scenario_threshold :
  ConsensusProcessor.get_consensus (example_run {["pass_threshold" := 3]} example_batch)
  = Ok [].
Proof. vm_compute. reflexivity. Qed.

(** Scenario 3: an annotation with [taskrun_count] 2 is dropped. *)
Example scenario_redundancy :
  example_run ∅ [example_anno 0 4 "abcd" "A" "T1" 2] = ConsensusProcessor.init "task" ∅.
Proof. vm_compute. reflexivity. Qed.

(** Scenario 4: three contributors and no highlight. *)
Example scenario_answer :
  ConsensusProcessor.get_consensus (example_run ∅ example_answers) = Ok []
  ∧ ConsensusProcessor.get_answer_consensus (example_run ∅ example_answers)
    = Ok [Row.mk 0 0 (Some "") (Some "T2") (Some "ns") (Some 1)
            (Some (Some "sha-1")) (Some (Some "article.txt")) (Some "task")
            (Some 3)].
Proof. vm_compute. split; reflexivity. Qed.

(** Scenario 5: two contributors disagree on the character at position 5. *)
Example scenario_conflict :
  (ConsensusProcessor.consider (ConsensusProcessor.init "task" ∅)
     [example_anno 4 6 "ef" "A" "T1" 3; example_anno 5 7 "xg" "B" "T1" 3]).2
  = Raise AssertionError.
Proof. vm_compute. reflexivity. Qed.
(** A text shorter than its range: both contributors mark [0,4) with the
    text [ab], the range passes, and positions 2 and 3 have no character. *)
Example scenario_short_text :
  ConsensusProcessor.get_consensus
    (example_run ∅ [example_anno 0 4 "ab" "A" "T1" 3;
                    example_anno 0 4 "ab" "B" "T1" 3])
  = Raise KeyError.
Proof. vm_compute. reflexivity. Qed.
End scenarios.

(** * The theorems at concrete inputs *)

Section witnesses.
Local Abbreviation positions := [5; 1; 2; 9; 3; 10] (only parsing).

(** An instance of C1, at the example topic: A submits [0,4) and [2,6) or, at
    once, [0,6). *)
Lemma sum_contribs_counts_contributors_witness :
  TopicData.sum_contribs
    (TopicData.consider
       (TopicData.consider example_topic (example_anno 0 4 "abcd" "A" "T1" 3)).1
       (example_anno 2 6 "cdef" "A" "T1" 3)).1
  = TopicData.sum_contribs
      (TopicData.consider example_topic (example_anno 0 6 "abcdef" "A" "T1" 3)).1.
Proof.
  apply (sum_contribs_counts_contributors example_topic
           (example_anno 0 4 "abcd" "A" "T1" 3)
           (example_anno 2 6 "cdef" "A" "T1" 3)
           (example_anno 0 6 "abcdef" "A" "T1" 3));
    [reflexivity|reflexivity|simpl; lia|reflexivity|reflexivity].
Defined.

(** An instance of C2, at the positions 5, 1, 2, 9, 3, 10. *)
Lemma convert_to_ranges_maximal_runs_witness :
  Forall (λ r, r = Row.offset (Row.start_pos r) (Row.end_pos r)
               ∧ Row.start_pos r < Row.end_pos r)
         (TopicData.convert_to_ranges positions).
Proof.
  apply (convert_to_ranges_maximal_runs positions).
  apply (bool_decide_unpack _). vm_compute. exact I.
Defined.

(** An instance of C3, at the rows of the example topic. *)
Lemma topic_rows_invariant_witness :
  TopicData.convert_to_ranges
    (positions_of
       [Row.mk 2 4 (Some "cd") (Some "T1") (Some "ns") (Some 1)
          (Some (Some "sha-1")) (Some (Some "article.txt")) (Some "task") None])
  = [Row.offset 2 4].
Proof.
  apply (topic_rows_invariant (example_processor ∅) example_topic).
  vm_compute. reflexivity.
Defined.

(** An instance of C5, at the example topic: position 2 passes at threshold 2,
    hence at 1. *)
Lemma pass_threshold_monotone_witness : passing example_topic 1 2.
Proof.
  refine (proj1 (pass_threshold_monotone example_topic 1 2 _) 2 _); [lia|].
  exists 2. split; [vm_compute; reflexivity|lia].
Defined.

Lemma agree_intro (anno1 anno2 : Anno.t) :
  decodes (char := N) anno1 → decodes (char := N) anno2 →
  ArticleData.overlaps_agree (char := N)
    (text_map anno1) (text_map anno2) = true →
  Anno.article_sha256 anno1 = Anno.article_sha256 anno2 →
  Anno.article_filename anno1 = Anno.article_filename anno2 →
  Anno.namespace anno1 = Anno.namespace anno2 →
  agree anno1 anno2.
Proof.
  intros ? ? Hc ? ? ?. split_and!; [done|done| |done..].
  by apply (proj1 (overlaps_agree_true _ _)).
Qed.

Lemma example_batch_consistent : consistent 3 example_batch.
Proof.
  intros anno1 anno2 H1 H2 _ _. unfold example_batch in *.
  repeat (apply elem_of_cons in H1 as [->|H1]);
    [..|by apply elem_of_nil in H1];
    (repeat (apply elem_of_cons in H2 as [->|H2]);
     [..|by apply elem_of_nil in H2]);
    apply agree_intro;
    try (apply (bool_decide_unpack _); vm_compute; exact I);
    vm_compute; reflexivity.
Qed.

(** An instance of C9: an article recorded under [sha-0] is offered an
    annotation of [sha-1]; the call raises and position 0 now holds [a]. *)
Lemma article_consider_identity_failure_mutates_witness :
  (ArticleData.consider
     (ArticleData.mk (Some "sha-0") (Some "article.txt") (∅ : gmap Z N))
     (example_anno 0 4 "abcd" "A" "T1" 3)).2 = Raise AssertionError
  ∧ ArticleData.char_dict
      (ArticleData.consider
         (ArticleData.mk (Some "sha-0") (Some "article.txt") (∅ : gmap Z N))
         (example_anno 0 4 "abcd" "A" "T1" 3)).1 !! 0
    = Some (97%N).
Proof.
  destruct (article_consider_identity_failure_mutates
              (ArticleData.mk (Some "sha-0") (Some "article.txt")
                 (∅ : gmap Z N))
              (example_anno 0 4 "abcd" "A" "T1" 3))
    as (Hraise & _ & _ & Hchars & _).
  - apply not_char_clash. intros k c c' Hk. simpl in Hk.
    by rewrite lookup_empty in Hk.
  - exists "sha-0". split; [reflexivity|]. left. discriminate.
  - split.
    + apply Hraise. apply (bool_decide_unpack _). vm_compute. exact I.
    + apply (Hchars 0%nat); [simpl; lia|reflexivity].
Defined.

(** An instance of C10: a fresh article is offered the range [0,4) with the
    text [ab]; the call returns as on the range [0,2), and positions 2 and 3
    stay unknown. *)
Lemma article_consider_short_text_witness :
  ArticleData.consider (ArticleData.init (char := N))
    (example_anno 0 4 "ab" "A" "T1" 3)
  = ArticleData.consider ArticleData.init (example_anno 0 2 "ab" "A" "T1" 3)
  ∧ ∀ k, 2 ≤ k < 4 →
      ArticleData.char_dict
        (ArticleData.consider (ArticleData.init (char := N))
           (example_anno 0 4 "ab" "A" "T1" 3)).1 !! k = None.
Proof.
  destruct (article_consider_short_text (ArticleData.init (char := N))
              (example_anno 0 4 "ab" "A" "T1" 3)) as (Hcut & _ & Hrest).
  - simpl. lia.
  - split; [exact Hcut|]. intros k Hk.
    destruct Hrest as (_ & Hkeep & _); [vm_compute; reflexivity|].
    rewrite Hkeep; [apply lookup_empty|]. simpl. lia.
Defined.
End witnesses.

(** * The state the methods build, and the extraction from it *)

(** ** ContribData.consider *)

Section contrib_data.
Implicit Types (contrib_data : ContribData.t) (anno : Anno.t) (annos : list Anno.t).

Lemma contrib_after_snoc annos anno :
  contrib_after (annos ++ [anno]) = ContribData.consider (contrib_after annos) anno.
Proof. unfold contrib_after. by rewrite foldl_snoc. Qed.

Lemma dom_case_number_consider contrib_data anno :
  dom (ContribData.case_number_dict (ContribData.consider contrib_data anno))
  = dom (ContribData.case_number_dict contrib_data)
    ∪ list_to_set (range (Anno.start_pos anno) (Anno.end_pos anno)).
Proof.
  apply set_eq. intros k.
  rewrite elem_of_union, elem_of_list_to_set, elem_of_range, !elem_of_dom.
  rewrite lookup_case_number_consider. case_decide; [|tauto].
  split; [auto|]. intros _. eauto.
Qed.

Lemma contrib_after_spec annos k :
  (k ∈ ContribData.flattened (contrib_after annos)
   ↔ ∃ anno, anno ∈ annos ∧ marks anno k)
  ∧ dom (ContribData.case_number_dict (contrib_after annos))
    = ContribData.flattened (contrib_after annos)
  ∧ ∀ m, ContribData.case_number_dict (contrib_after annos) !! k = Some m
         ↔ (∃ anno, anno ∈ annos ∧ marks anno k ∧ Anno.case_number anno = m)
           ∧ (∀ anno, anno ∈ annos → marks anno k → m ≤ Anno.case_number anno).
Proof.
  unfold marks. induction annos as [|anno annos (IHf & IHd & IHc)] using rev_ind.
  - split_and!; [|done|].
    + split; [by intros ?%elem_of_empty|by intros (? & ?%elem_of_nil & _)].
    + intros m. split; [done|]. by intros [(? & ?%elem_of_nil & _) _].
  - rewrite contrib_after_snoc, contrib_consider_flattened, dom_case_number_consider.
    split_and!.
    + rewrite elem_of_union, IHf, elem_of_list_to_set, elem_of_range.
      setoid_rewrite elem_of_app. setoid_rewrite list_elem_of_singleton.
      naive_solver.
    + by rewrite IHd.
    + intros m. rewrite lookup_case_number_consider.
      setoid_rewrite elem_of_app. setoid_rewrite list_elem_of_singleton.
      case_decide as Hk.
      * destruct (ContribData.case_number_dict (contrib_after annos) !! k)
          as [v|] eqn:Hv.
        -- destruct (proj1 (IHc v) eq_refl) as [(a0 & Ha0 & Hk0 & Hv0) Hmin].
           split.
           ++ intros [= <-]. split.
              ** destruct (decide (v ≤ Anno.case_number anno)).
                 --- exists a0. split; [auto|split; [done|lia]].
                 --- exists anno. split; [auto|split; [done|lia]].
              ** intros a [Ha| ->] Hak; [specialize (Hmin a Ha Hak)|]; lia.
           ++ intros [(a & [Ha| ->] & Hak & Ham) Hlow]; f_equal.
              ** pose proof (Hmin a Ha Hak). pose proof (Hlow a0 (or_introl Ha0) Hk0).
                 pose proof (Hlow anno (or_intror eq_refl) Hk). lia.
              ** pose proof (Hlow a0 (or_introl Ha0) Hk0). lia.
        -- assert (∀ a, a ∈ annos → ¬ (Anno.start_pos a ≤ k < Anno.end_pos a))
             as Hnone.
           { intros a Ha Hak. apply not_elem_of_dom in Hv. apply Hv.
             rewrite IHd. apply IHf. eauto. }
           split.
           ++ intros [= <-]. split; [exists anno; auto|].
              intros a [Ha| ->] Hak; [by destruct (Hnone a Ha)|lia].
           ++ intros [(a & [Ha| ->] & Hak & Ham) _]; [by destruct (Hnone a Ha)|].
              by f_equal.
      * rewrite IHc. split.
        -- intros [(a & Ha & Hak & Ham) Hlow]. split; [exists a; auto|].
           intros a' [Ha'| ->] Hak'; [auto|done].
        -- intros [(a & [Ha| ->] & Hak & Ham) Hlow]; [|done].
           split; [exists a; auto|]. intros a' Ha' Hak'. apply Hlow; auto.
Qed.

(** X1: what a contributor's data holds after their annotations.  The
    flattened set is the union of the ranges; [case_number_dict] has exactly
    the flattened positions as keys; and the case number kept at a position
    is the least one proposed by an annotation whose range contains it. *)
Theorem contrib_keeps_lowest_case_number annos k :
  (k ∈ ContribData.flattened (contrib_after annos)
   ↔ ∃ anno, anno ∈ annos ∧ marks anno k)
  ∧ dom (ContribData.case_number_dict (contrib_after annos))
    = ContribData.flattened (contrib_after annos)
  ∧ ∀ m, ContribData.case_number_dict (contrib_after annos) !! k = Some m
         ↔ (∃ anno, anno ∈ annos ∧ marks anno k ∧ Anno.case_number anno = m)
           ∧ (∀ anno, anno ∈ annos → marks anno k → m ≤ Anno.case_number anno).
Proof. apply contrib_after_spec. Qed.

Lemma contrib_data_ext contrib_data contrib_data' :
  ContribData.flattened contrib_data = ContribData.flattened contrib_data' →
  ContribData.case_number_dict contrib_data
    = ContribData.case_number_dict contrib_data' →
  contrib_data = contrib_data'.
Proof. destruct contrib_data, contrib_data'. simpl. congruence. Qed.

Lemma contrib_consider_idem contrib_data anno :
  ContribData.consider (ContribData.consider contrib_data anno) anno
  = ContribData.consider contrib_data anno.
Proof.
  apply contrib_data_ext.
  - rewrite !contrib_consider_flattened. set_solver.
  - apply map_eq. intros k. rewrite !lookup_case_number_consider.
    case_decide; [|done].
    destruct (ContribData.case_number_dict contrib_data !! k); f_equal; lia.
Qed.

Lemma range_empty a b : b ≤ a → range a b = [].
Proof.
  intros Hle. unfold range. apply length_zero_iff_nil.
  rewrite length_seqZ. lia.
Qed.

Lemma contrib_consider_empty_range contrib_data anno :
  Anno.end_pos anno ≤ Anno.start_pos anno →
  ContribData.consider contrib_data anno = contrib_data.
Proof.
  intros Hle. apply contrib_data_ext.
  - rewrite contrib_consider_flattened, range_empty by done. set_solver.
  - apply map_eq. intros k. rewrite lookup_case_number_consider.
    case_decide; [lia|done].
Qed.

(** X2: submitting an annotation again changes nothing, and the order of two
    annotations does not matter, for the flattened set and for the case
    numbers kept. *)
Theorem contrib_consider_idempotent_commutative contrib_data anno1 anno2 :
  ContribData.consider (ContribData.consider contrib_data anno1) anno1
    = ContribData.consider contrib_data anno1
  ∧ ContribData.consider (ContribData.consider contrib_data anno1) anno2
    = ContribData.consider (ContribData.consider contrib_data anno2) anno1.
Proof. split; [apply contrib_consider_idem|apply contrib_consider_comm]. Qed.
End contrib_data.

(** ** TopicData.consider *)

Section topic_data.
Implicit Types (topic_data : TopicData.t) (anno : Anno.t).

Lemma topic_consider_contrib_dict topic_data anno :
  TopicData.contrib_dict (TopicData.consider topic_data anno).1
  = <[Anno.contributor_uuid anno :=
        ContribData.consider
          (default ContribData.init
             (TopicData.contrib_dict topic_data !! Anno.contributor_uuid anno))
          anno]> (TopicData.contrib_dict topic_data).
Proof. unfold TopicData.consider. by case_bool_decide. Qed.

Lemma topic_consider_named topic_data anno :
  TopicData.topic_name topic_data ≠ "" →
  TopicData.topic_name (TopicData.consider topic_data anno).1
    = TopicData.topic_name topic_data
  ∧ TopicData.namespace (TopicData.consider topic_data anno).1
    = TopicData.namespace topic_data.
Proof.
  intros Hname. unfold TopicData.consider.
  by rewrite bool_decide_eq_false_2 by done.
Qed.

Lemma topic_consider_unnamed topic_data anno :
  TopicData.topic_name topic_data = "" →
  TopicData.topic_name (TopicData.consider topic_data anno).1
    = Anno.topic_name anno
  ∧ TopicData.namespace (TopicData.consider topic_data anno).1
    = Anno.namespace anno.
Proof.
  intros Hname. unfold TopicData.consider.
  by rewrite bool_decide_eq_true_2 by done.
Qed.

(** X3: [TopicData.consider] raises exactly when a topic name is recorded
    and the annotation's topic name or namespace differs from what is
    recorded.  The contributor's entry is created or updated before the
    asserts, so it has changed also when the call raises.  While the
    recorded topic name is empty, the name and namespace are taken from the
    annotation without a check; once a name is recorded, name and namespace
    never change. *)
Theorem topic_consider_raises_exactly topic_data anno :
  ((TopicData.consider topic_data anno).2 = Raise AssertionError
   ↔ TopicData.topic_name topic_data ≠ ""
     ∧ (TopicData.topic_name topic_data ≠ Anno.topic_name anno
        ∨ TopicData.namespace topic_data ≠ Anno.namespace anno))
  ∧ ((TopicData.consider topic_data anno).2 = Ok ()
     ↔ TopicData.topic_name topic_data = ""
       ∨ TopicData.topic_name topic_data = Anno.topic_name anno
         ∧ TopicData.namespace topic_data = Anno.namespace anno)
  ∧ TopicData.contrib_dict (TopicData.consider topic_data anno).1
    = <[Anno.contributor_uuid anno :=
          ContribData.consider
            (default ContribData.init
               (TopicData.contrib_dict topic_data !! Anno.contributor_uuid anno))
            anno]> (TopicData.contrib_dict topic_data)
  ∧ (TopicData.topic_name topic_data = "" →
     TopicData.topic_name (TopicData.consider topic_data anno).1
       = Anno.topic_name anno
     ∧ TopicData.namespace (TopicData.consider topic_data anno).1
       = Anno.namespace anno)
  ∧ (TopicData.topic_name topic_data ≠ "" →
     TopicData.topic_name (TopicData.consider topic_data anno).1
       = TopicData.topic_name topic_data
     ∧ TopicData.namespace (TopicData.consider topic_data anno).1
       = TopicData.namespace topic_data).
Proof.
  unfold TopicData.consider, py_assert.
  destruct (decide (TopicData.topic_name topic_data = "")) as [Hempty|Hname].
  - rewrite bool_decide_eq_true_2 by done. simpl. split_and!; try done.
    + split; [done|]. by intros [? _].
    + split; auto.
  - rewrite bool_decide_eq_false_2 by done. simpl.
    split_and!; try done; repeat case_bool_decide; simpl; split;
      try done; try naive_solver.
Qed.
End topic_data.

(** ** ArticleData.consider *)

Section article_frame.
Context `{Codec char} `{DictOrder}.
Implicit Types (self : ArticleData.t char) (anno : Anno.t).

Lemma article_consider_cases self anno :
  (∃ e, ArticleData.consider self anno = (self, Raise e))
  ∨ ArticleData.char_dict (ArticleData.consider self anno).1
    = update (ArticleData.char_dict self) (text_map anno)
    ∧ ¬ char_clash self anno
    ∧ (ArticleData.article_sha256 self = None
       ∨ ArticleData.article_sha256 (ArticleData.consider self anno).1
         = ArticleData.article_sha256 self
         ∧ ArticleData.article_filename (ArticleData.consider self anno).1
           = ArticleData.article_filename self).
Proof.
  destruct (article_consider_outcome self anno)
    as [[Hdec ->]|[(Hdec & Hc & ->)|[(Hdec & Hc & Hi & ->)|(Hdec & Hc & Hi & ->)]]];
    [left; by eexists..| |]; right; simpl; split_and!; [done|done|auto|done..|].
  destruct (ArticleData.article_sha256 self) as [sha|] eqn:Hsha; [|by left].
  right.
  destruct (decide (sha = Anno.article_sha256 anno)) as [->|];
    [|destruct Hi; eexists; eauto].
  split; [done|].
  destruct (decide (ArticleData.article_filename self
                    = Some (Anno.article_filename anno))) as [->|];
    [done|destruct Hi; eexists; eauto].
Qed.

Lemma article_consider_subseteq self anno :
  ArticleData.char_dict self
    ⊆ ArticleData.char_dict (ArticleData.consider self anno).1.
Proof.
  destruct (article_consider_cases self anno) as [[e ->]|(Hdict & Hc & Hid)]; [done|].
  rewrite Hdict. rewrite not_char_clash in Hc.
  apply map_subseteq_spec. intros k c Hk. rewrite lookup_update.
  destruct (text_map anno !! k) as [c'|] eqn:Hk'; [|done].
  f_equal. symmetry. by apply (Hc k).
Qed.

Lemma article_consider_outside self anno k :
  ¬ (Anno.start_pos anno ≤ k < Anno.end_pos anno
     ∧ k < Anno.start_pos anno
           + Z.of_nat (length (decoded anno))) →
  ArticleData.char_dict (ArticleData.consider self anno).1 !! k
  = ArticleData.char_dict self !! k.
Proof.
  intros Hout.
  destruct (article_consider_cases self anno) as [[e ->]|(Hdict & Hc & Hid)]; [done|].
  rewrite Hdict, lookup_update.
  destruct (text_map anno !! k) as [c'|] eqn:Hk'; [|done].
  apply lookup_anno_map in Hk' as (i & -> & ? & Hi%lookup_lt_Some).
  destruct Hout. lia.
Qed.

Lemma article_consider_identity_kept self anno sha :
  ArticleData.article_sha256 self = Some sha →
  ArticleData.article_sha256 (ArticleData.consider self anno).1 = Some sha
  ∧ ArticleData.article_filename (ArticleData.consider self anno).1
    = ArticleData.article_filename self.
Proof.
  intros Hsha.
  destruct (article_consider_cases self anno) as [[e ->]|(Hdict & Hc & Hid)]; [done|].
  destruct Hid as [Hnone|[-> ->]]; [congruence|done].
Qed.

(** X4: [ArticleData.consider] never removes or changes a recorded
    character, whether it returns or raises; it writes only at positions of
    the range that the decoded text reaches; and an identity, once
    recorded, is never replaced. *)
Theorem article_consider_only_adds self anno :
  ArticleData.char_dict self
    ⊆ ArticleData.char_dict (ArticleData.consider self anno).1
  ∧ (∀ k, ¬ (Anno.start_pos anno ≤ k < Anno.end_pos anno
             ∧ k < Anno.start_pos anno
                   + Z.of_nat (length (decoded anno))) →
       ArticleData.char_dict (ArticleData.consider self anno).1 !! k
       = ArticleData.char_dict self !! k)
  ∧ (∀ sha, ArticleData.article_sha256 self = Some sha →
       ArticleData.article_sha256 (ArticleData.consider self anno).1 = Some sha
       ∧ ArticleData.article_filename (ArticleData.consider self anno).1
         = ArticleData.article_filename self).
Proof.
  split_and!.
  - apply article_consider_subseteq.
  - apply article_consider_outside.
  - apply article_consider_identity_kept.
Qed.
End article_frame.

(** ** set_text and ArticleData.get *)

Section set_text.
Context `{Codec char} `{DictOrder}.
Implicit Types (self : ConsensusProcessor.t char) (offsets : list Row.t).

Lemma Forall2_equiv {A B} (P Q : A → B → Prop) l k :
  (∀ x y, P x y ↔ Q x y) → Forall2 P l k ↔ Forall2 Q l k.
Proof.
  intros HPQ. split; intros Hall; (eapply Forall2_impl; [done|]);
    intros x y; by apply HPQ.
Qed.

Lemma for_each_get_Ok (article : ArticleData.t char) s e chars :
  for_each (ArticleData.get article) (range s e) = Ok chars
  ↔ recorded_text article s e chars.
Proof.
  rewrite for_each_Ok. unfold recorded_text.
  apply Forall2_equiv. intros p c. unfold ArticleData.get.
  destruct (ArticleData.char_dict article !! p); split; congruence.
Qed.

Lemma set_text_Ok_iff self offsets offsets' :
  ConsensusProcessor.set_text self offsets = Ok offsets'
  ↔ Forall2 (λ offset offset',
       ∃ chars,
         recorded_text (ConsensusProcessor.article_data self)
           (Row.start_pos offset) (Row.end_pos offset) chars
         ∧ offset' = Row.set_target_text (unicode_escape_encode chars) offset)
      offsets offsets'.
Proof.
  unfold ConsensusProcessor.set_text. rewrite for_each_Ok.
  apply Forall2_equiv. intros o o'. cbv zeta.
  destruct (for_each _ (range _ _)) as [chars|e] eqn:Hchars; simpl.
  - apply for_each_get_Ok in Hchars. split.
    + intros [= <-]. eauto.
    + intros (chars' & Hrec & ->). do 2 f_equal.
      apply for_each_get_Ok in Hchars, Hrec. congruence.
  - split; [done|]. intros (chars' & Hrec%for_each_get_Ok & _). congruence.
Qed.

(** X5: [set_text] returns exactly when every position of every offset has
    a recorded character, and then each offset gets as [target_text] the
    encoding of the recorded characters of its range, in order; nothing
    else of the offset changes.  Otherwise it raises the lookup error of
    [ArticleData.get], and never anything else. *)
Theorem set_text_reads_recorded_chars self offsets :
  (∀ offsets',
     ConsensusProcessor.set_text self offsets = Ok offsets'
     ↔ Forall2 (λ offset offset',
          ∃ chars,
            recorded_text (ConsensusProcessor.article_data self)
              (Row.start_pos offset) (Row.end_pos offset) chars
            ∧ offset' = Row.set_target_text (unicode_escape_encode chars) offset)
         offsets offsets')
  ∧ (ConsensusProcessor.set_text self offsets = Raise KeyError
     ↔ ∃ offset p, offset ∈ offsets ∧ Row.covers offset p
         ∧ ArticleData.char_dict (ConsensusProcessor.article_data self) !! p
           = None)
  ∧ ConsensusProcessor.set_text self offsets ≠ Raise AssertionError.
Proof.
  split_and!.
  - apply set_text_Ok_iff.
  - split.
    + by intros [_ ?]%set_text_Raise.
    + intros (o & p & ? & ? & ?). by eapply set_text_KeyError.
  - by intros [? _]%set_text_Raise.
Qed.
End set_text.

(** ** ConsensusProcessor.consider: what it keeps *)

Section processor_frame.
Context `{Codec char} `{DictOrder}.
Implicit Types (self : ConsensusProcessor.t char) (anno : Anno.t)
  (batch : list Anno.t).

Lemma for_state_app {S A} (body : S → A → S * outcome ()) (s : S) (l1 l2 : list A) :
  for_state body s (l1 ++ l2)
  = match for_state body s l1 with
    | (s1, Ok _) => for_state body s1 l2
    | (s1, Raise e) => (s1, Raise e)
    end.
Proof.
  revert s. induction l1 as [|x l1 IH]; intros s; simpl; [done|].
  destruct (body s x) as [s' [[]|e]]; [apply IH|done].
Qed.

Lemma for_state_rel {S A} (R : S → S → Prop) (body : S → A → S * outcome ())
    (s : S) (l : list A) :
  (∀ s, R s s) → (∀ s1 s2 s3, R s1 s2 → R s2 s3 → R s1 s3) →
  (∀ s x, R s (body s x).1) →
  R s (for_state body s l).1.
Proof.
  intros Hrefl Htrans Hbody. revert s.
  induction l as [|x l IH]; intros s; simpl; [done|].
  pose proof (Hbody s x) as Hx.
  destruct (body s x) as [s' [[]|e]]; simpl in *; [|done].
  by eapply Htrans.
Qed.

(** What one round of the loop leaves, in terms of the two [consider]
    methods it calls. *)
Lemma consider_anno_counted minimum_redundancy self anno :
  counted minimum_redundancy anno →
  let article := ArticleData.consider (ConsensusProcessor.article_data self) anno in
  let topic_data :=
    TopicData.consider
      (default TopicData.init
         (ConsensusProcessor.topics self !! Anno.topic_name anno)) anno in
  ConsensusProcessor.consider_anno minimum_redundancy self anno
  = match article.2 with
    | Raise e =>
        (ConsensusProcessor.mk (ConsensusProcessor.task_uuid self)
           (ConsensusProcessor.iaa_config self) article.1
           (ConsensusProcessor.topics self)
           (ConsensusProcessor.topics_inserted self), Raise e)
    | Ok _ =>
        (ConsensusProcessor.mk (ConsensusProcessor.task_uuid self)
           (ConsensusProcessor.iaa_config self) article.1
           (<[Anno.topic_name anno := topic_data.1]>
              (ConsensusProcessor.topics self))
           (inserted_after (ConsensusProcessor.topics self)
              (ConsensusProcessor.topics_inserted self)
              (Anno.topic_name anno)), topic_data.2)
    end.
Proof.
  intros Hc. unfold ConsensusProcessor.consider_anno. cbv zeta.
  rewrite bool_decide_eq_false_2 by done.
  destruct (ArticleData.consider _ _) as [article' [[]|e]]; simpl; [|done].
  by destruct (TopicData.consider _ _) as [topic_data' r].
Qed.

Lemma grows_refl self : grows self self.
Proof.
  unfold grows. split_and!; try done.
  intros T td HT. exists td. split_and!; try done.
  intros u cd Hu. by exists cd.
Qed.

Lemma grows_trans self1 self2 self3 :
  grows self1 self2 → grows self2 self3 → grows self1 self3.
Proof.
  intros (Hu1 & Hc1 & Hd1 & Hi1 & Hp1 & Ht1) (Hu2 & Hc2 & Hd2 & Hi2 & Hp2 & Ht2).
  unfold grows. split_and!; try congruence.
  - by etrans.
  - intros sha Hsha. destruct (Hi1 sha Hsha) as [Hsha1 Hf1].
    destruct (Hi2 sha Hsha1) as [Hsha2 Hf2]. split; congruence.
  - by etrans.
  - intros T td HT.
    destruct (Ht1 T td HT) as (td2 & HT2 & Hn2 & Hcd2).
    destruct (Ht2 T td2 HT2) as (td3 & HT3 & Hn3 & Hcd3).
    exists td3. split_and!; [done| |].
    + intros Hname. destruct (Hn2 Hname) as [Hn Hns].
      destruct Hn3 as [Hn' Hns']; [congruence|]. split; congruence.
    + intros u cd Hcd.
      destruct (Hcd2 u cd Hcd) as (cd2 & Hu2' & Hsub2).
      destruct (Hcd3 u cd2 Hu2') as (cd3 & Hu3' & Hsub3).
      exists cd3. split; [done|]. by etrans.
Qed.

Lemma consider_anno_grows minimum_redundancy self anno :
  grows self (ConsensusProcessor.consider_anno minimum_redundancy self anno).1.
Proof.
  destruct (decide (Anno.taskrun_count anno < minimum_redundancy)) as [Hlow|Hacc].
  { rewrite consider_anno_dropped by done. apply grows_refl. }
  rewrite consider_anno_counted by done. cbv zeta.
  pose proof (article_consider_subseteq
                (ConsensusProcessor.article_data self) anno) as Hsub.
  pose proof (article_consider_identity_kept
                (ConsensusProcessor.article_data self) anno) as Hid.
  destruct (ArticleData.consider _ _) as [article' [[]|e]]; simpl in *.
  - unfold grows. simpl. split_and!; try done.
    { unfold inserted_after. destruct (ConsensusProcessor.topics self !! _);
        [done|by apply prefix_app_r]. }
    intros T td HT.
    destruct (decide (T = Anno.topic_name anno)) as [->|Hne].
    + rewrite HT. simpl. rewrite lookup_insert_eq. eexists. split_and!; [done|..].
      * apply topic_consider_named.
      * intros u cd Hu. rewrite topic_consider_contrib_dict.
        destruct (decide (u = Anno.contributor_uuid anno)) as [->|Hne].
        -- rewrite lookup_insert_eq, Hu. simpl. eexists. split; [done|].
           rewrite contrib_consider_flattened. set_solver.
        -- rewrite lookup_insert_ne by done. exists cd. by split.
    + rewrite lookup_insert_ne by done. exists td. split_and!; try done.
      intros u cd Hu. by exists cd.
  - unfold grows. simpl. split_and!; try done.
    intros T td HT. exists td. split_and!; try done.
    intros u cd Hu. by exists cd.
Qed.

Lemma consider_grows self batch :
  grows self (ConsensusProcessor.consider self batch).1.
Proof.
  unfold ConsensusProcessor.consider.
  apply for_state_rel;
    [apply grows_refl|apply grows_trans|intros; apply consider_anno_grows].
Qed.

(** X6: feeding a batch in two calls is feeding it in one.  When the first
    part raises, the whole batch stops there with the same state and
    exception; otherwise the second part continues from the state the first
    part left. *)
Theorem consider_in_two_calls self batch1 batch2 :
  ConsensusProcessor.consider self (batch1 ++ batch2)
  = match ConsensusProcessor.consider self batch1 with
    | (self1, Ok _) => ConsensusProcessor.consider self1 batch2
    | (self1, Raise e) => (self1, Raise e)
    end.
Proof.
  pose proof (consider_grows self batch1) as (_ & Hcfg & _).
  unfold ConsensusProcessor.consider in *. rewrite for_state_app.
  destruct (for_state _ self batch1) as [self1 [[]|e]]; simpl in *; [|done].
  by rewrite Hcfg.
Qed.

(** X7: whatever the batch and whether it raises, [consider] keeps the task
    and the configuration, every recorded character, the recorded article
    identity, every topic together with its name and namespace once it is
    named, every contributor of every topic, and every position a
    contributor has marked. *)
Theorem consider_never_forgets self batch :
  grows self (ConsensusProcessor.consider self batch).1.
Proof. apply consider_grows. Qed.
End processor_frame.

(** ** ConsensusProcessor.consider: what it builds *)

Section processor_state.
Context `{Codec char} `{DictOrder}.
Implicit Types (self : ConsensusProcessor.t char) (anno : Anno.t)
  (batch : list Anno.t) (topic_data : TopicData.t).

Lemma size_contributors_at_mono topic_data topic_data' p :
  (∀ u contrib_data,
     TopicData.contrib_dict topic_data !! u = Some contrib_data →
     ∃ contrib_data',
       TopicData.contrib_dict topic_data' !! u = Some contrib_data'
       ∧ ContribData.flattened contrib_data ⊆ ContribData.flattened contrib_data') →
  (size (contributors_at topic_data p) ≤ size (contributors_at topic_data' p))%nat.
Proof.
  intros Hgrow. rewrite <-!size_dom. apply subseteq_size.
  intros u. rewrite !elem_of_dom. unfold contributors_at.
  intros [cd [Hu Hp]%map_lookup_filter_Some]. simpl in Hp.
  destruct (Hgrow u cd Hu) as (cd' & Hu' & Hsub).
  exists cd'. apply map_lookup_filter_Some. split; [done|]. simpl. set_solver.
Qed.

Lemma passing_size topic_data pass_threshold p :
  passing topic_data pass_threshold p
  ↔ size (contributors_at topic_data p) ≠ 0%nat
    ∧ pass_threshold ≤ Z.of_nat (size (contributors_at topic_data p)).
Proof.
  unfold passing. rewrite sum_contribs_lookup. case_decide.
  - split; [by intros (? & ? & _)|by intros [? _]].
  - split; [intros (? & [= <-] & ?); by split|intros [_ ?]; eauto].
Qed.

(** X8: more annotations never take consensus away.  After any batch,
    whether it raises or not, a topic the processor had is still there, it
    has at least as many contributors, and every position its consensus
    ranges covered at a threshold is still covered at that threshold. *)
Theorem consider_keeps_consensus self batch T topic_data :
  ConsensusProcessor.topics self !! T = Some topic_data →
  ∃ topic_data',
    ConsensusProcessor.topics (ConsensusProcessor.consider self batch).1 !! T
      = Some topic_data'
    ∧ TopicData.get_contrib_count topic_data
        ≤ TopicData.get_contrib_count topic_data'
    ∧ ∀ pass_threshold p,
        covered (TopicData.get_consensus topic_data
                   (ConsensusProcessor.determine_passing pass_threshold)) p →
        covered (TopicData.get_consensus topic_data'
                   (ConsensusProcessor.determine_passing pass_threshold)) p.
Proof.
  intros HT. destruct (consider_grows self batch) as (_ & _ & _ & _ & _ & Htopics).
  destruct (Htopics T topic_data HT) as (td' & HT' & _ & Hgrow).
  exists td'. split_and!; [done| |].
  - unfold TopicData.get_contrib_count. apply inj_le.
    rewrite <-!size_dom. apply subseteq_size.
    intros u. rewrite !elem_of_dom. intros [cd Hu].
    destruct (Hgrow u cd Hu) as (cd' & Hu' & _). by exists cd'.
  - intros t p. rewrite !get_consensus_passing, !passing_size.
    pose proof (size_contributors_at_mono topic_data td' p Hgrow). lia.
Qed.

Lemma article_consider_unrecorded (article : ArticleData.t char) anno :
  ArticleData.article_sha256 (ArticleData.consider article anno).1 = None →
  (ArticleData.consider article anno).1 = article.
Proof.
  unfold ArticleData.consider.
  destruct (unicode_escape_decode _); [|done].
  destruct (ArticleData.overlaps_agree _ _); [|done].
  by destruct (ArticleData.article_sha256 article) eqn:Hsha.
Qed.

Lemma article_consider_identity_iff (article : ArticleData.t char) anno :
  (ArticleData.article_sha256 article = None
   ↔ ArticleData.article_filename article = None) →
  ArticleData.article_sha256 (ArticleData.consider article anno).1 = None
  ↔ ArticleData.article_filename (ArticleData.consider article anno).1 = None.
Proof.
  unfold ArticleData.consider.
  destruct (unicode_escape_decode _); [|done].
  destruct (ArticleData.overlaps_agree _ _); [|done].
  by destruct (ArticleData.article_sha256 article) eqn:Hsha.
Qed.

Lemma consider_anno_well_formed minimum_redundancy self anno :
  well_formed self →
  well_formed (ConsensusProcessor.consider_anno minimum_redundancy self anno).1.
Proof.
  intros (Htopics & Hid & Hfresh & Hnd & Hins).
  destruct (decide (Anno.taskrun_count anno < minimum_redundancy)) as [Hlow|Hacc].
  { by rewrite consider_anno_dropped. }
  rewrite consider_anno_counted by done. cbv zeta.
  pose proof (article_consider_unrecorded
                (ConsensusProcessor.article_data self) anno) as Hun.
  pose proof (article_consider_identity_iff
                (ConsensusProcessor.article_data self) anno Hid) as Hid'.
  destruct (ArticleData.consider _ _) as [article' [[]|e]] eqn:Hart; simpl in *.
  - apply article_consider_Ok in Hart as (_ & _ & _ & ->).
    split_and!; [|done..| |]; simpl.
    2:{ unfold inserted_after.
        destruct (ConsensusProcessor.topics self !! Anno.topic_name anno)
          as [td|] eqn:Htd; [done|].
        apply NoDup_app. split_and!; [done| |apply NoDup_singleton].
        intros T HT ->%list_elem_of_singleton.
        apply Hins in HT as [? ?]. congruence. }
    2:{ intros T. unfold inserted_after. rewrite lookup_insert_is_Some.
        destruct (ConsensusProcessor.topics self !! Anno.topic_name anno)
          as [td|] eqn:Htd.
        - rewrite Hins. split.
          + intros ?. destruct (decide (Anno.topic_name anno = T)); auto.
          + intros [Heq|[_ ?]]; [|done]. rewrite <-Heq. by eexists.
        - rewrite elem_of_app, list_elem_of_singleton, Hins. split.
          + intros [?|Heq]; [|by left].
            destruct (decide (Anno.topic_name anno = T)); auto.
          + intros [Heq|[? ?]]; auto. }
    intros T td. destruct (decide (T = Anno.topic_name anno)) as [->|Hne].
    + rewrite lookup_insert_eq. intros [= <-].
      set (td0 := default TopicData.init
                    (ConsensusProcessor.topics self !! Anno.topic_name anno)).
      assert ((TopicData.topic_name td0 = ""
               ∨ TopicData.topic_name td0 = Anno.topic_name anno)
              ∧ ∀ u cd, TopicData.contrib_dict td0 !! u = Some cd →
                  dom (ContribData.case_number_dict cd) = ContribData.flattened cd)
        as [Hname Hdom].
      { subst td0.
        destruct (ConsensusProcessor.topics self !! Anno.topic_name anno)
          as [td|] eqn:Htd; simpl.
        - destruct (Htopics _ _ Htd) as (? & _ & ?). auto.
        - split; [by left|]. intros u cd. by rewrite lookup_empty. }
      split_and!.
      * destruct (decide (TopicData.topic_name td0 = "")) as [He|Hn].
        -- by apply topic_consider_unnamed.
        -- destruct (topic_consider_named td0 anno Hn) as [-> _].
           by destruct Hname.
      * rewrite topic_consider_contrib_dict. apply insert_non_empty.
      * intros u cd. rewrite topic_consider_contrib_dict.
        destruct (decide (u = Anno.contributor_uuid anno)) as [->|Hu].
        -- rewrite lookup_insert_eq. intros [= <-].
           rewrite dom_case_number_consider, contrib_consider_flattened.
           f_equal.
           destruct (TopicData.contrib_dict td0 !! Anno.contributor_uuid anno)
             as [cd0|] eqn:Hcd0; simpl; [by eapply Hdom|done].
        -- rewrite lookup_insert_ne by done. apply Hdom.
    + rewrite lookup_insert_ne by done. apply Htopics.
  - split_and!; [done|done| |done|done]. simpl. intros Hnone.
    pose proof (Hun Hnone) as ->. auto.
Qed.

Lemma consider_well_formed self batch :
  well_formed self → well_formed (ConsensusProcessor.consider self batch).1.
Proof.
  unfold ConsensusProcessor.consider.
  generalize (default MIN_REDUNDANCY
                (ConsensusProcessor.iaa_config self !! "minimum_redundancy")).
  intros mr. revert self. induction batch as [|anno batch IH]; intros self Hwf;
    simpl; [done|].
  pose proof (consider_anno_well_formed mr self anno Hwf) as Hwf'.
  destruct (ConsensusProcessor.consider_anno mr self anno) as [self' [[]|e]];
    simpl in *; [by apply IH|done].
Qed.

Lemma fed_snoc task_uuid iaa_config batches batch :
  fed task_uuid iaa_config (batches ++ [batch])
  = (ConsensusProcessor.consider (fed task_uuid iaa_config batches) batch).1.
Proof. unfold fed. by rewrite foldl_snoc. Qed.

Lemma fed_is_well_formed task_uuid iaa_config batches :
  well_formed (fed (char := char) task_uuid iaa_config batches).
Proof.
  induction batches as [|batch batches IH] using rev_ind.
  - unfold fed, well_formed. simpl. split_and!; try done; [constructor|].
    intros T. rewrite lookup_empty, elem_of_nil. split; [done|by intros [? ?]].
  - rewrite fed_snoc. by apply consider_well_formed.
Qed.

(** X9: what holds of a processor however it was fed, and whatever the
    calls of [consider] raised: every topic is stored under its own name and
    has at least one contributor, a contributor's case numbers are defined
    exactly on their flattened positions, the article's sha256 and filename
    are recorded together, and before an identity is recorded no character
    and no topic is; the topics inserted are the topics held, each once. *)
Theorem fed_well_formed task_uuid iaa_config batches :
  well_formed (fed (char := char) task_uuid iaa_config batches).
Proof. apply fed_is_well_formed. Qed.
End processor_state.

(** ** From the batch to the state *)

Section batch_state.
Context `{Codec char} `{DictOrder}.
Implicit Types (self : ConsensusProcessor.t char) (anno : Anno.t)
  (batch : list Anno.t) (topic_data : TopicData.t).

Lemma contrib_of_consider_anno minimum_redundancy self anno self' T u :
  counted minimum_redundancy anno →
  ConsensusProcessor.consider_anno minimum_redundancy self anno = (self', Ok ()) →
  contrib_of self' T u
  = if decide (Anno.topic_name anno = T ∧ Anno.contributor_uuid anno = u)
    then Some (ContribData.consider
                 (default ContribData.init (contrib_of self T u)) anno)
    else contrib_of self T u.
Proof.
  intros Hc (article' & td' & _ & Htd & ->)%consider_anno_Ok; [|done].
  pose proof (topic_consider_contrib_dict
    (default TopicData.init
       (ConsensusProcessor.topics self !! Anno.topic_name anno)) anno) as Hdict.
  rewrite Htd in Hdict. simpl in Hdict.
  unfold contrib_of. simpl.
  destruct (decide (Anno.topic_name anno = T)) as [<-|HT].
  - rewrite lookup_insert_eq. simpl. rewrite Hdict.
    destruct (decide (Anno.contributor_uuid anno = u)) as [<-|Hu].
    + rewrite decide_True by done. rewrite lookup_insert_eq.
      by destruct (ConsensusProcessor.topics self !! Anno.topic_name anno).
    + rewrite decide_False by tauto. rewrite lookup_insert_ne by done.
      by destruct (ConsensusProcessor.topics self !! Anno.topic_name anno).
  - rewrite decide_False by tauto. by rewrite lookup_insert_ne.
Qed.

Lemma char_dict_consider_anno minimum_redundancy self anno self' k c :
  counted minimum_redundancy anno →
  ConsensusProcessor.consider_anno minimum_redundancy self anno = (self', Ok ()) →
  ArticleData.char_dict (ConsensusProcessor.article_data self') !! k = Some c
  ↔ ArticleData.char_dict (ConsensusProcessor.article_data self) !! k = Some c
    ∨ text_map anno !! k = Some c.
Proof.
  intros Hc (article' & td' & Hart & _ & ->)%consider_anno_Ok; [|done].
  apply article_consider_Ok in Hart as (_ & Hclash & _ & ->). simpl.
  rewrite not_char_clash in Hclash. rewrite lookup_update.
  destruct (text_map anno !! k) as [c'|] eqn:Hk.
  - split; [auto|]. intros [Hold|?]; [|done]. f_equal. symmetry. by eapply Hclash.
  - split; [auto|]. by intros [?|?].
Qed.

Lemma for_state_builds minimum_redundancy self batch self' :
  for_state (ConsensusProcessor.consider_anno minimum_redundancy) self batch
    = (self', Ok ()) →
  (∀ T u,
     contrib_of self' T u
     = if decide (annos_of minimum_redundancy batch T u = [])
       then contrib_of self T u
       else Some (foldl ContribData.consider
                    (default ContribData.init (contrib_of self T u))
                    (annos_of minimum_redundancy batch T u)))
  ∧ (∀ k c,
       ArticleData.char_dict (ConsensusProcessor.article_data self') !! k = Some c
       ↔ ArticleData.char_dict (ConsensusProcessor.article_data self) !! k = Some c
         ∨ ∃ anno, anno ∈ batch ∧ counted minimum_redundancy anno
             ∧ text_map anno !! k = Some c).
Proof.
  revert self. induction batch as [|anno batch IH]; intros self; simpl.
  - intros [= <-]. split; [done|]. intros k c. split; [auto|].
    by intros [?|(? & ?%elem_of_nil & _)].
  - destruct (decide (counted minimum_redundancy anno)) as [Hc|Hlow].
    + destruct (ConsensusProcessor.consider_anno _ self anno)
        as [self1 [[]|e]] eqn:Hanno; [|done].
      intros [IHc IHd]%IH. split.
      * intros T u. rewrite IHc.
        rewrite (contrib_of_consider_anno _ _ _ _ T u Hc Hanno).
        unfold annos_of.
        destruct (decide (Anno.topic_name anno = T
                          ∧ Anno.contributor_uuid anno = u)) as [Hmine|Hother].
        -- rewrite filter_cons_True by tauto.
           rewrite (decide_False (P := _ :: _ = [])) by done.
           simpl. by case_decide as Hnil; [rewrite Hnil|].
        -- rewrite filter_cons_False by tauto. done.
      * intros k c. rewrite IHd, (char_dict_consider_anno _ _ _ _ k c Hc Hanno).
        setoid_rewrite elem_of_cons. naive_solver.
    + unfold counted in Hlow. apply dec_stable in Hlow.
      rewrite consider_anno_dropped by done.
      intros [IHc IHd]%IH. split.
      * intros T u. rewrite IHc. unfold annos_of.
        rewrite filter_cons_False; [done|]. unfold counted. tauto.
      * intros k c. rewrite IHd. setoid_rewrite elem_of_cons.
        unfold counted. naive_solver.
Qed.

(** X10: the state a batch leaves when [consider] returns.  For each topic
    and contributor, the data held is the one obtained by feeding that
    contributor's annotations of the topic that pass the redundancy filter,
    in batch order, to [ContribData.consider], starting from what was held before
    (or from a fresh [ContribData]); and a character is recorded exactly
    when it was recorded before or the text of such an annotation puts it
    there. *)
Theorem consider_builds_state self batch self' :
  ConsensusProcessor.consider self batch = (self', Ok ()) →
  let minimum_redundancy := redundancy_of (ConsensusProcessor.iaa_config self) in
  (∀ T u,
     contrib_of self' T u
     = if decide (annos_of minimum_redundancy batch T u = [])
       then contrib_of self T u
       else Some (foldl ContribData.consider
                    (default ContribData.init (contrib_of self T u))
                    (annos_of minimum_redundancy batch T u)))
  ∧ (∀ k c,
       ArticleData.char_dict (ConsensusProcessor.article_data self') !! k = Some c
       ↔ ArticleData.char_dict (ConsensusProcessor.article_data self) !! k = Some c
         ∨ ∃ anno, anno ∈ batch ∧ counted minimum_redundancy anno
             ∧ text_map anno !! k = Some c).
Proof. apply for_state_builds. Qed.
End batch_state.

(** ** From the batch to the consensus *)

Section end_to_end.
Context `{Codec char} `{DictOrder}.
Implicit Types (self : ConsensusProcessor.t char) (anno : Anno.t)
  (batch : list Anno.t) (topic_data : TopicData.t) (rows : list Row.t).

Lemma for_each_elem_Ok {A B} (body : A → outcome B) (l : list A) ys x :
  for_each body l = Ok ys → x ∈ l → ∃ y, body x = Ok y ∧ y ∈ ys.
Proof.
  intros Hall%for_each_Ok [i Hi]%list_elem_of_lookup.
  destruct (Forall2_lookup_l _ _ _ _ _ Hall Hi) as (y & Hy & Hx).
  exists y. split; [done|]. by eapply list_elem_of_lookup_2.
Qed.

Lemma for_each_Ok_elem {A B} (body : A → outcome B) (l : list A) ys y :
  for_each body l = Ok ys → y ∈ ys → ∃ x, x ∈ l ∧ body x = Ok y.
Proof.
  intros Hall%for_each_Ok [i Hi]%list_elem_of_lookup.
  destruct (Forall2_lookup_r _ _ _ _ _ Hall Hi) as (x & Hx & Hy).
  exists x. split; [|done]. by eapply list_elem_of_lookup_2.
Qed.

(** The rows of [get_consensus] are the rows of its topics. *)
Lemma get_consensus_elem self rows r :
  ConsensusProcessor.get_consensus self = Ok rows →
  r ∈ rows
  ↔ ∃ T topic_data rows',
      T ∈ ConsensusProcessor.topics_inserted self
      ∧ ConsensusProcessor.topics self !! T = Some topic_data
      ∧ ConsensusProcessor.topic_consensus self topic_data = Ok rows'
      ∧ r ∈ rows'.
Proof.
  unfold ConsensusProcessor.get_consensus.
  destruct (for_each _ _) as [rowss|] eqn:Heach; simpl; [|done].
  intros [= <-]. rewrite elem_of_concat. split.
  - intros (rows' & Hr & Hrows').
    destruct (for_each_Ok_elem _ _ _ _ Heach Hrows') as ([T td] & Hin & Hbody).
    apply elem_of_iteritems_in in Hin as [? ?].
    by exists T, td, rows'.
  - intros (T & td & rows' & Hins & HT & Hbody & Hr).
    assert ((T, td) ∈ iteritems_in (ConsensusProcessor.topics_inserted self)
                         (ConsensusProcessor.topics self)) as Hin
      by (by apply elem_of_iteritems_in).
    destruct (for_each_elem_Ok _ _ _ _ Heach Hin) as (rows'' & Hbody' & Hin').
    simpl in Hbody'. exists rows'. split; [done|]. congruence.
Qed.

Lemma get_consensus_topic_Ok self rows T topic_data :
  ConsensusProcessor.get_consensus self = Ok rows →
  T ∈ ConsensusProcessor.topics_inserted self →
  ConsensusProcessor.topics self !! T = Some topic_data →
  ∃ rows', ConsensusProcessor.topic_consensus self topic_data = Ok rows'.
Proof.
  unfold ConsensusProcessor.get_consensus.
  destruct (for_each _ _) as [rowss|] eqn:Heach; simpl; [|done].
  intros _ Hins HT.
  assert ((T, topic_data)
            ∈ iteritems_in (ConsensusProcessor.topics_inserted self)
                (ConsensusProcessor.topics self)) as Hin
    by (by apply elem_of_iteritems_in).
  destruct (for_each_elem_Ok _ _ _ _ Heach Hin) as (rows'' & Hbody' & Hin').
  by exists rows''.
Qed.

(** The columns of the rows of one topic. *)
Lemma topic_consensus_columns self topic_data rows r :
  ConsensusProcessor.topic_consensus self topic_data = Ok rows →
  r ∈ rows →
  ∃ chars,
    recorded_text (ConsensusProcessor.article_data self)
      (Row.start_pos r) (Row.end_pos r) chars
    ∧ r = Row.mk (Row.start_pos r) (Row.end_pos r)
            (Some (unicode_escape_encode chars))
            (Some (TopicData.topic_name topic_data))
            (Some (TopicData.namespace topic_data))
            (Row.case_number r)
            (Some (ArticleData.article_sha256
                     (ConsensusProcessor.article_data self)))
            (Some (ArticleData.article_filename
                     (ConsensusProcessor.article_data self)))
            (Some (ConsensusProcessor.task_uuid self))
            None.
Proof.
  intros (offsets' & Htext%set_text_Ok_iff & ->)%topic_consensus_Ok
    [i Hi]%list_elem_of_lookup.
  unfold ConsensusProcessor.set_links in Hi.
  rewrite list_lookup_fmap, determine_cases_lookup in Hi.
  destruct (offsets' !! i) as [o'|] eqn:Ho'; [|done]. injection Hi as <-.
  destruct (Forall2_lookup_r _ _ _ _ _ Htext Ho') as (o & Ho & chars & Hrec & ->).
  pose proof (convert_to_ranges_offsets
    (keys (dict (List.filter
       (ConsensusProcessor.determine_passing (ConsensusProcessor.pass_threshold self))
       (iteritems (TopicData.sum_contribs topic_data)))))) as Hoff.
  rewrite Forall_forall in Hoff.
  pose proof (Hoff o (list_elem_of_lookup_2 _ _ _ Ho)) as Hshape.
  exists chars. split; [done|]. simpl. rewrite Hshape. done.
Qed.

(** X11: the columns of a consensus row.  Every row of [get_consensus]
    belongs to a topic of the processor and carries that topic's name and
    namespace, the article's recorded identity, the task, and as
    [target_text] the encoding of the characters recorded at the positions
    of its range, in order; it has no [extra]. *)
Theorem consensus_row_columns self rows r :
  ConsensusProcessor.get_consensus self = Ok rows →
  r ∈ rows →
  ∃ T topic_data chars,
    ConsensusProcessor.topics self !! T = Some topic_data
    ∧ recorded_text (ConsensusProcessor.article_data self)
        (Row.start_pos r) (Row.end_pos r) chars
    ∧ r = Row.mk (Row.start_pos r) (Row.end_pos r)
            (Some (unicode_escape_encode chars))
            (Some (TopicData.topic_name topic_data))
            (Some (TopicData.namespace topic_data))
            (Row.case_number r)
            (Some (ArticleData.article_sha256
                     (ConsensusProcessor.article_data self)))
            (Some (ArticleData.article_filename
                     (ConsensusProcessor.article_data self)))
            (Some (ConsensusProcessor.task_uuid self))
            None.
Proof.
  intros Hrows Hr.
  apply (get_consensus_elem _ _ _ Hrows) in Hr as (T & td & rows' & Hins & HT & Hbody & Hr).
  destruct (topic_consensus_columns _ _ _ _ Hbody Hr) as (chars & Hrec & Heq).
  by exists T, td, chars.
Qed.

Lemma elem_of_supporters minimum_redundancy batch T p u :
  u ∈ supporters minimum_redundancy batch T p
  ↔ ∃ anno, anno ∈ annos_of minimum_redundancy batch T u ∧ marks anno p.
Proof.
  unfold supporters, annos_of.
  rewrite elem_of_list_to_set, list_elem_of_fmap.
  setoid_rewrite list_elem_of_filter. naive_solver.
Qed.

Lemma elem_of_contributors minimum_redundancy batch T u :
  u ∈ contributors minimum_redundancy batch T
  ↔ annos_of minimum_redundancy batch T u ≠ [].
Proof.
  unfold contributors, annos_of.
  rewrite elem_of_list_to_set, list_elem_of_fmap.
  setoid_rewrite list_elem_of_filter. split.
  - intros (anno & -> & (? & ?) & Hin) Hnil.
    eapply (filter_nil_not_elem_of _ _ anno); [exact Hnil| |done]. simpl. auto.
  - intros Hne.
    destruct (filter _ batch) as [|anno l] eqn:Hl; [done|].
    assert (anno ∈ filter (λ anno, counted minimum_redundancy anno
                             ∧ Anno.topic_name anno = T
                             ∧ Anno.contributor_uuid anno = u) batch)
      as Hin by (rewrite Hl; left).
    apply list_elem_of_filter in Hin. exists anno. naive_solver.
Qed.

Lemma contrib_of_fresh minimum_redundancy task_uuid iaa_config batch self T u :
  for_state (ConsensusProcessor.consider_anno minimum_redundancy)
    (ConsensusProcessor.init task_uuid iaa_config) batch = (self, Ok ()) →
  contrib_of self T u
  = if decide (annos_of minimum_redundancy batch T u = []) then None
    else Some (contrib_after (annos_of minimum_redundancy batch T u)).
Proof.
  intros [Hc _]%for_state_builds. rewrite Hc.
  unfold contrib_of at 1 2. simpl. by rewrite lookup_empty.
Qed.

Lemma fresh_supporters minimum_redundancy task_uuid iaa_config batch self T p :
  for_state (ConsensusProcessor.consider_anno minimum_redundancy)
    (ConsensusProcessor.init task_uuid iaa_config) batch = (self, Ok ()) →
  match ConsensusProcessor.topics self !! T with
  | Some topic_data =>
      dom (contributors_at topic_data p)
        = supporters minimum_redundancy batch T p
      ∧ dom (TopicData.contrib_dict topic_data)
        = contributors minimum_redundancy batch T
  | None => contributors minimum_redundancy batch T = ∅
  end.
Proof.
  intros Hrun.
  pose proof (λ u, contrib_of_fresh _ _ _ _ _ T u Hrun) as Hof.
  unfold contrib_of in Hof.
  destruct (ConsensusProcessor.topics self !! T) as [td|]; simpl in Hof.
  - split; apply set_eq; intros u.
    + rewrite elem_of_supporters, elem_of_dom. unfold contributors_at.
      specialize (Hof u). split.
      * intros [cd [Hu Hp]%map_lookup_filter_Some]. simpl in Hp.
        rewrite Hu in Hof. case_decide; [done|]. injection Hof as ->.
        by apply contrib_after_spec in Hp.
      * intros (anno & Hin & Hp).
        rewrite decide_False in Hof by (intros Hnil; rewrite Hnil in Hin;
                                        by apply elem_of_nil in Hin).
        eexists. apply map_lookup_filter_Some. split; [done|]. simpl.
        apply contrib_after_spec. eauto.
    + rewrite elem_of_contributors, elem_of_dom, (Hof u).
      case_decide as Hd; [split; [by intros [? ?]|done]|split; [done|by eexists]].
  - apply set_eq. intros u. rewrite elem_of_contributors.
    specialize (Hof u). case_decide; [|done]. set_solver.
Qed.

Lemma contributors_at_subseteq topic_data p :
  (size (contributors_at topic_data p)
   ≤ size (TopicData.contrib_dict topic_data))%nat.
Proof. apply map_subseteq_size, map_filter_subseteq. Qed.

Lemma supporters_subseteq minimum_redundancy batch T p :
  supporters minimum_redundancy batch T p ⊆ contributors minimum_redundancy batch T.
Proof.
  intros u (anno & Hin & _)%elem_of_supporters. apply elem_of_contributors.
  intros Hnil. rewrite Hnil in Hin. by apply elem_of_nil in Hin.
Qed.

(** X12: what the consensus of a batch is.  When a fresh processor has
    taken a batch and the consensus can be extracted, a position lies in a
    row of topic [T] exactly when at least one, and at least
    [pass_threshold], distinct contributors have an annotation of the batch
    that passes the redundancy filter, belongs to [T] and marks the
    position. *)
Theorem consensus_counts_supporters task_uuid iaa_config batch self rows :
  ConsensusProcessor.consider (ConsensusProcessor.init task_uuid iaa_config) batch
    = (self, Ok ()) →
  ConsensusProcessor.get_consensus self = Ok rows →
  ∀ T p,
    (∃ r, r ∈ rows ∧ Row.topic_name r = Some T ∧ Row.covers r p)
    ↔ supporters (redundancy_of iaa_config) batch T p ≠ ∅
      ∧ ConsensusProcessor.pass_threshold self
          ≤ Z.of_nat (size (supporters (redundancy_of iaa_config) batch T p)).
Proof.
  intros Hrun Hrows T p.
  assert (well_formed self) as (Hwf & _ & _ & _ & Hins).
  { pose proof (consider_well_formed
      (ConsensusProcessor.init task_uuid iaa_config) batch
      (fed_is_well_formed task_uuid iaa_config [])) as Hwf.
    by rewrite Hrun in Hwf. }
  unfold ConsensusProcessor.consider in Hrun. simpl in Hrun.
  fold (redundancy_of iaa_config) in Hrun.
  pose proof (fresh_supporters _ _ _ _ _ T p Hrun) as Hsup.
  split.
  - intros (r & Hr & Hname & Hp).
    apply (get_consensus_elem _ _ _ Hrows) in Hr
      as (T' & td & rows' & _ & HT' & Hbody & Hr).
    destruct (topic_consensus_columns _ _ _ _ Hbody Hr) as (chars & _ & Heq).
    rewrite Heq in Hname. simpl in Hname. injection Hname as Hname.
    destruct (Hwf T' td HT') as (Hkey & _). assert (T' = T) as -> by congruence.
    rewrite HT' in Hsup. destruct Hsup as [<- _].
    assert (passing td (ConsensusProcessor.pass_threshold self) p) as Hpass.
    { apply get_consensus_passing.
      apply (covered_span rows'); [by apply topic_consensus_span|].
      by exists r. }
    apply passing_size in Hpass as [Hne Hle].
    rewrite size_dom. split; [|done].
    intros Hempty. apply Hne. by rewrite <-size_dom, Hempty, size_empty.
  - intros [Hne Hle].
    destruct (ConsensusProcessor.topics self !! T) as [td|] eqn:HT.
    + destruct Hsup as [Hsup _]. rewrite <-Hsup, size_dom in Hle.
      assert (T ∈ ConsensusProcessor.topics_inserted self) as HTin
        by by apply Hins.
      destruct (get_consensus_topic_Ok _ _ _ _ Hrows HTin HT) as [rows' Hbody].
      assert (covered rows' p) as (r & Hr & Hp).
      { apply (covered_span
          (TopicData.get_consensus td
             (ConsensusProcessor.determine_passing
                (ConsensusProcessor.pass_threshold self))));
          [symmetry; by apply topic_consensus_span|].
        apply get_consensus_passing, passing_size. split; [|done].
        intros Hzero. apply Hne. rewrite <-Hsup.
        apply leibniz_equiv, size_empty_iff. by rewrite size_dom. }
      exists r. split_and!; [|..|done].
      * apply (get_consensus_elem _ _ _ Hrows). by exists T, td, rows'.
      * destruct (topic_consensus_columns _ _ _ _ Hbody Hr) as (chars & _ & ->).
        simpl. f_equal. by destruct (Hwf T td HT).
    + destruct Hne. pose proof (supporters_subseteq (redundancy_of iaa_config)
                                  batch T p). set_solver.
Qed.
End end_to_end.

(** ** From the batch to the answers *)

Section answers.
Context `{Codec char} `{DictOrder}.
Implicit Types (self : ConsensusProcessor.t char) (anno : Anno.t)
  (batch : list Anno.t) (topic_data : TopicData.t) (rows : list Row.t).

Lemma get_answer_consensus_elem self rows r :
  ConsensusProcessor.get_answer_consensus self = Ok rows →
  r ∈ rows
  ↔ ∃ T topic_data rows',
      T ∈ ConsensusProcessor.topics_inserted self
      ∧ ConsensusProcessor.topics self !! T = Some topic_data
      ∧ ConsensusProcessor.topic_answer_consensus self topic_data = Ok rows'
      ∧ r ∈ rows'.
Proof.
  unfold ConsensusProcessor.get_answer_consensus.
  destruct (for_each _ _) as [rowss|] eqn:Heach; simpl; [|done].
  intros [= <-]. rewrite elem_of_concat. split.
  - intros (rows' & Hr & Hrows').
    destruct (for_each_Ok_elem _ _ _ _ Heach Hrows') as ([T td] & Hin & Hbody).
    apply elem_of_iteritems_in in Hin as [? ?].
    by exists T, td, rows'.
  - intros (T & td & rows' & Hins & HT & Hbody & Hr).
    assert ((T, td) ∈ iteritems_in (ConsensusProcessor.topics_inserted self)
                         (ConsensusProcessor.topics self)) as Hin
      by (by apply elem_of_iteritems_in).
    destruct (for_each_elem_Ok _ _ _ _ Heach Hin) as (rows'' & Hbody' & Hin').
    simpl in Hbody'. exists rows'. split; [done|]. congruence.
Qed.

Lemma get_answer_consensus_topic_Ok self rows T topic_data :
  ConsensusProcessor.get_answer_consensus self = Ok rows →
  T ∈ ConsensusProcessor.topics_inserted self →
  ConsensusProcessor.topics self !! T = Some topic_data →
  ∃ rows', ConsensusProcessor.topic_answer_consensus self topic_data = Ok rows'.
Proof.
  unfold ConsensusProcessor.get_answer_consensus.
  destruct (for_each _ _) as [rowss|] eqn:Heach; simpl; [|done].
  intros _ Hins HT.
  assert ((T, topic_data)
            ∈ iteritems_in (ConsensusProcessor.topics_inserted self)
                (ConsensusProcessor.topics self)) as Hin
    by (by apply elem_of_iteritems_in).
  destruct (for_each_elem_Ok _ _ _ _ Heach Hin) as (rows'' & Hbody' & Hin').
  by exists rows''.
Qed.

Lemma topic_answer_names self topic_data rows r :
  ConsensusProcessor.topic_answer_consensus self topic_data = Ok rows →
  r ∈ rows → Row.topic_name r = Some (TopicData.topic_name topic_data).
Proof.
  unfold ConsensusProcessor.topic_answer_consensus.
  destruct (ConsensusProcessor.set_text _ _) as [offsets'|]; simpl; [|done].
  intros [= <-] (r1 & -> & Hr1)%list_elem_of_fmap. simpl.
  unfold ConsensusProcessor.set_links in Hr1.
  apply list_elem_of_fmap in Hr1 as (r2 & -> & [i Hi]%list_elem_of_lookup). simpl.
  rewrite determine_cases_lookup in Hi.
  destruct (offsets' !! i); simpl in Hi; [|done]. by injection Hi as <-.
Qed.

(** A topic with a range that passes has at least [pass_threshold]
    contributors. *)
Lemma passing_contrib_count topic_data pass_threshold p :
  passing topic_data pass_threshold p →
  pass_threshold ≤ TopicData.get_contrib_count topic_data.
Proof.
  intros [_ Hle]%passing_size. unfold TopicData.get_contrib_count.
  pose proof (contributors_at_subseteq topic_data p). lia.
Qed.

Lemma topic_answer_nonempty self topic_data rows :
  ConsensusProcessor.topic_answer_consensus self topic_data = Ok rows →
  rows ≠ []
  ↔ ConsensusProcessor.pass_threshold self
      ≤ TopicData.get_contrib_count topic_data.
Proof.
  intros Hrows.
  destruct (decide (TopicData.get_consensus topic_data
       (ConsensusProcessor.determine_passing (ConsensusProcessor.pass_threshold self))
       = []
     ∧ ConsensusProcessor.pass_threshold self
         ≤ TopicData.get_contrib_count topic_data)) as [[Hnil Hge]|Hno].
  - destruct (topic_answer_fallback _ _ Hnil Hge) as [_ Hans].
    rewrite Hans in Hrows. by injection Hrows as <-.
  - rewrite (topic_answer_regular _ _ Hno) in Hrows.
    destruct (ConsensusProcessor.topic_consensus self topic_data)
      as [rows0|] eqn:Hrows0; simpl in Hrows; [|done].
    injection Hrows as <-.
    pose proof (topic_consensus_span _ _ _ Hrows0) as Hspan.
    destruct (get_consensus_separated topic_data
      (ConsensusProcessor.determine_passing (ConsensusProcessor.pass_threshold self)))
      as [lo Hsep].
    destruct (TopicData.get_consensus topic_data _) as [|o offsets] eqn:Hoff.
    + destruct rows0; [|done]. simpl. split; [done|]. intros Hge. by destruct Hno.
    + split; [intros _|by destruct rows0].
      apply (passing_contrib_count _ _ (Row.start_pos o)).
      apply get_consensus_passing. rewrite Hoff. exists o.
      split; [left|]. simpl in Hsep. unfold Row.covers. lia.
Qed.

(** X13: [get_answer_consensus] emits rows for a topic exactly when the
    number of contributors of the topic reaches [pass_threshold]: either
    ranges pass, and then that many contributors exist, or the placeholder
    row stands in. *)
Theorem answer_emitted_iff_threshold self topic_data rows :
  ConsensusProcessor.topic_answer_consensus self topic_data = Ok rows →
  rows ≠ []
  ↔ ConsensusProcessor.pass_threshold self
      ≤ TopicData.get_contrib_count topic_data.
Proof. apply topic_answer_nonempty. Qed.

(** X14: what the answer consensus of a batch is.  When a fresh processor
    has taken a batch and the answer consensus can be extracted, it has a
    row of topic [T] exactly when at least one, and at least
    [pass_threshold], distinct contributors have an annotation of the batch
    that passes the redundancy filter and belongs to [T], whatever these
    annotations mark. *)
Theorem answers_count_contributors task_uuid iaa_config batch self rows :
  ConsensusProcessor.consider (ConsensusProcessor.init task_uuid iaa_config) batch
    = (self, Ok ()) →
  ConsensusProcessor.get_answer_consensus self = Ok rows →
  ∀ T,
    (∃ r, r ∈ rows ∧ Row.topic_name r = Some T)
    ↔ contributors (redundancy_of iaa_config) batch T ≠ ∅
      ∧ ConsensusProcessor.pass_threshold self
          ≤ Z.of_nat (size (contributors (redundancy_of iaa_config) batch T)).
Proof.
  intros Hrun Hrows T.
  assert (well_formed self) as (Hwf & _ & _ & _ & Hins).
  { pose proof (consider_well_formed
      (ConsensusProcessor.init task_uuid iaa_config) batch
      (fed_is_well_formed task_uuid iaa_config [])) as Hwf.
    by rewrite Hrun in Hwf. }
  unfold ConsensusProcessor.consider in Hrun. simpl in Hrun.
  fold (redundancy_of iaa_config) in Hrun.
  pose proof (fresh_supporters _ _ _ _ _ T 0 Hrun) as Hsup.
  split.
  - intros (r & Hr & Hname).
    apply (get_answer_consensus_elem _ _ _ Hrows) in Hr
      as (T' & td & rows' & _ & HT' & Hbody & Hr).
    rewrite (topic_answer_names _ _ _ _ Hbody Hr) in Hname.
    injection Hname as Hname.
    destruct (Hwf T' td HT') as (Hkey & Hsome & _).
    assert (T' = T) as -> by congruence.
    rewrite HT' in Hsup. destruct Hsup as [_ <-].
    split.
    + intros Hempty. apply Hsome. by apply dom_empty_iff_L.
    + rewrite size_dom. apply (topic_answer_nonempty _ _ _ Hbody).
      intros ->. by apply elem_of_nil in Hr.
  - intros [Hne Hle].
    destruct (ConsensusProcessor.topics self !! T) as [td|] eqn:HT; [|done].
    destruct Hsup as [_ Hsup]. rewrite <-Hsup, size_dom in Hle.
    assert (T ∈ ConsensusProcessor.topics_inserted self) as HTin
      by by apply Hins.
    destruct (get_answer_consensus_topic_Ok _ _ _ _ Hrows HTin HT)
      as [rows' Hbody].
    apply (topic_answer_nonempty _ _ _ Hbody) in Hle.
    destruct rows' as [|r rows']; [done|].
    exists r. split.
    + apply (get_answer_consensus_elem _ _ _ Hrows). exists T, td, (r :: rows').
      split_and!; [done..|left].
    + rewrite (topic_answer_names _ _ _ r Hbody) by left.
      f_equal. by destruct (Hwf T td HT).
Qed.
End answers.

(** ** When the extraction returns *)

Section totality.
Context `{Codec char} `{DictOrder}.
Implicit Types (self : ConsensusProcessor.t char) (anno : Anno.t)
  (batch : list Anno.t) (topic_data : TopicData.t) (rows : list Row.t).

Lemma anno_map_full anno p :
  full_text anno → marks anno p → is_Some (text_map anno !! p).
Proof.
  unfold full_text, marks. intros Hfull Hp.
  destruct (lookup_lt_is_Some_2 (decoded anno)
              (Z.to_nat (p - Anno.start_pos anno))) as [c Hc]; [lia|].
  exists c. apply lookup_anno_map. exists (Z.to_nat (p - Anno.start_pos anno)).
  split_and!; [lia|lia|done].
Qed.

Lemma consider_anno_legible minimum_redundancy self anno :
  (counted minimum_redundancy anno → full_text anno) →
  legible self →
  legible (ConsensusProcessor.consider_anno minimum_redundancy self anno).1.
Proof.
  intros Hfull Hleg.
  destruct (decide (Anno.taskrun_count anno < minimum_redundancy)) as [Hlow|Hacc].
  { by rewrite consider_anno_dropped. }
  specialize (Hfull Hacc).
  rewrite consider_anno_counted by done. cbv zeta.
  pose proof (article_consider_subseteq
                (ConsensusProcessor.article_data self) anno) as Hsub.
  destruct (ArticleData.consider _ _) as [article' [[]|e]] eqn:Hart; simpl in *.
  - apply article_consider_Ok in Hart as (_ & _ & _ & Heq).
    assert (∀ p, marks anno p → is_Some (ArticleData.char_dict article' !! p))
      as Hnew.
    { intros p [c Hp]%anno_map_full; [|done]. exists c.
      rewrite Heq. simpl. by rewrite lookup_update, Hp. }
    intros T td u cd p. simpl.
    destruct (decide (T = Anno.topic_name anno)) as [->|HT].
    + rewrite lookup_insert_eq. intros [= <-].
      rewrite topic_consider_contrib_dict.
      destruct (decide (u = Anno.contributor_uuid anno)) as [->|Hu].
      * rewrite lookup_insert_eq. intros [= <-].
        rewrite contrib_consider_flattened.
        intros [Hold|Hp%elem_of_list_to_set%elem_of_range]%elem_of_union;
          [|by apply Hnew].
        destruct (ConsensusProcessor.topics self !! Anno.topic_name anno)
          as [td|] eqn:Htd; simpl in Hold; [|set_solver].
        destruct (TopicData.contrib_dict td !! Anno.contributor_uuid anno)
          as [cd|] eqn:Hcd; simpl in Hold; [|set_solver].
        eapply lookup_weaken_is_Some; [|done]. by eapply Hleg.
      * rewrite lookup_insert_ne by done. intros Hcd Hp.
        destruct (ConsensusProcessor.topics self !! Anno.topic_name anno)
          as [td|] eqn:Htd; simpl in Hcd; [|by rewrite lookup_empty in Hcd].
        eapply lookup_weaken_is_Some; [|done]. by eapply Hleg.
    + rewrite lookup_insert_ne by done. intros Htd Hcd Hp.
      eapply lookup_weaken_is_Some; [|done]. by eapply Hleg.
  - intros T td u cd p Htd Hcd Hp. simpl in *.
    eapply lookup_weaken_is_Some; [|done]. by eapply Hleg.
Qed.

Lemma for_state_legible minimum_redundancy self batch :
  (∀ anno, anno ∈ batch → counted minimum_redundancy anno → full_text anno) →
  legible self →
  legible (for_state (ConsensusProcessor.consider_anno minimum_redundancy)
             self batch).1.
Proof.
  revert self. induction batch as [|anno batch IH]; intros self Hfull Hleg;
    simpl; [done|].
  pose proof (consider_anno_legible minimum_redundancy self anno) as Hstep.
  destruct (ConsensusProcessor.consider_anno _ self anno) as [self' [[]|e]];
    simpl in *.
  - apply IH; [intros a Ha; apply Hfull; by right|].
    apply Hstep; [apply Hfull; left|done].
  - apply Hstep; [apply Hfull; left|done].
Qed.

Lemma fed_config task_uuid iaa_config batches :
  ConsensusProcessor.iaa_config (fed (char := char) task_uuid iaa_config batches)
  = iaa_config.
Proof.
  induction batches as [|batch batches IH] using rev_ind; [done|].
  rewrite fed_snoc. by destruct (consider_grows
    (fed task_uuid iaa_config batches) batch) as (_ & -> & _).
Qed.

Lemma fed_legible task_uuid iaa_config batches :
  (∀ batch anno, batch ∈ batches → anno ∈ batch →
     counted (redundancy_of iaa_config) anno → full_text anno) →
  legible (fed task_uuid iaa_config batches).
Proof.
  induction batches as [|batch batches IH] using rev_ind; intros Hfull.
  - intros T td u cd p. unfold fed. simpl. by rewrite lookup_empty.
  - rewrite fed_snoc. unfold ConsensusProcessor.consider.
    rewrite fed_config. fold (redundancy_of iaa_config).
    apply for_state_legible.
    + intros anno Hin. apply (Hfull batch); [|done].
      apply elem_of_app. right. left.
    + apply IH. intros b anno Hb. apply Hfull. apply elem_of_app. by left.
Qed.

Lemma legible_topic_consensus self T topic_data :
  legible self →
  ConsensusProcessor.topics self !! T = Some topic_data →
  ∃ rows, ConsensusProcessor.topic_consensus self topic_data = Ok rows.
Proof.
  intros Hleg HT. unfold ConsensusProcessor.topic_consensus.
  destruct (ConsensusProcessor.set_text _ _) as [offsets'|e] eqn:Htext; simpl;
    [by eexists|].
  apply set_text_Raise in Htext as (_ & o & p & Ho & Hp & Hnone).
  assert (passing topic_data (ConsensusProcessor.pass_threshold self) p)
    as [Hne _]%passing_size by (apply get_consensus_passing; by exists o).
  destruct (map_choose (contributors_at topic_data p)) as (u & cd & Hu).
  { intros Hempty. by rewrite Hempty, map_size_empty in Hne. }
  apply map_lookup_filter_Some in Hu as [Hu Hin]. simpl in Hin.
  destruct (Hleg T topic_data u cd p HT Hu Hin) as [c Hc]. congruence.
Qed.

Lemma for_each_total {A B} (body : A → outcome B) (l : list A) :
  (∀ x, x ∈ l → ∃ y, body x = Ok y) → ∃ ys, for_each body l = Ok ys.
Proof.
  intros Hall. destruct (for_each body l) as [ys|e] eqn:Heach; [by eexists|].
  apply for_each_Raise in Heach as (x & Hx & Hraise).
  destruct (Hall x Hx) as [y Hy]. congruence.
Qed.

Lemma legible_consensus self :
  legible self →
  (∃ rows, ConsensusProcessor.get_consensus self = Ok rows)
  ∧ (∃ rows, ConsensusProcessor.get_answer_consensus self = Ok rows).
Proof.
  intros Hleg.
  unfold ConsensusProcessor.get_consensus, ConsensusProcessor.get_answer_consensus.
  split.
  - destruct (for_each_total
      (λ '(_, topic_data), ConsensusProcessor.topic_consensus self topic_data)
      (iteritems_in (ConsensusProcessor.topics_inserted self)
         (ConsensusProcessor.topics self))) as [rowss ->];
      [|by eexists].
    intros [T td] [_ HT]%elem_of_iteritems_in. by eapply legible_topic_consensus.
  - destruct (for_each_total
      (λ '(_, topic_data), ConsensusProcessor.topic_answer_consensus self topic_data)
      (iteritems_in (ConsensusProcessor.topics_inserted self)
         (ConsensusProcessor.topics self))) as [rowss ->];
      [|by eexists].
    intros [T td] [_ HT]%elem_of_iteritems_in.
    destruct (legible_topic_consensus self T td Hleg HT) as [rows Hrows].
    rewrite topic_answer_highlight_rows in Hrows.
    destruct (ConsensusProcessor.topic_answer_consensus self td); [by eexists|done].
Qed.

(** X15: when every annotation that passes the redundancy filter comes with
    a text at least as long as its range, [get_consensus] and
    [get_answer_consensus] return, however many batches were fed and
    whatever [consider] raised on them: every position that can pass has a
    recorded character. *)
Theorem full_text_consensus_returns task_uuid iaa_config batches :
  (∀ batch anno, batch ∈ batches → anno ∈ batch →
     counted (redundancy_of iaa_config) anno → full_text anno) →
  (∃ rows, ConsensusProcessor.get_consensus
             (fed task_uuid iaa_config batches) = Ok rows)
  ∧ (∃ rows, ConsensusProcessor.get_answer_consensus
               (fed task_uuid iaa_config batches) = Ok rows).
Proof. intros Hfull. by apply legible_consensus, fed_legible. Qed.

(** X16: an annotation that was taken can be read back.  After [consider]
    took an annotation whose text is at least as long as its range,
    [set_text] on that range returns the encoding of the first
    [end_pos - start_pos] characters of the decoded text, and it still does
    after any further batch, whether that batch raises or not. *)
Theorem taken_text_reads_back self anno self1 batch :
  ConsensusProcessor.consider self [anno] = (self1, Ok ()) →
  counted (redundancy_of (ConsensusProcessor.iaa_config self)) anno →
  full_text anno →
  ConsensusProcessor.set_text (ConsensusProcessor.consider self1 batch).1
    [Row.offset (Anno.start_pos anno) (Anno.end_pos anno)]
  = Ok [Row.set_target_text
          (unicode_escape_encode
             (take (Z.to_nat (Anno.end_pos anno - Anno.start_pos anno))
                (decoded anno)))
          (Row.offset (Anno.start_pos anno) (Anno.end_pos anno))].
Proof.
  intros Hrun Hc Hfull. unfold ConsensusProcessor.consider in Hrun.
  fold (redundancy_of (ConsensusProcessor.iaa_config self)) in Hrun.
  simpl in Hrun.
  destruct (ConsensusProcessor.consider_anno _ self anno)
    as [self1' [[]|e]] eqn:Hanno; [|done].
  injection Hrun as ->.
  destruct (consider_grows self1 batch) as (_ & _ & Hsub & _).
  apply set_text_Ok_iff. constructor; [|constructor].
  eexists. split; [|done]. simpl. unfold recorded_text, range, full_text in *.
  apply Forall2_same_length_lookup. split.
  - rewrite length_seqZ, length_take. lia.
  - intros i p c [-> Hi]%lookup_seqZ [Hdec _]%lookup_take_Some.
    eapply lookup_weaken; [|done].
    apply (char_dict_consider_anno _ _ _ _ _ _ Hc Hanno). right.
    apply lookup_anno_map. exists i. split_and!; [done|lia|done].
Qed.
End totality.

(** ** Repeated annotations and empty ranges *)

Section repeats.
Context `{Codec char} `{DictOrder}.
Implicit Types (self : ConsensusProcessor.t char) (anno : Anno.t)
  (topic_data : TopicData.t).

Lemma article_consider_idem (article article' : ArticleData.t char) anno :
  ArticleData.consider article anno = (article', Ok ()) →
  ArticleData.consider article' anno = (article', Ok ()).
Proof.
  intros (Hdec & Hclash & _ & ->)%article_consider_Ok. apply article_consider_Ok.
  split_and!.
  - done.
  - apply not_char_clash. simpl. intros k c c' Hk Hk'.
    rewrite lookup_update, Hk' in Hk. congruence.
  - intros (sha & [= <-] & [?|?]); done.
  - simpl. f_equal. apply map_eq. intros k. rewrite !lookup_update.
    by destruct (text_map anno !! k).
Qed.

Lemma topic_consider_idem topic_data topic_data' anno :
  TopicData.consider topic_data anno = (topic_data', Ok ()) →
  TopicData.consider topic_data' anno = (topic_data', Ok ()).
Proof.
  intros [_ ->]%topic_consider_Ok. apply topic_consider_Ok. simpl.
  split; [by right|]. f_equal.
  rewrite lookup_insert_eq. simpl. by rewrite contrib_consider_idem, insert_insert_eq.
Qed.

(** X17: an annotation that [consider] has just taken is taken again
    without any change: the characters, the identity, the topic and the
    contributor's flattened set and case numbers stay as they are. *)
Theorem consider_again_changes_nothing self anno self1 :
  ConsensusProcessor.consider self [anno] = (self1, Ok ()) →
  ConsensusProcessor.consider self1 [anno] = (self1, Ok ()).
Proof.
  intros Hrun.
  pose proof (consider_grows self [anno]) as (_ & Hcfg & _).
  rewrite Hrun in Hcfg. simpl in Hcfg.
  unfold ConsensusProcessor.consider in *. rewrite Hcfg. simpl in *.
  set (mr := default MIN_REDUNDANCY
               (ConsensusProcessor.iaa_config self !! "minimum_redundancy")) in *.
  destruct (ConsensusProcessor.consider_anno mr self anno)
    as [self1' [[]|e]] eqn:Hanno; [|done].
  injection Hrun as ->.
  destruct (decide (Anno.taskrun_count anno < mr)) as [Hlow|Hacc].
  { by rewrite consider_anno_dropped. }
  apply consider_anno_Ok in Hanno as (article' & td' & Hart & Htd & ->); [|done].
  assert (ConsensusProcessor.consider_anno mr
            (ConsensusProcessor.mk (ConsensusProcessor.task_uuid self)
               (ConsensusProcessor.iaa_config self) article'
               (<[Anno.topic_name anno := td']> (ConsensusProcessor.topics self))
               (inserted_after (ConsensusProcessor.topics self)
                  (ConsensusProcessor.topics_inserted self)
                  (Anno.topic_name anno)))
            anno
          = (ConsensusProcessor.mk (ConsensusProcessor.task_uuid self)
               (ConsensusProcessor.iaa_config self) article'
               (<[Anno.topic_name anno := td']> (ConsensusProcessor.topics self))
               (inserted_after (ConsensusProcessor.topics self)
                  (ConsensusProcessor.topics_inserted self)
                  (Anno.topic_name anno)),
             Ok ())) as ->; [|done].
  apply consider_anno_Ok; [done|]. exists article', td'. simpl.
  split_and!.
  - by eapply article_consider_idem.
  - rewrite lookup_insert_eq. simpl. by eapply topic_consider_idem.
  - rewrite insert_insert_eq. f_equal. unfold inserted_after.
    by rewrite lookup_insert_eq.
Qed.

(** X18: an annotation with an empty range ([end_pos] at most [start_pos])
    records no character and marks no position, so the counter of its topic
    stays as it was; all it does to the topic is to register its
    contributor, which raises the contributor count by one when the
    contributor is new. *)
Theorem empty_range_only_registers (article : ArticleData.t char) topic_data anno :
  Anno.end_pos anno ≤ Anno.start_pos anno →
  ArticleData.char_dict (ArticleData.consider article anno).1
    = ArticleData.char_dict article
  ∧ TopicData.contrib_dict (TopicData.consider topic_data anno).1
    = <[Anno.contributor_uuid anno :=
          default ContribData.init
            (TopicData.contrib_dict topic_data !! Anno.contributor_uuid anno)]>
        (TopicData.contrib_dict topic_data)
  ∧ TopicData.sum_contribs (TopicData.consider topic_data anno).1
    = TopicData.sum_contribs topic_data
  ∧ TopicData.get_contrib_count (TopicData.consider topic_data anno).1
    = TopicData.get_contrib_count topic_data
      + (if TopicData.contrib_dict topic_data !! Anno.contributor_uuid anno
         is Some _ then 0 else 1).
Proof.
  intros Hle.
  assert (TopicData.contrib_dict (TopicData.consider topic_data anno).1
    = <[Anno.contributor_uuid anno :=
          default ContribData.init
            (TopicData.contrib_dict topic_data !! Anno.contributor_uuid anno)]>
        (TopicData.contrib_dict topic_data)) as Hdict
    by (by rewrite topic_consider_contrib_dict, contrib_consider_empty_range).
  split_and!.
  - apply map_eq. intros k. apply article_consider_outside. lia.
  - done.
  - apply map_eq. intros p. rewrite !sum_contribs_lookup.
    assert (contributors_at (TopicData.consider topic_data anno).1 p
            = contributors_at topic_data p) as ->; [|done].
    unfold contributors_at. rewrite Hdict.
    destruct (TopicData.contrib_dict topic_data !! Anno.contributor_uuid anno)
      as [cd|] eqn:Hu; simpl.
    + by rewrite insert_id.
    + apply map_filter_insert_not'; [simpl; set_solver|].
      intros cd. by rewrite Hu.
  - unfold TopicData.get_contrib_count. rewrite Hdict, map_size_insert.
    destruct (TopicData.contrib_dict topic_data !! Anno.contributor_uuid anno);
      simpl; lia.
Qed.
End repeats.

(** ** TopicData.get_consensus at the ends of the threshold *)

Section threshold_edges.
Implicit Types (topic_data : TopicData.t) (p : Z).

Lemma contributors_at_all topic_data p :
  size (contributors_at topic_data p) = size (TopicData.contrib_dict topic_data)
  ↔ ∀ u contrib_data,
      TopicData.contrib_dict topic_data !! u = Some contrib_data →
      p ∈ ContribData.flattened contrib_data.
Proof.
  unfold contributors_at. split.
  - intros Hsize u cd Hu.
    assert (filter (λ kv : string * ContribData.t, p ∈ ContribData.flattened kv.2)
              (TopicData.contrib_dict topic_data)
            = TopicData.contrib_dict topic_data) as Hall.
    { apply map_subseteq_size_eq; [apply map_filter_subseteq|lia]. }
    rewrite <-Hall in Hu. by apply map_lookup_filter_Some in Hu as [_ ?].
  - intros Hall. by rewrite map_filter_id.
Qed.

Lemma contributors_at_some topic_data p :
  size (contributors_at topic_data p) ≠ 0%nat
  ↔ ∃ u contrib_data,
      TopicData.contrib_dict topic_data !! u = Some contrib_data
      ∧ p ∈ ContribData.flattened contrib_data.
Proof.
  unfold contributors_at. rewrite map_size_non_empty_iff. split.
  - intros (u & cd & [Hu Hp]%map_lookup_filter_Some)%map_choose. eauto.
  - intros (u & cd & Hu & Hp) Hempty.
    by eapply (map_filter_empty_not_lookup _ _ u cd).
Qed.

(** X19: the consensus of a topic at the ends of the threshold.  At a
    threshold of at most 1 the ranges cover every position that some
    contributor has marked; at a threshold equal to the number of
    contributors they cover the positions that every contributor has
    marked; above the number of contributors there is no range at all. *)
Theorem consensus_at_threshold_ends topic_data pass_threshold :
  (pass_threshold ≤ 1 →
   ∀ p, covered (TopicData.get_consensus topic_data
                   (ConsensusProcessor.determine_passing pass_threshold)) p
        ↔ ∃ u contrib_data,
            TopicData.contrib_dict topic_data !! u = Some contrib_data
            ∧ p ∈ ContribData.flattened contrib_data)
  ∧ (0 < pass_threshold →
     pass_threshold = TopicData.get_contrib_count topic_data →
     ∀ p, covered (TopicData.get_consensus topic_data
                     (ConsensusProcessor.determine_passing pass_threshold)) p
          ↔ ∀ u contrib_data,
              TopicData.contrib_dict topic_data !! u = Some contrib_data →
              p ∈ ContribData.flattened contrib_data)
  ∧ (TopicData.get_contrib_count topic_data < pass_threshold →
     TopicData.get_consensus topic_data
       (ConsensusProcessor.determine_passing pass_threshold) = []).
Proof.
  split_and!.
  - intros Hle p. rewrite get_consensus_passing, passing_size.
    rewrite <-contributors_at_some. split; [tauto|]. intros ?. split; [done|lia].
  - intros Hpos -> p. rewrite get_consensus_passing, passing_size.
    rewrite <-contributors_at_all. unfold TopicData.get_contrib_count in *.
    pose proof (contributors_at_subseteq topic_data p). lia.
  - intros Hlt.
    destruct (get_consensus_separated topic_data
      (ConsensusProcessor.determine_passing pass_threshold)) as [lo Hsep].
    destruct (TopicData.get_consensus topic_data _) as [|o offsets] eqn:Hoff;
      [done|].
    assert (passing topic_data pass_threshold (Row.start_pos o)) as Hpass.
    { apply get_consensus_passing. rewrite Hoff. exists o.
      split; [left|]. simpl in Hsep. unfold Row.covers. lia. }
    apply passing_contrib_count in Hpass. lia.
Qed.
End threshold_edges.

(** ** convert_to_ranges on positions with repeats *)

Section repeated_positions.
Implicit Types (l positions : list Z) (p : Z).

Lemma runs_from_count start prev l p :
  start ≤ prev →
  Z.of_nat (length (filter (λ r, Row.covers r p) (runs_from start prev l)))
  = (if decide (start ≤ p ≤ prev) then 1 else 0)
    + Z.of_nat (length (filter (p =.) l)).
Proof.
  revert start prev. induction l as [|pos l IH]; intros start prev Hle; simpl.
  - rewrite filter_cons, filter_nil. unfold Row.covers at 1. simpl.
    repeat case_decide; simpl; lia.
  - rewrite (filter_cons (p =.)). case_decide as Hpos.
    + rewrite IH by lia. repeat case_decide; simpl; lia.
    + rewrite filter_cons.
      destruct (decide (Row.covers (Row.offset start (prev + 1)) p)) as [Hc|Hc];
        unfold Row.covers in Hc; simpl in Hc; simpl length;
        rewrite ?Nat2Z.inj_succ, IH by lia;
        repeat case_decide; simpl length; lia.
Qed.

(** X20: [convert_to_ranges] on any list of positions, repeats included.
    The number of returned ranges that contain a position is the number of
    times the position occurs in the list: without repeats every position
    lies in one range, and a repeated position is covered by ranges that
    overlap. *)
Theorem convert_to_ranges_counts_repeats positions p :
  length (filter (λ r, Row.covers r p) (TopicData.convert_to_ranges positions))
  = length (filter (p =.) positions).
Proof.
  rewrite convert_to_ranges_runs.
  rewrite <-(Permutation_length
    (filter_Permutation (p =.) _ _ (merge_sort_Permutation Z.le positions))).
  destruct (merge_sort Z.le positions) as [|pos l]; [done|]. simpl.
  apply Nat2Z.inj. rewrite runs_from_count, filter_cons by lia.
  repeat case_decide; simpl; lia.
Qed.
End repeated_positions.

(** ** ConsensusProcessor.consider: when it raises *)

Section processor_raises.
Context `{Codec char} `{DictOrder}.
Implicit Types (self : ConsensusProcessor.t char) (anno : Anno.t)
  (batch : list Anno.t) (topic_data : TopicData.t).

Lemma article_consider_Raise (article : ArticleData.t char) anno e :
  (ArticleData.consider article anno).2 = Raise e →
  (e = UnicodeDecodeError ∧ ¬ decodes anno
   ∧ (ArticleData.consider article anno).1 = article)
  ∨ (e = AssertionError ∧ decodes anno
     ∧ (char_clash article anno ∨ identity_clash article anno)).
Proof.
  destruct (decodes_dec anno) as [Hdec|Hdec].
  2:{ rewrite consider_undecodable by done. simpl. intros [= <-]. by left. }
  destruct (ArticleData.overlaps_agree (ArticleData.char_dict article)
              (text_map anno)) eqn:Hag.
  - assert (¬ char_clash article anno) as Hc
      by (rewrite <-overlaps_agree_char_clash; congruence).
    destruct (identity_clash_dec article anno) as [Hi|Hi].
    + rewrite consider_identity_clash by done. simpl. intros [= <-]. auto.
    + by rewrite consider_consistent.
  - apply overlaps_agree_char_clash in Hag.
    rewrite consider_char_clash by done. simpl. intros [= <-]. auto.
Qed.

Lemma topic_consider_Raise topic_data anno e :
  (TopicData.consider topic_data anno).2 = Raise e →
  e = AssertionError ∧ topic_clash topic_data anno.
Proof.
  unfold TopicData.consider, topic_clash, py_assert.
  case_bool_decide as Hname; simpl; [done|].
  repeat case_bool_decide; simpl; intros [= <-]; auto.
Qed.

Lemma consider_anno_Raise minimum_redundancy self anno self' e :
  ConsensusProcessor.consider_anno minimum_redundancy self anno = (self', Raise e) →
  counted minimum_redundancy anno
  ∧ ((e = UnicodeDecodeError ∧ ¬ decodes anno ∧ self' = self)
     ∨ (e = AssertionError ∧ decodes anno
        ∧ (char_clash (ConsensusProcessor.article_data self) anno
           ∨ identity_clash (ConsensusProcessor.article_data self) anno
           ∨ ∃ topic_data,
               ConsensusProcessor.topics self !! Anno.topic_name anno
                 = Some topic_data
               ∧ topic_clash topic_data anno))).
Proof.
  destruct (decide (Anno.taskrun_count anno < minimum_redundancy)) as [Hlow|Hacc].
  { by rewrite consider_anno_dropped. }
  rewrite consider_anno_counted by done. cbv zeta.
  pose proof (article_consider_Raise
                (ConsensusProcessor.article_data self) anno) as Hart.
  pose proof (article_consider_outcome
                (ConsensusProcessor.article_data self) anno) as Hout.
  destruct (ArticleData.consider _ _) as [article' [[]|e']] eqn:Hcons;
    simpl in *.
  - intros [= <- Hraise]. apply topic_consider_Raise in Hraise as [-> Hclash].
    split; [done|]. right. split_and!; [done| |].
    + destruct (decodes_dec anno) as [Hdec|Hdec]; [done|].
      by rewrite consider_undecodable in Hcons.
    + right. right.
      destruct (ConsensusProcessor.topics self !! Anno.topic_name anno)
        as [td|]; simpl in *; [eauto|]. by destruct Hclash.
  - intros [= <- <-]. split; [done|].
    destruct (Hart e' eq_refl) as [(-> & Hdec & ->)|(-> & Hdec & Hwhy)].
    + left. split_and!; [done..|]. by destruct self.
    + right. split_and!; [done..|]. tauto.
Qed.

Lemma for_state_Raise minimum_redundancy self batch self' e :
  for_state (ConsensusProcessor.consider_anno minimum_redundancy) self batch
    = (self', Raise e) →
  ∃ batch1 anno batch2 self1,
    batch = batch1 ++ anno :: batch2
    ∧ for_state (ConsensusProcessor.consider_anno minimum_redundancy) self batch1
      = (self1, Ok ())
    ∧ ConsensusProcessor.consider_anno minimum_redundancy self1 anno
      = (self', Raise e).
Proof.
  revert self. induction batch as [|anno batch IH]; intros self; simpl; [done|].
  destruct (ConsensusProcessor.consider_anno _ self anno)
    as [s1 [[]|e1]] eqn:Hanno.
  - intros (batch1 & anno' & batch2 & self1 & -> & Hrun & Hbad)%IH.
    exists (anno :: batch1), anno', batch2, self1. simpl. by rewrite Hanno.
  - intros [= <- <-]. by exists [], anno, batch, self.
Qed.

(** X21: when [consider] raises.  The exception is a decoding error or a
    failed [assert], never a lookup error.  It comes from the first
    annotation that passes the redundancy filter and either has a text that
    [unicode-escape] cannot decode, or clashes with the state the
    annotations before it have left: its text contradicts a recorded
    character, its article identity differs from the recorded one, or its
    topic is already named with another name or namespace.  The decoding
    error is raised exactly when the text cannot be decoded, and then that
    annotation leaves no trace either.  The annotations before it were
    taken, and those after it leave no trace: the state is the one a call
    on this annotation alone leaves. *)
Theorem consider_raises_at_first_clash self batch self' e :
  ConsensusProcessor.consider self batch = (self', Raise e) →
  (e = AssertionError ∨ e = UnicodeDecodeError)
  ∧ ∃ batch1 anno batch2 self1,
      batch = batch1 ++ anno :: batch2
      ∧ ConsensusProcessor.consider self batch1 = (self1, Ok ())
      ∧ ConsensusProcessor.consider self1 [anno] = (self', Raise e)
      ∧ counted (redundancy_of (ConsensusProcessor.iaa_config self)) anno
      ∧ (e = UnicodeDecodeError ↔ ¬ decodes anno)
      ∧ (e = UnicodeDecodeError → self' = self1)
      ∧ (e = AssertionError →
         char_clash (ConsensusProcessor.article_data self1) anno
         ∨ identity_clash (ConsensusProcessor.article_data self1) anno
         ∨ ∃ topic_data,
             ConsensusProcessor.topics self1 !! Anno.topic_name anno
               = Some topic_data
             ∧ topic_clash topic_data anno).
Proof.
  intros Hrun.
  pose proof (λ batch1, consider_grows self batch1) as Hcfg.
  unfold ConsensusProcessor.consider in *.
  fold (redundancy_of (ConsensusProcessor.iaa_config self)) in *.
  apply for_state_Raise in Hrun
    as (batch1 & anno & batch2 & self1 & -> & Hrun & Hbad).
  destruct (consider_anno_Raise _ _ _ _ _ Hbad) as (Hc & Hwhy).
  split; [destruct Hwhy as [(-> & _)|(-> & _)]; auto|].
  exists batch1, anno, batch2, self1.
  split_and!; [done|done| |done|..].
  - destruct (Hcfg batch1) as (_ & Hsame & _). rewrite Hrun in Hsame.
    simpl in Hsame. rewrite Hsame. simpl.
    fold (redundancy_of (ConsensusProcessor.iaa_config self)).
    by rewrite Hbad.
  - destruct Hwhy as [(-> & ? & _)|(-> & ? & _)]; [done|]. split; [done|].
    by intros [].
  - intros ->. by destruct Hwhy as [(_ & _ & ->)|([=] & _)].
  - intros ->. by destruct Hwhy as [([=] & _)|(_ & _ & ?)].
Qed.
End processor_raises.

(** ** The rows of one topic among the rows of all *)

Section topic_rows.
Context `{Codec char} `{DictOrder}.
Implicit Types (self : ConsensusProcessor.t char) (topic_data : TopicData.t)
  (rows : list Row.t) (T : string).

Lemma filter_all {A} (P : A → Prop) `{!∀ x, Decision (P x)} (l : list A) :
  (∀ x, x ∈ l → P x) → filter P l = l.
Proof.
  induction l as [|x l IH]; intros Hall; [done|].
  rewrite filter_cons_True by (apply Hall; left).
  f_equal. apply IH. intros y Hy. apply Hall. by right.
Qed.

Lemma filter_none {A} (P : A → Prop) `{!∀ x, Decision (P x)} (l : list A) :
  (∀ x, x ∈ l → ¬ P x) → filter P l = [].
Proof.
  induction l as [|x l IH]; intros Hall; [done|].
  rewrite filter_cons_False by (apply Hall; left).
  apply IH. intros y Hy. apply Hall. by right.
Qed.

(** When every round of a loop over a dictionary yields rows that carry
    the key of the round, the rows of one key are what its round yielded. *)
Lemma filter_topic_concat {A} (body : string * A → outcome (list Row.t))
    (items : list (string * A)) (rowss : list (list Row.t)) T (a : A) :
  NoDup items.*1 →
  (∀ x rows r, x ∈ items → body x = Ok rows → r ∈ rows →
     Row.topic_name r = Some x.1) →
  for_each body items = Ok rowss →
  (T, a) ∈ items →
  body (T, a) = Ok (filter (λ r, Row.topic_name r = Some T) (concat rowss)).
Proof.
  intros Hnd Hname Hall%for_each_Ok Hin.
  induction Hall as [|x rows0 items rowss Hx Hall IH];
    [by apply elem_of_nil in Hin|].
  simpl. rewrite filter_app. rewrite fmap_cons in Hnd.
  apply NoDup_cons in Hnd as [Hfresh Hnd].
  assert (∀ r, r ∈ concat rowss →
            ∃ x', x' ∈ items ∧ Row.topic_name r = Some x'.1) as Hrest.
  { intros r (rows' & Hr & Hrows')%elem_of_concat.
    destruct (for_each_Ok_elem body items rowss rows'
                (proj2 (for_each_Ok _ _ _) Hall) Hrows') as (x' & Hx' & Hb).
    exists x'. split; [done|]. eapply Hname; [by right|done..]. }
  apply elem_of_cons in Hin as [<-|Hin].
  - rewrite (filter_all _ rows0), (filter_none _ (concat rowss)), app_nil_r.
    + done.
    + intros r (x' & Hx' & Hn)%Hrest Heq. rewrite Hn in Heq.
      injection Heq as Heq. apply Hfresh, list_elem_of_fmap. by exists x'.
    + intros r Hr. eapply (Hname (T, a)); [left|done..].
  - rewrite (filter_none _ rows0), app_nil_l.
    + apply IH; [done| |done]. intros x' rows r Hx'. apply Hname. by right.
    + intros r Hr Heq. rewrite (Hname x rows0 r) in Heq; [|left|done..].
      injection Heq as Heq. apply Hfresh, list_elem_of_fmap. by exists (T, a).
Qed.

Lemma topic_consensus_names self topic_data rows r :
  ConsensusProcessor.topic_consensus self topic_data = Ok rows →
  r ∈ rows → Row.topic_name r = Some (TopicData.topic_name topic_data).
Proof.
  intros Hrows Hr.
  by destruct (topic_consensus_columns _ _ _ _ Hrows Hr) as (chars & _ & ->).
Qed.

(** In a processor built by [consider], the rows that carry the name of a
    topic are the rows of the round of that topic, in their order. *)
Lemma get_consensus_of_topic self rows T topic_data :
  well_formed self →
  ConsensusProcessor.get_consensus self = Ok rows →
  ConsensusProcessor.topics self !! T = Some topic_data →
  ConsensusProcessor.topic_consensus self topic_data
  = Ok (filter (λ r, Row.topic_name r = Some T) rows).
Proof.
  intros (Hwf & _ & _ & Hnd & Hins) Hrows HT.
  unfold ConsensusProcessor.get_consensus in Hrows.
  destruct (for_each _ _) as [rowss|] eqn:Heach; simpl in Hrows; [|done].
  injection Hrows as <-.
  apply (filter_topic_concat _ _ _ T topic_data) in Heach; [done|..].
  - by apply NoDup_fst_iteritems_in.
  - intros [T' td'] rows r [_ HT']%elem_of_iteritems_in Hbody Hr. simpl.
    rewrite (topic_consensus_names _ _ _ _ Hbody Hr). f_equal.
    by destruct (Hwf T' td' HT').
  - apply elem_of_iteritems_in. split; [by apply Hins|done].
Qed.

Lemma get_answer_consensus_of_topic self rows T topic_data :
  well_formed self →
  ConsensusProcessor.get_answer_consensus self = Ok rows →
  ConsensusProcessor.topics self !! T = Some topic_data →
  ConsensusProcessor.topic_answer_consensus self topic_data
  = Ok (filter (λ r, Row.topic_name r = Some T) rows).
Proof.
  intros (Hwf & _ & _ & Hnd & Hins) Hrows HT.
  unfold ConsensusProcessor.get_answer_consensus in Hrows.
  destruct (for_each _ _) as [rowss|] eqn:Heach; simpl in Hrows; [|done].
  injection Hrows as <-.
  apply (filter_topic_concat _ _ _ T topic_data) in Heach; [done|..].
  - by apply NoDup_fst_iteritems_in.
  - intros [T' td'] rows r [_ HT']%elem_of_iteritems_in Hbody Hr. simpl.
    rewrite (topic_answer_names _ _ _ _ Hbody Hr). f_equal.
    by destruct (Hwf T' td' HT').
  - apply elem_of_iteritems_in. split; [by apply Hins|done].
Qed.

(** C7: [get_answer_consensus] against [get_consensus], on a processor
    that was fed any batches.  The two raise together, and removing the
    zero-length rows and [extra] from the answer rows gives the rows of
    [get_consensus].  When they return, every answer row carries the name
    of a topic, and for each topic, with [contrib_count] the number of
    distinct contributors in its [contrib_dict] (for a single batch that
    was taken: the distinct contributors of the annotations of the topic
    that pass the redundancy filter): every answer row of the topic carries
    [contrib_count] in [extra]; when [get_consensus] has no row for the
    topic and [contrib_count] reaches [pass_threshold], the answer rows of
    the topic are exactly one row, with [start_pos] 0, [end_pos] 0 and the
    empty text; otherwise they are the rows [get_consensus] has for the
    topic, in their order, with [extra] added. *)
Theorem answer_consensus_fallback_and_extra
    (task_uuid : string) (iaa_config : gmap string Z)
    (batches : list (list Anno.t)) :
  let self : ConsensusProcessor.t char := fed task_uuid iaa_config batches in
  ConsensusProcessor.get_consensus self
  = map_outcome highlight_rows (ConsensusProcessor.get_answer_consensus self)
  ∧ ∀ answer_rows,
      ConsensusProcessor.get_answer_consensus self = Ok answer_rows →
      ∃ rows,
        ConsensusProcessor.get_consensus self = Ok rows
        ∧ (∀ r, r ∈ answer_rows →
             ∃ T, is_Some (ConsensusProcessor.topics self !! T)
                  ∧ Row.topic_name r = Some T)
        ∧ ∀ T topic_data,
            ConsensusProcessor.topics self !! T = Some topic_data →
            let contrib_count :=
              Z.of_nat (size (dom (TopicData.contrib_dict topic_data))) in
            let of_topic := filter (λ r, Row.topic_name r = Some T) in
            TopicData.get_contrib_count topic_data = contrib_count
            ∧ (∀ batch,
                 batches = [batch] →
                 (ConsensusProcessor.consider
                    (ConsensusProcessor.init (char := char) task_uuid iaa_config)
                    batch).2 = Ok () →
                 dom (TopicData.contrib_dict topic_data)
                 = contributors (redundancy_of iaa_config) batch T)
            ∧ (∀ r, r ∈ of_topic answer_rows →
                 Row.extra r = Some contrib_count)
            ∧ (of_topic rows = [] →
               ConsensusProcessor.pass_threshold self ≤ contrib_count →
               of_topic answer_rows
               = [Row.mk 0 0 (Some (unicode_escape_encode [])) (Some T)
                    (Some (TopicData.namespace topic_data)) (Some 1)
                    (Some (ArticleData.article_sha256
                             (ConsensusProcessor.article_data self)))
                    (Some (ArticleData.article_filename
                             (ConsensusProcessor.article_data self)))
                    (Some (ConsensusProcessor.task_uuid self))
                    (Some contrib_count)])
            ∧ (¬ (of_topic rows = []
                  ∧ ConsensusProcessor.pass_threshold self ≤ contrib_count) →
               of_topic answer_rows
               = Row.set_extra contrib_count <$> of_topic rows).
Proof.
  intros self. split; [apply get_consensus_highlight_rows|].
  intros answer_rows Hans.
  pose proof (fed_is_well_formed task_uuid iaa_config batches) as Hwf.
  fold self in Hwf.
  pose proof (get_consensus_highlight_rows self) as Hhigh.
  rewrite Hans in Hhigh. simpl in Hhigh.
  exists (highlight_rows answer_rows). split; [done|]. split.
  { intros r Hr.
    apply (get_answer_consensus_elem _ _ _ Hans) in Hr
      as (T & td & rows' & _ & HT & Hbody & Hr).
    exists T. split; [by eexists|].
    rewrite (topic_answer_names _ _ _ _ Hbody Hr). f_equal.
    destruct Hwf as (Hwf & _). by destruct (Hwf T td HT). }
  intros T topic_data HT contrib_count of_topic.
  pose proof (get_consensus_of_topic _ _ _ _ Hwf Hhigh HT) as Hrows.
  pose proof (get_answer_consensus_of_topic _ _ _ _ Hwf Hans HT) as Harows.
  fold of_topic in Hrows, Harows.
  assert (TopicData.get_contrib_count topic_data = contrib_count) as Hcount
    by (unfold TopicData.get_contrib_count, contrib_count; by rewrite size_dom).
  assert (of_topic (highlight_rows answer_rows) = []
          ↔ TopicData.get_consensus topic_data
              (ConsensusProcessor.determine_passing
                 (ConsensusProcessor.pass_threshold self)) = []) as Hnil.
  { pose proof (topic_consensus_span _ _ _ Hrows) as Hspan.
    split; intros Heq; rewrite Heq in Hspan.
    - symmetry in Hspan. by apply fmap_nil_inv in Hspan.
    - by apply fmap_nil_inv in Hspan. }
  split_and!.
  - done.
  - intros batch -> Hrun. unfold fed in self. simpl in self.
    destruct (ConsensusProcessor.consider _ batch) as [self' r] eqn:Hcons.
    simpl in Hrun. subst r. subst self. simpl in HT.
    unfold ConsensusProcessor.consider in Hcons. simpl in Hcons.
    fold (redundancy_of iaa_config) in Hcons.
    pose proof (fresh_supporters _ _ _ _ _ T 0 Hcons) as Hsup.
    rewrite HT in Hsup. by destruct Hsup.
  - intros r Hr. rewrite <-Hcount. by eapply topic_answer_extra.
  - intros Hno%Hnil Hge. rewrite <-Hcount in Hge.
    destruct (topic_answer_fallback _ _ Hno Hge) as [_ Hfall].
    rewrite Hfall in Harows. injection Harows as <-. rewrite Hcount.
    destruct Hwf as (Hwf & _). by destruct (Hwf T topic_data HT) as [-> _].
  - intros Hno. rewrite Hnil, <-Hcount in Hno.
    rewrite (topic_answer_regular _ _ Hno), Hrows in Harows. simpl in Harows.
    injection Harows as <-. by rewrite Hcount.
Qed.

Lemma for_each_Permutation {A B} (body : A → outcome B) (l l' : list A) ys :
  l ≡ₚ l' → for_each body l = Ok ys →
  ∃ ys', for_each body l' = Ok ys' ∧ ys ≡ₚ ys'.
Proof.
  intros Hperm. revert ys.
  induction Hperm as [|x l l' _ IH|x y l|l l' l'' _ IH _ IH']; intros ys; simpl.
  - intros [= <-]. by exists [].
  - destruct (body x) as [z|]; simpl; [|done].
    destruct (for_each body l) as [zs|] eqn:Hl; simpl; [|done].
    intros [= <-]. destruct (IH zs eq_refl) as (zs' & -> & Hp). simpl.
    exists (z :: zs'). by rewrite Hp.
  - destruct (body y) as [zy|]; simpl; [|done].
    destruct (body x) as [zx|]; simpl; [|done].
    destruct (for_each body l) as [zs|]; simpl; [|done].
    intros [= <-]. exists (zx :: zy :: zs). split; [done|apply perm_swap].
  - intros Hys. destruct (IH _ Hys) as (ys' & Hys' & Hp).
    destruct (IH' _ Hys') as (ys'' & ? & Hp').
    exists ys''. split; [done|by rewrite Hp].
Qed.

Lemma concat_Permutation {A} (ls ls' : list (list A)) :
  ls ≡ₚ ls' → concat ls ≡ₚ concat ls'.
Proof.
  induction 1 as [|l ls ls' _ IH|l1 l2 ls|ls ls' ls'' _ IH _ IH']; simpl.
  - done.
  - by rewrite IH.
  - by rewrite !(assoc (++)), (comm (++) l2 l1).
  - by rewrite IH.
Qed.

Lemma topic_consensus_Raise self topic_data e :
  ConsensusProcessor.topic_consensus self topic_data = Raise e → e = KeyError.
Proof.
  unfold ConsensusProcessor.topic_consensus.
  destruct (ConsensusProcessor.set_text _ _) as [offsets'|e'] eqn:Htext; simpl;
    [done|].
  intros [= <-]. by apply set_text_Raise in Htext as [-> _].
Qed.

(** Two processors built by [consider] that differ at most in the order in
    which their topics were inserted return the same rows for each topic;
    the topics may come in another order. *)
Lemma get_consensus_same_up_to_order self self' :
  well_formed self → well_formed self' → same_up_to_order self self' →
  (∀ rows,
     ConsensusProcessor.get_consensus self = Ok rows →
     ∃ rows',
       ConsensusProcessor.get_consensus self' = Ok rows'
       ∧ rows' ≡ₚ rows
       ∧ ∀ T, filter (λ r, Row.topic_name r = Some T) rows'
              = filter (λ r, Row.topic_name r = Some T) rows)
  ∧ (∀ e,
       ConsensusProcessor.get_consensus self = Raise e →
       ConsensusProcessor.get_consensus self' = Raise e).
Proof.
  intros Hwf Hwf' (Huuid & Hcfg & Harticle & Htopics & Hperm).
  assert (∀ topic_data,
            ConsensusProcessor.topic_consensus self' topic_data
            = ConsensusProcessor.topic_consensus self topic_data) as Hbody.
  { intros td. unfold ConsensusProcessor.topic_consensus,
      ConsensusProcessor.set_text, ConsensusProcessor.set_links,
      ConsensusProcessor.pass_threshold.
    by rewrite Huuid, Hcfg, Harticle. }
  pose proof (iteritems_in_Permutation _ _ (ConsensusProcessor.topics self) Hperm)
    as Hitems.
  split.
  - intros rows Hrows.
    assert (∃ rows', ConsensusProcessor.get_consensus self' = Ok rows'
                     ∧ rows' ≡ₚ rows) as (rows' & Hrows' & Hp).
    { unfold ConsensusProcessor.get_consensus in *. rewrite <-Htopics.
      destruct (for_each _ (iteritems_in (ConsensusProcessor.topics_inserted self) _))
        as [rowss|] eqn:Heach; simpl in Hrows; [|done].
      injection Hrows as <-.
      destruct (for_each_Permutation _ _ _ _ Hitems Heach)
        as (rowss' & Heach' & Hp).
      rewrite (for_each_ext _
        (λ '(_, topic_data), ConsensusProcessor.topic_consensus self topic_data))
        by (by intros [? ?]).
      rewrite Heach'. simpl. eexists. split; [done|].
      by apply concat_Permutation. }
    exists rows'. split_and!; [done..|]. intros T.
    destruct (ConsensusProcessor.topics self !! T) as [td|] eqn:HT.
    + pose proof (get_consensus_of_topic _ _ _ _ Hwf Hrows HT) as Hof.
      rewrite Htopics in HT.
      pose proof (get_consensus_of_topic _ _ _ _ Hwf' Hrows' HT) as Hof'.
      rewrite Hbody in Hof'. congruence.
    + rewrite !filter_none; [done|..].
      * intros r Hr Hname.
        apply (get_consensus_elem _ _ _ Hrows) in Hr
          as (T' & td & rows0 & _ & HT' & Hb & Hr).
        rewrite (topic_consensus_names _ _ _ _ Hb Hr) in Hname.
        injection Hname as Hname. destruct Hwf as (Hwf & _).
        destruct (Hwf T' td HT') as [Hkey _]. congruence.
      * intros r Hr Hname. rewrite Hp in Hr.
        apply (get_consensus_elem _ _ _ Hrows) in Hr
          as (T' & td & rows0 & _ & HT' & Hb & Hr).
        rewrite (topic_consensus_names _ _ _ _ Hb Hr) in Hname.
        injection Hname as Hname. destruct Hwf as (Hwf & _).
        destruct (Hwf T' td HT') as [Hkey _]. congruence.
  - intros e Hraise. unfold ConsensusProcessor.get_consensus in *.
    rewrite <-Htopics.
    destruct (for_each _ (iteritems_in (ConsensusProcessor.topics_inserted self) _))
      as [rowss|e0] eqn:Heach; simpl in Hraise; [done|].
    injection Hraise as ->.
    apply for_each_Raise in Heach as ([T td] & Hin & Hb).
    pose proof (topic_consensus_Raise _ _ _ Hb) as ->.
    rewrite <-Hbody in Hb.
    destruct (for_each_not_Ok
      (λ '(_, topic_data), ConsensusProcessor.topic_consensus self' topic_data)
      (iteritems_in (ConsensusProcessor.topics_inserted self')
         (ConsensusProcessor.topics self)) (T, td) KeyError) as [e' Heach'].
    + by rewrite <-Hitems.
    + done.
    + rewrite Heach'. simpl. f_equal.
      apply for_each_Raise in Heach' as ([T' td'] & _ & Hb').
      by apply topic_consensus_Raise in Hb'.
Qed.

(** A batch that is taken inserts its new topics in the order in which it
    first names them. *)
Lemma for_state_topics_inserted minimum_redundancy self batch self' :
  well_formed self →
  for_state (ConsensusProcessor.consider_anno minimum_redundancy) self batch
    = (self', Ok ()) →
  ConsensusProcessor.topics_inserted self'
  = foldl (λ named T, if decide (T ∈ named) then named else named ++ [T])
      (ConsensusProcessor.topics_inserted self)
      (Anno.topic_name <$> filter (counted minimum_redundancy) batch).
Proof.
  revert self. induction batch as [|anno batch IH]; intros self Hwf; simpl.
  { by intros [= <-]. }
  pose proof (consider_anno_well_formed minimum_redundancy self anno Hwf) as Hwf1.
  destruct (ConsensusProcessor.consider_anno _ self anno)
    as [self1 [[]|e]] eqn:Hanno; [|done].
  simpl in Hwf1. intros Hrun. rewrite (IH self1 Hwf1 Hrun).
  destruct (decide (counted minimum_redundancy anno)) as [Hc|Hc].
  - rewrite filter_cons_True by done. csimpl. f_equal.
    apply consider_anno_Ok in Hanno as (article' & td' & _ & _ & ->); [|done].
    simpl. unfold inserted_after. destruct Hwf as (_ & _ & _ & _ & Hins).
    destruct (ConsensusProcessor.topics self !! Anno.topic_name anno)
      as [td|] eqn:HT.
    + rewrite decide_True; [done|]. apply Hins. by rewrite HT.
    + rewrite decide_False; [done|]. intros [? Hin]%Hins. congruence.
  - rewrite filter_cons_False by done.
    unfold counted in Hc. apply dec_stable in Hc.
    rewrite consider_anno_dropped in Hanno by done. by injection Hanno as <-.
Qed.

(** C4: the order of a consistent batch does not matter, up to the order
    in which the topics come.  Fed to a fresh processor, a consistent batch
    and any permutation of it are both taken without an exception and
    leave the same [char_dict], the same article and the same topics; only
    the order in which the topics were inserted may differ, which is the
    order in which each batch first names them.  When [get_consensus]
    returns for the one it returns for the other; the rows of each topic
    are the same in the same order, and the two lists of rows are
    permutations of each other.  When it raises for the one it raises the
    same exception for the other.  When the two batches first name the
    topics in the same order, as they do when there is one topic, they
    leave the same processor, and the rows are identical. *)
Theorem consider_permutation_invariant
    (task_uuid : string) (iaa_config : gmap string Z) batch batch' :
  let self : ConsensusProcessor.t char :=
    ConsensusProcessor.init task_uuid iaa_config in
  consistent (redundancy_of iaa_config) batch →
  batch ≡ₚ batch' →
  ∃ after after',
    ConsensusProcessor.consider self batch = (after, Ok ())
    ∧ ConsensusProcessor.consider self batch' = (after', Ok ())
    ∧ ArticleData.char_dict (ConsensusProcessor.article_data after')
      = ArticleData.char_dict (ConsensusProcessor.article_data after)
    ∧ same_up_to_order after after'
    ∧ ConsensusProcessor.topics_inserted after
      = first_named (redundancy_of iaa_config) batch
    ∧ ConsensusProcessor.topics_inserted after'
      = first_named (redundancy_of iaa_config) batch'
    ∧ (∀ rows,
         ConsensusProcessor.get_consensus after = Ok rows →
         ∃ rows',
           ConsensusProcessor.get_consensus after' = Ok rows'
           ∧ rows' ≡ₚ rows
           ∧ ∀ T, filter (λ r, Row.topic_name r = Some T) rows'
                  = filter (λ r, Row.topic_name r = Some T) rows)
    ∧ (∀ e,
         ConsensusProcessor.get_consensus after = Raise e →
         ConsensusProcessor.get_consensus after' = Raise e)
    ∧ (first_named (redundancy_of iaa_config) batch'
       = first_named (redundancy_of iaa_config) batch →
       after' = after
       ∧ ConsensusProcessor.get_consensus after'
         = ConsensusProcessor.get_consensus after).
Proof.
  intros self Hcons Hperm.
  pose proof (fed_is_well_formed task_uuid iaa_config []) as Hwf0.
  change (fed task_uuid iaa_config []) with self in Hwf0.
  pose proof (consider_well_formed self batch Hwf0) as Hwf.
  pose proof (consider_well_formed self batch' Hwf0) as Hwf'.
  unfold ConsensusProcessor.consider in *. simpl in *.
  fold (redundancy_of iaa_config) in *.
  set (minimum_redundancy := redundancy_of iaa_config) in *.
  set (accepted := λ anno : Anno.t, ¬ Anno.taskrun_count anno < minimum_redundancy).
  destruct (for_state_agreeing minimum_redundancy self [] (filter accepted batch))
    as [after Hok]; simpl.
  - apply Forall_forall. by intros anno [? _]%list_elem_of_filter.
  - intros k c. by rewrite lookup_empty.
  - done.
  - intros name td. by rewrite lookup_empty.
  - intros anno1 anno2 [? ?]%list_elem_of_filter [? ?]%list_elem_of_filter.
    by apply Hcons.
  - destruct (for_state_Permutation minimum_redundancy self self
                (filter accepted batch) (filter accepted batch') after)
      as (after' & Hok' & Hsame).
    + by rewrite Hperm.
    + intros anno1 anno2 [? ?]%list_elem_of_filter [? ?]%list_elem_of_filter.
      by apply Hcons.
    + apply same_up_to_order_refl.
    + done.
    + rewrite <-for_state_filter in Hok, Hok'.
      rewrite Hok in Hwf |- *. rewrite Hok' in Hwf' |- *. simpl in Hwf, Hwf'.
      pose proof (for_state_topics_inserted _ _ _ _ Hwf0 Hok) as Hins.
      pose proof (for_state_topics_inserted _ _ _ _ Hwf0 Hok') as Hins'.
      exists after, after'. split_and!; [done|done| |done|done|done|..].
      * destruct Hsame as (_ & _ & -> & _). done.
      * by apply get_consensus_same_up_to_order.
      * by apply get_consensus_same_up_to_order.
      * intros Heq. unfold first_named in Heq. fold minimum_redundancy in Heq.
        assert (after' = after) as ->; [|done].
        destruct Hsame as (? & ? & ? & ? & _).
        destruct after, after'. simpl in *. subst.
        by f_equal.
Qed.
End topic_rows.

(** ** The theorems above at concrete inputs *)

Section instances.
Local Abbreviation abcd := (example_anno 0 4 "abcd" "A" "T1" 3) (only parsing).

(** An instance of X8: the example processor is fed the example answers;
    position 2 of topic [T1] stays covered at threshold 2. *)
Lemma consider_keeps_consensus_witness :
  ∃ topic_data',
    ConsensusProcessor.topics
      (ConsensusProcessor.consider (example_processor ∅) example_answers).1 !! "T1"
      = Some topic_data'
    ∧ TopicData.get_contrib_count example_topic
        ≤ TopicData.get_contrib_count topic_data'
    ∧ ∀ pass_threshold p,
        covered (TopicData.get_consensus example_topic
                   (ConsensusProcessor.determine_passing pass_threshold)) p →
        covered (TopicData.get_consensus topic_data'
                   (ConsensusProcessor.determine_passing pass_threshold)) p.
Proof.
  apply (consider_keeps_consensus (example_processor ∅) example_answers "T1"
           example_topic).
  vm_compute. reflexivity.
Defined.

(** An instance of X10: what the example batch leaves for contributor [A]
    of topic [T1]. *)
Lemma consider_builds_state_witness :
  contrib_of (example_processor ∅) "T1" "A"
  = Some (ContribData.consider ContribData.init abcd).
Proof.
  destruct (consider_builds_state (ConsensusProcessor.init "task" ∅)
              example_batch (example_processor ∅)) as [Hcontrib _].
  - vm_compute. reflexivity.
  - rewrite Hcontrib. reflexivity.
Defined.

(** An instance of X11, at the row of the example batch. *)
Lemma consensus_row_columns_witness :
  ∃ T topic_data chars,
    ConsensusProcessor.topics (example_processor ∅) !! T = Some topic_data
    ∧ recorded_text (ConsensusProcessor.article_data (example_processor ∅))
        (Row.start_pos example_row) (Row.end_pos example_row) chars
    ∧ example_row
      = Row.mk (Row.start_pos example_row) (Row.end_pos example_row)
          (Some (unicode_escape_encode chars))
          (Some (TopicData.topic_name topic_data))
          (Some (TopicData.namespace topic_data))
          (Row.case_number example_row)
          (Some (ArticleData.article_sha256
                   (ConsensusProcessor.article_data (example_processor ∅))))
          (Some (ArticleData.article_filename
                   (ConsensusProcessor.article_data (example_processor ∅))))
          (Some (ConsensusProcessor.task_uuid (example_processor ∅)))
          None.
Proof.
  apply (consensus_row_columns (example_processor ∅) [example_row] example_row).
  - vm_compute. reflexivity.
  - left.
Defined.

(** An instance of X12: position 2 of topic [T1] in the example batch. *)
Lemma consensus_counts_supporters_witness :
  (∃ r, r ∈ [example_row] ∧ Row.topic_name r = Some "T1" ∧ Row.covers r 2)
  ↔ supporters (redundancy_of ∅) example_batch "T1" 2 ≠ ∅
    ∧ ConsensusProcessor.pass_threshold (example_processor ∅)
        ≤ Z.of_nat (size (supporters (redundancy_of ∅) example_batch "T1" 2)).
Proof.
  apply (consensus_counts_supporters "task" ∅ example_batch
           (example_processor ∅) [example_row]);
    vm_compute; reflexivity.
Defined.

(** An instance of X13, at the example topic: it has three contributors. *)
Lemma answer_emitted_iff_threshold_witness :
  [Row.set_extra 3 example_row] ≠ []
  ↔ ConsensusProcessor.pass_threshold (example_processor ∅)
      ≤ TopicData.get_contrib_count example_topic.
Proof.
  apply (answer_emitted_iff_threshold (example_processor ∅) example_topic).
  vm_compute. reflexivity.
Defined.

(** An instance of X14: topic [T2] in the example answers. *)
Lemma answers_count_contributors_witness :
  (∃ r, r ∈ [example_answer_row] ∧ Row.topic_name r = Some "T2")
  ↔ contributors (redundancy_of ∅) example_answers "T2" ≠ ∅
    ∧ ConsensusProcessor.pass_threshold (example_run ∅ example_answers)
        ≤ Z.of_nat (size (contributors (redundancy_of ∅) example_answers "T2")).
Proof.
  apply (answers_count_contributors "task" ∅ example_answers
           (example_run ∅ example_answers) [example_answer_row]);
    vm_compute; reflexivity.
Defined.

(** An instance of X15: the example batch, then the example answers. *)
Lemma full_text_consensus_returns_witness :
  (∃ rows, ConsensusProcessor.get_consensus
             (fed (char := N) "task" ∅ [example_batch; example_answers])
           = Ok rows)
  ∧ (∃ rows, ConsensusProcessor.get_answer_consensus
               (fed (char := N) "task" ∅ [example_batch; example_answers])
             = Ok rows).
Proof.
  apply (full_text_consensus_returns (char := N) "task" ∅
           [example_batch; example_answers]).
  intros batch anno Hbatch Hanno _.
  apply list_elem_of_In in Hbatch, Hanno.
  unfold full_text.
  destruct Hbatch as [<-|[<-|[]]];
    repeat (destruct Hanno as [<-|Hanno]; [simpl; lia|]); destruct Hanno.
Defined.

(** An instance of X16: the text of the first example annotation, read back
    after the example answers were fed as well. *)
Lemma taken_text_reads_back_witness :
  ConsensusProcessor.set_text
    (ConsensusProcessor.consider (example_run ∅ [abcd]) example_answers).1
    [Row.offset 0 4]
  = Ok [Row.set_target_text "abcd" (Row.offset 0 4)].
Proof.
  refine (taken_text_reads_back (ConsensusProcessor.init "task" ∅) abcd
            (example_run ∅ [abcd]) example_answers _ _ _).
  - vm_compute. reflexivity.
  - unfold counted. vm_compute. discriminate.
  - unfold full_text. simpl. lia.
Defined.

(** An instance of X17: the first example annotation, fed twice. *)
Lemma consider_again_changes_nothing_witness :
  ConsensusProcessor.consider (example_run ∅ [abcd]) [abcd]
  = (example_run ∅ [abcd], Ok ()).
Proof.
  apply (consider_again_changes_nothing (ConsensusProcessor.init "task" ∅) abcd).
  vm_compute. reflexivity.
Defined.

(** An instance of X18: a fourth contributor chooses the example topic
    without a highlight. *)
Lemma empty_range_only_registers_witness :
  TopicData.sum_contribs
    (TopicData.consider example_topic (example_anno 0 0 "" "D" "T1" 3)).1
  = TopicData.sum_contribs example_topic
  ∧ TopicData.get_contrib_count
      (TopicData.consider example_topic (example_anno 0 0 "" "D" "T1" 3)).1
    = 4.
Proof.
  destruct (empty_range_only_registers (ArticleData.init (char := N))
              example_topic (example_anno 0 0 "" "D" "T1" 3))
    as (_ & _ & Hsum & Hcount).
  - simpl. lia.
  - split; [exact Hsum|]. rewrite Hcount. vm_compute. reflexivity.
Defined.

(** An instance of X21: the second annotation of the conflicting pair puts
    [x] where the first has put [f]. *)
Lemma consider_raises_at_first_clash_witness :
  ∃ batch1 anno batch2 self1,
    example_conflict = batch1 ++ anno :: batch2
    ∧ ConsensusProcessor.consider (ConsensusProcessor.init "task" ∅) batch1
      = (self1, Ok ())
    ∧ ConsensusProcessor.consider self1 [anno]
      = (example_run ∅ example_conflict, Raise AssertionError)
    ∧ counted (redundancy_of
                 (ConsensusProcessor.iaa_config
                    (ConsensusProcessor.init (char := N) "task" ∅))) anno
    ∧ decodes anno
    ∧ (char_clash (ConsensusProcessor.article_data self1) anno
       ∨ identity_clash (ConsensusProcessor.article_data self1) anno
       ∨ ∃ topic_data,
           ConsensusProcessor.topics self1 !! Anno.topic_name anno
             = Some topic_data
           ∧ topic_clash topic_data anno).
Proof.
  destruct (consider_raises_at_first_clash (ConsensusProcessor.init "task" ∅)
              example_conflict (example_run ∅ example_conflict) AssertionError)
    as (_ & batch1 & anno & batch2 & self1
        & Hsplit & Hrun & Hbad & Hc & Hdec & _ & Hwhy).
  - vm_compute. reflexivity.
  - exists batch1, anno, batch2, self1. split_and!; [done..| |auto].
    destruct (decodes_dec anno) as [?|Hno]; [done|]. by apply Hdec in Hno.
Defined.

(** The order of the model on small dictionaries: [a] and [i] come in the
    order of their insertion, [T1] and [T2] do not, and the keys [a] to [h]
    come as CPython 2.7 prints them. *)
Example scenario_dict_order :
  iter_keys ["a"; "i"] = ["a"; "i"]
  ∧ iter_keys ["i"; "a"] = ["i"; "a"]
  ∧ iter_keys ["T1"; "T2"] = ["T2"; "T1"]
  ∧ iter_keys ["T2"; "T1"] = ["T2"; "T1"]
  ∧ iter_keys ["a"; "b"; "c"; "d"; "e"; "f"; "g"; "h"]
    = ["a"; "c"; "b"; "e"; "d"; "g"; "f"; "h"].
Proof. vm_compute. by split_and!. Qed.

Lemma example_two_topics_consistent :
  consistent (redundancy_of {["pass_threshold" := 1]}) example_two_topics.
Proof.
  intros anno1 anno2 H1 H2 _ _. unfold example_two_topics in *.
  repeat (apply elem_of_cons in H1 as [->|H1]);
    [..|by apply elem_of_nil in H1];
    (repeat (apply elem_of_cons in H2 as [->|H2]);
     [..|by apply elem_of_nil in H2]);
    apply agree_intro;
    try (apply (bool_decide_unpack _); vm_compute; exact I);
    vm_compute; reflexivity.
Qed.

(** A counterexample to C4 as the specification states it: the batch of two
    topics is consistent, and the rows of [get_consensus] come in the order
    in which the batch named the topics, so the two orders of the batch
    give two lists. *)
Lemma consider_permutation_invariant_counterexample :
  consistent (redundancy_of {["pass_threshold" := 1]}) example_two_topics
  ∧ example_two_topics ≡ₚ example_two_topics_swapped
  ∧ ConsensusProcessor.get_consensus
      (example_run {["pass_threshold" := 1]} example_two_topics)
    = Ok [example_row_a; example_row_i]
  ∧ ConsensusProcessor.get_consensus
      (example_run {["pass_threshold" := 1]} example_two_topics_swapped)
    = Ok [example_row_i; example_row_a]
  ∧ ConsensusProcessor.get_consensus
      (example_run {["pass_threshold" := 1]} example_two_topics_swapped)
    ≠ ConsensusProcessor.get_consensus
        (example_run {["pass_threshold" := 1]} example_two_topics).
Proof.
  split_and!.
  - apply example_two_topics_consistent.
  - apply perm_swap.
  - vm_compute. reflexivity.
  - vm_compute. reflexivity.
  - vm_compute. discriminate.
Qed.

(** An instance of C4, at the batch of two topics and the same batch the
    other way round: the rows of each topic are the same. *)
Lemma consider_permutation_invariant_witness :
  ∃ rows',
    ConsensusProcessor.get_consensus
      (example_run {["pass_threshold" := 1]} example_two_topics_swapped)
    = Ok rows'
    ∧ rows' ≡ₚ [example_row_a; example_row_i]
    ∧ ∀ T, filter (λ r, Row.topic_name r = Some T) rows'
           = filter (λ r, Row.topic_name r = Some T)
               [example_row_a; example_row_i].
Proof.
  destruct (consider_permutation_invariant (char := N) "task"
              {["pass_threshold" := 1]} example_two_topics
              example_two_topics_swapped)
    as (after & after' & Hrun & Hrun' & _ & _ & _ & _ & Hrows & _).
  - apply example_two_topics_consistent.
  - apply perm_swap.
  - apply (f_equal fst) in Hrun, Hrun'. simpl in Hrun, Hrun'.
    subst after after'.
    apply (Hrows [example_row_a; example_row_i]).
    vm_compute. reflexivity.
Defined.

(** An instance of C7: the example batch and the example answers in one
    batch.  Topic [T2] has three contributors and no range: its answer
    rows are the one zero-length row, with the count 3. *)
Lemma answer_consensus_fallback_and_extra_witness :
  ConsensusProcessor.get_answer_consensus
    (fed (char := N) "task" ∅ [example_batch ++ example_answers])
  = Ok [example_answer_row; Row.set_extra 3 example_row]
  ∧ ConsensusProcessor.get_consensus
      (fed (char := N) "task" ∅ [example_batch ++ example_answers])
    = Ok [example_row]
  ∧ filter (λ r, Row.topic_name r = Some "T2")
      [example_answer_row; Row.set_extra 3 example_row]
    = [example_answer_row]
  ∧ filter (λ r, Row.topic_name r = Some "T1")
      [example_answer_row; Row.set_extra 3 example_row]
    = Row.set_extra 3
        <$> filter (λ r, Row.topic_name r = Some "T1") [example_row].
Proof.
  assert (ConsensusProcessor.get_answer_consensus
            (fed (char := N) "task" ∅ [example_batch ++ example_answers])
          = Ok [example_answer_row; Row.set_extra 3 example_row]) as Hans
    by (vm_compute; reflexivity).
  assert (ConsensusProcessor.get_consensus
            (fed (char := N) "task" ∅ [example_batch ++ example_answers])
          = Ok [example_row]) as Hrows
    by (vm_compute; reflexivity).
  destruct (answer_consensus_fallback_and_extra (char := N) "task" ∅
              [example_batch ++ example_answers]) as [_ Hall].
  destruct (Hall _ Hans) as (rows & Hrows' & _ & Htopic).
  rewrite Hrows in Hrows'. injection Hrows' as <-.
  split_and!; [done|done| |].
  - destruct (Htopic "T2"
      (default TopicData.init
         (ConsensusProcessor.topics
            (fed (char := N) "task" ∅ [example_batch ++ example_answers])
          !! "T2"))) as (_ & _ & _ & Hfall & _); [vm_compute; reflexivity|].
    rewrite Hfall; [vm_compute; reflexivity|vm_compute; reflexivity|].
    vm_compute. discriminate.
  - destruct (Htopic "T1"
      (default TopicData.init
         (ConsensusProcessor.topics
            (fed (char := N) "task" ∅ [example_batch ++ example_answers])
          !! "T1"))) as (_ & _ & _ & _ & Hreg); [vm_compute; reflexivity|].
    rewrite Hreg; [vm_compute; reflexivity|].
    intros [Hnil _]. vm_compute in Hnil. discriminate.
Defined.

(** A counterexample to C8 as the specification states it: a text that
    cannot be decoded.  On a fresh article nothing clashes, and the call
    raises; on an article recorded under another sha256 the identity
    differs, and the exception is the decoding error, raised before the
    identity is compared. *)
Lemma article_consider_raises_exactly_counterexample :
  ¬ char_clash (ArticleData.init (char := N)) example_undecodable
  ∧ ¬ identity_clash (ArticleData.init (char := N)) example_undecodable
  ∧ ArticleData.consider (ArticleData.init (char := N)) example_undecodable
    = (ArticleData.init, Raise UnicodeDecodeError)
  ∧ identity_clash
      (ArticleData.mk (Some "sha-0") (Some "article.txt") (∅ : gmap Z N))
      example_undecodable
  ∧ ArticleData.consider
      (ArticleData.mk (Some "sha-0") (Some "article.txt") (∅ : gmap Z N))
      example_undecodable
    = (ArticleData.mk (Some "sha-0") (Some "article.txt") ∅,
       Raise UnicodeDecodeError).
Proof.
  split_and!.
  - intros (i & known & new & _ & _ & Hknown & _). simpl in Hknown.
    by rewrite lookup_empty in Hknown.
  - by intros (sha & [=] & _).
  - vm_compute. reflexivity.
  - exists "sha-0". split; [reflexivity|]. left. discriminate.
  - vm_compute. reflexivity.
Qed.

(** A counterexample to C10 as it is stated.  After [abcd] was recorded at
    [0,4), an annotation of [0,4) with the shorter text [xb] does not
    succeed: it clashes at position 0.  One with the shorter text [ab]
    succeeds, but positions 2 and 3 are not absent: they keep [c] and [d],
    and the text of [0,4) is reconstructed. *)
Lemma article_consider_short_text_counterexample :
  (Z.of_nat (length (decoded (char := N) (example_anno 0 4 "xb" "B" "T1" 3)))
    < 4 - 0
   ∧ (ArticleData.consider
        (ArticleData.consider (ArticleData.init (char := N)) abcd).1
        (example_anno 0 4 "xb" "B" "T1" 3)).2 = Raise AssertionError)
  ∧ (Z.of_nat (length (decoded (char := N) (example_anno 0 4 "ab" "B" "T1" 3)))
      < 4 - 0
     ∧ (ArticleData.consider
          (ArticleData.consider (ArticleData.init (char := N)) abcd).1
          (example_anno 0 4 "ab" "B" "T1" 3)).2 = Ok ()
     ∧ ArticleData.char_dict
         (ArticleData.consider
            (ArticleData.consider (ArticleData.init (char := N)) abcd).1
            (example_anno 0 4 "ab" "B" "T1" 3)).1 !! 2 = Some 99%N
     ∧ ConsensusProcessor.set_text
         (example_run ∅ [abcd; example_anno 0 4 "ab" "B" "T1" 3])
         [Row.offset 0 4]
       = Ok [Row.set_target_text "abcd" (Row.offset 0 4)]).
Proof. vm_compute. split_and!; (reflexivity || done). Qed.
End instances.
